(** * picfixer: the raster pipeline (ColorUtils, DitheringEngine,
    EffectsEngine, ImageProcessor) embedded in Rocq.

    JavaScript Numbers are IEEE-754 binary64 values, so they are modelled by
    the kernel's primitive [float]; every arithmetic operator of the source
    is the corresponding primitive operation.  The elements of a
    [Uint8ClampedArray] are integers in [0,255] and are kept in [Z]; a store
    into such an array goes through [toUint8Clamp].  The elements of a
    [Float32Array] are kept as [float] and a store goes through [fround].
    Integer-valued settings (the UI feeds them through [parseInt]) and the
    byte arithmetic of [getLuminance] are kept in [Z]. *)

From Stdlib Require Import ZArith Lia Bool Ascii String Floats Uint63 Sorted.
From Stdlib Require HexadecimalString.
From Stdlib Require Reals Lra.
From stdpp Require Import base list.

Set Warnings "-inexact-float".

(** ** JavaScript numbers and typed-array conversions *)
Module JS.

(** Result of a call that may throw. *)
Inductive jsError := TypeError | Error (msg : string).

Inductive result (A : Type) :=
| Ok (a : A)
| Throw (e : jsError).
Arguments Ok {A} a.
Arguments Throw {A} e.

#[global] Instance result_ret : MRet result := fun A a => Ok a.
#[global] Instance result_bind : MBind result := fun A B k r =>
  match r with
  | Ok a => k a
  | Throw e => Throw e
  end.

(** An integer seen as a Number. The integers of the model (bytes,
    indices, settings) are below 2^63 in magnitude, where [of_uint63] is the
    conversion to the nearest Number. *)
Definition Z2f (z : Z) : float :=
  match z with
  | Z0 => 0%float
  | Zpos _ => of_uint63 (Uint63.of_Z z)
  | Zneg p => (- of_uint63 (Uint63.of_Z (Zpos p)))%float
  end.

(** [Math.round] on a finite non-integral Number [(-1)^s * m * 2^e],
    [e < 0]: the nearest integer, ties towards +infinity. *)
Definition roundHalfUp (s : bool) (m : positive) (e : Z) : Z :=
  let k := (- e)%Z in
  let q := Z.shiftr (Zpos m) k in
  let r := Z.land (Zpos m) (Z.ones k) in
  let half := Z.shiftl 1 (k - 1) in
  if s then (if (half <? r)%Z then (- (q + 1))%Z else (- q)%Z)
  else (if (half <=? r)%Z then (q + 1)%Z else q).

(** [Math.round]: integral values, infinities, zeros and NaN are returned
    unchanged; a result that is zero keeps the sign of the argument. *)
Definition Math_round (x : float) : float :=
  match Prim2SF x with
  | S754_finite s m e =>
      if (0 <=? e)%Z then x
      else
        let z := roundHalfUp s m e in
        if (z =? 0)%Z then (if s then neg_zero else zero) else Z2f z
  | _ => x
  end.

(** An integral Number read as an integer: the result of [Math.round] where
    the source goes on with integer arithmetic and indexing. The sign of a
    zero is not kept. *)
Inductive integral :=
| Int (z : Z)
| Inf (negative : bool)
| NaNInt.

Definition Math_roundI (x : float) : integral :=
  match Prim2SF x with
  | S754_nan => NaNInt
  | S754_infinity s => Inf s
  | S754_zero _ => Int 0
  | S754_finite s m e =>
      if (0 <=? e)%Z
      then Int (if s then - Z.shiftl (Zpos m) e else Z.shiftl (Zpos m) e)%Z
      else Int (roundHalfUp s m e)
  end.

(** [Math.min] and [Math.max] on integral Numbers. *)
Definition Math_minI (a b : integral) : integral :=
  match a, b with
  | NaNInt, _ | _, NaNInt => NaNInt
  | Inf true, _ | _, Inf true => Inf true
  | Inf false, c | c, Inf false => c
  | Int x, Int y => Int (Z.min x y)
  end.

Definition Math_maxI (a b : integral) : integral :=
  match a, b with
  | NaNInt, _ | _, NaNInt => NaNInt
  | Inf false, _ | _, Inf false => Inf false
  | Inf true, c | c, Inf true => c
  | Int x, Int y => Int (Z.max x y)
  end.

(** An integral Number used as an array index: only a non-negative integer
    names an element. *)
Definition indexOf (i : integral) : option nat :=
  match i with
  | Int z => if (0 <=? z)%Z then Some (Z.to_nat z) else None
  | _ => None
  end.

(** [Math.min] and [Math.max]: NaN if either argument is NaN, and
    [-0] is smaller than [+0]. *)
Definition Math_min (a b : float) : float :=
  if is_nan a || is_nan b then nan
  else if (a <? b)%float then a
  else if (b <? a)%float then b
  else if get_sign a then a else b.

Definition Math_max (a b : float) : float :=
  if is_nan a || is_nan b then nan
  else if (a <? b)%float then b
  else if (b <? a)%float then a
  else if get_sign a then b else a.

(** ToUint8Clamp, the conversion of a store into a [Uint8ClampedArray]:
    NaN becomes 0, the value is clamped to [0,255] and rounded to the
    nearest integer, ties to even. *)
Definition toUint8Clamp (x : float) : Z :=
  match Prim2SF x with
  | S754_nan => 0
  | S754_zero _ => 0
  | S754_infinity s => if s then 0 else 255
  | S754_finite s m e =>
      if s then 0
      else if (0 <=? e)%Z then Z.min 255 (Z.shiftl (Zpos m) e)
      else
        let k := (- e)%Z in
        let q := Z.shiftr (Zpos m) k in
        let r := Z.land (Zpos m) (Z.ones k) in
        let half := Z.shiftl 1 (k - 1) in
        let z := if (r <? half)%Z then q
                 else if (half <? r)%Z then (q + 1)%Z
                 else if Z.even q then q else (q + 1)%Z in
        Z.min 255 z
  end.

(** The same store for a value that is already an integer. *)
Definition clampByte (z : Z) : Z := Z.max 0 (Z.min 255 z).

(** The conversion of a store into a [Float32Array]: round to the nearest
    binary32 value (24-bit significand, ties to even). *)
Definition fround (x : float) : float :=
  match Prim2SF x with
  | S754_finite s m e => SF2Prim (binary_round 24 128 s m e)
  | _ => x
  end.

(** ToInt32, applied by the operator [>>] to its left operand. *)
Definition toInt32 (z : Z) : Z :=
  let m := (z mod 4294967296)%Z in
  if (m <? 2147483648)%Z then m else (m - 4294967296)%Z.

End JS.
Export JS.

(** ** ColorUtils *)
Module ColorUtils.

(** A palette entry [[r, g, b]]. *)
Abbreviation rgb := (Z * Z * Z)%type.

(** [(r * 77 + g * 150 + b * 29) >> 8] on integer channels. *)
Definition getLuminance (r g b : Z) : Z :=
  Z.shiftr (toInt32 (r * 77 + g * 150 + b * 29)) 8.

Definition colorDistanceSq (r1 g1 b1 r2 g2 b2 : float) : float :=
  let dr := (r1 - r2)%float in
  let dg := (g1 - g2)%float in
  let db := (b1 - b2)%float in
  (dr * dr * 0.3 + dg * dg * 0.59 + db * db * 0.11)%float.

(** The loop of [findClosestColor]: [minDist] and [closest] are the two
    mutable locals, [closest] being [None] while it holds [undefined]. *)
Fixpoint scanPalette (r g b : float) (palette : list rgb)
    (minDist : float) (closest : option rgb) : option rgb :=
  match palette with
  | [] => closest
  | c :: rest =>
      let '(pr, pg, pb) := c in
      let dist := colorDistanceSq r g b (Z2f pr) (Z2f pg) (Z2f pb) in
      if (dist <? minDist)%float
      then scanPalette r g b rest dist (Some c)
      else scanPalette r g b rest minDist closest
  end.

Definition findClosestColor (r g b : float) (palette : list rgb) : option rgb :=
  scanPalette r g b palette infinity (head palette).

Definition lumOf (c : rgb) : Z := let '(r, g, b) := c in getLuminance r g b.

(** [[...palette].sort((a, b) => lum(a) - lum(b))]: [Array.prototype.sort]
    is stable, and the stable ascending order of a list under a key is
    unique, so a stable insertion sort computes the same array. *)
Fixpoint insertByLuminance (c : rgb) (sorted : list rgb) : list rgb :=
  match sorted with
  | [] => [c]
  | d :: rest =>
      if (lumOf c <=? lumOf d)%Z then c :: sorted
      else d :: insertByLuminance c rest
  end.

Definition sortPaletteByLuminance (palette : list rgb) : list rgb :=
  foldr insertByLuminance [] palette.

Definition getPaletteIndexByLuminance (luminance : float) (paletteLength : Z) : integral :=
  let normalized := (luminance / 255)%float in
  let index := Math_roundI (normalized * Z2f (paletteLength - 1))%float in
  Math_maxI (Int 0) (Math_minI (Int (paletteLength - 1)) index).

Definition clamp (value : float) : float :=
  if (value <? 0)%float then 0%float
  else if (255 <? value)%float then 255%float else value.

End ColorUtils.
Export ColorUtils.

(** ** ImageData: a [Uint8ClampedArray] of RGBA bytes with its dimensions. *)
Record ImageData := mkImageData {
  data : list Z;
  width : nat;
  height : nat
}.

Definition isByte (v : Z) : Prop := (0 <= v <= 255)%Z.

(** The invariant the browser keeps for every [ImageData]. *)
Definition wfImage (img : ImageData) : Prop :=
  length (data img) = (4 * (width img * height img))%nat /\
  Forall isByte (data img).

(** A palette whose channels are bytes, as [hexToRgb] produces them. *)
Definition wfPalette (palette : list rgb) : Prop :=
  Forall (fun c : rgb => let '(r, g, b) := c in isByte r /\ isByte g /\ isByte b) palette.

(** The RGB triple of pixel number [i] (row-major). *)
Definition pixelAt (d : list Z) (i : nat) : option rgb :=
  match d !! (4 * i)%nat, d !! (4 * i + 1)%nat, d !! (4 * i + 2)%nat with
  | Some r, Some g, Some b => Some (r, g, b)
  | _, _, _ => None
  end.

(** Loops. [forEach l body s] runs [body] on the elements of [l] in order,
    threading the state, and stops at the first throw. *)
Fixpoint forEach {A St : Type} (l : list A) (body : A -> St -> result St) (s : St) : result St :=
  match l with
  | [] => Ok s
  | a :: rest => s' ← body a s; forEach rest body s'
  end.

(** [for (y = 0; y < height; y++) for (x = 0; x < width; x++) body]. *)
Definition forPixels {St : Type} (w h : nat) (body : nat -> nat -> St -> result St)
    (s : St) : result St :=
  forEach (seq 0 h) (fun y => forEach (seq 0 w) (fun x => body x y)) s.

(** A [Float32Array] cell: a read out of range gives [undefined], which
    arithmetic turns into NaN; a write out of range is ignored. *)
Definition rdF (buffer : list float) (i : nat) : float := default nan (buffer !! i).

(** [buffer[i] += v]. *)
Definition addF (buffer : list float) (i : nat) (v : float) : list float :=
  <[i := fround (rdF buffer i + v)%float]> buffer.

(** Adds an error triple to the three colour cells starting at [i]. *)
Definition addErr (buffer : list float) (i : nat) (eR eG eB : float) : list float :=
  addF (addF (addF buffer i eR) (i + 1) eG) (i + 2) eB.

(** [data[i] = nr; data[i + 1] = ng; data[i + 2] = nb] for integers. *)
Definition setRGB (d : list Z) (i : nat) (c : rgb) : list Z :=
  let '(nr, ng, nb) := c in
  <[(i + 2)%nat := clampByte nb]> (<[(i + 1)%nat := clampByte ng]> (<[i := clampByte nr]> d)).

(** [for (i = 0; i < data.length; i += 4)]: one RGBA group per iteration,
    each iteration reading and writing the three colour bytes of its own
    group only; [f] gives the bytes stored, or throws. *)
Fixpoint mapPixels (f : Z -> Z -> Z -> result rgb) (d : list Z) : result (list Z) :=
  match d with
  | r :: g :: b :: a :: rest =>
      '(r', g', b') ← f r g b;
      rest' ← mapPixels f rest;
      Ok (r' :: g' :: b' :: a :: rest')
  | _ => Ok d
  end.

(** ** DitheringEngine *)
Module DitheringEngine.

(** The body of the two nested loops of [floydSteinberg]; the state is the
    pair of [data] and the error [buffer]. *)
Definition fsPixel (palette : list rgb) (w h x y : nat)
    (st : list Z * list float) : result (list Z * list float) :=
  let '(d, buffer) := st in
  let idx := ((y * w + x) * 4)%nat in
  let r := rdF buffer idx in
  let g := rdF buffer (idx + 1) in
  let b := rdF buffer (idx + 2) in
  match findClosestColor r g b palette with
  | None => Throw TypeError
  | Some (nr, ng, nb) =>
      let d := setRGB d idx (nr, ng, nb) in
      let errR := (r - Z2f nr)%float in
      let errG := (g - Z2f ng)%float in
      let errB := (b - Z2f nb)%float in
      let buffer :=
        if (x + 1 <? w)%nat
        then addErr buffer (idx + 4) (errR * 0.4375) (errG * 0.4375) (errB * 0.4375)
        else buffer in
      let buffer :=
        if (y + 1 <? h)%nat then
          let buffer :=
            if (0 <? x)%nat
            then addErr buffer (((y + 1) * w + x - 1) * 4)
                   (errR * 0.1875) (errG * 0.1875) (errB * 0.1875)
            else buffer in
          let buffer :=
            addErr buffer (((y + 1) * w + x) * 4)
              (errR * 0.3125) (errG * 0.3125) (errB * 0.3125) in
          if (x + 1 <? w)%nat
          then addErr buffer (((y + 1) * w + x + 1) * 4)
                 (errR * 0.0625) (errG * 0.0625) (errB * 0.0625)
          else buffer
        else buffer in
      Ok (d, buffer)
  end.

Definition floydSteinberg (imageData : ImageData) (palette : list rgb) : result ImageData :=
  let w := width imageData in
  let h := height imageData in
  let buffer := map (fun v => fround (Z2f v)) (data imageData) in
  '(d, _) ← forPixels w h (fsPixel palette w h) (data imageData, buffer);
  Ok (mkImageData d w h).

(** Pre-computed Bayer matrices. *)
Definition bayer2 : list (list float) :=
  [[0.00; 0.50];
   [0.75; 0.25]]%float.

Definition bayer4 : list (list float) :=
  [[0.0000; 0.5000; 0.1250; 0.6250];
   [0.7500; 0.2500; 0.8750; 0.3750];
   [0.1875; 0.6875; 0.0625; 0.5625];
   [0.9375; 0.4375; 0.8125; 0.3125]]%float.

Definition bayer8 : list (list float) :=
  [[0.000; 0.500; 0.125; 0.625; 0.031; 0.531; 0.156; 0.656];
   [0.750; 0.250; 0.875; 0.375; 0.781; 0.281; 0.906; 0.406];
   [0.188; 0.688; 0.063; 0.563; 0.219; 0.719; 0.094; 0.594];
   [0.938; 0.438; 0.813; 0.313; 0.969; 0.469; 0.844; 0.344];
   [0.047; 0.547; 0.172; 0.672; 0.016; 0.516; 0.141; 0.641];
   [0.797; 0.297; 0.922; 0.422; 0.766; 0.266; 0.891; 0.391];
   [0.234; 0.734; 0.109; 0.609; 0.203; 0.703; 0.078; 0.578];
   [0.984; 0.484; 0.859; 0.359; 0.953; 0.453; 0.828; 0.328]]%float.

(** [bayerMatrices[matrixSize] || bayerMatrices[4]]. *)
Definition bayerFor (matrixSize : Z) : list (list float) :=
  if (matrixSize =? 2)%Z then bayer2
  else if (matrixSize =? 8)%Z then bayer8
  else bayer4.

(** [n % matrixSize] for a loop counter [n]: NaN ([None]) when the
    divisor is zero, otherwise the remainder with the sign of [n]. *)
Definition remIndex (n : nat) (matrixSize : Z) : option nat :=
  if (matrixSize =? 0)%Z then None
  else Some (Z.to_nat (Z.rem (Z.of_nat n) matrixSize)).

(** The luminance read by [orderedDither]; an [undefined] channel makes
    the sum NaN, which [>>] turns into 0. *)
Definition lumAt (d : list Z) (idx : nat) : Z :=
  match d !! idx, d !! (idx + 1)%nat, d !! (idx + 2)%nat with
  | Some r, Some g, Some b => getLuminance r g b
  | _, _, _ => 0
  end.

Definition orderedPixel (sortedPalette : list rgb) (matrixSize : Z) (w x y : nat)
    (d : list Z) : result (list Z) :=
  let bayer := bayerFor matrixSize in
  let numColors := Z.of_nat (length sortedPalette) in
  let idx := ((y * w + x) * 4)%nat in
  match remIndex y matrixSize ≫= (bayer !!.) with
  | None => Throw TypeError
  | Some row =>
      let threshold := default nan (remIndex x matrixSize ≫= (row !!.)) in
      let lum := (Z2f (lumAt d idx) / 255)%float in
      let adjustedLum := (lum + (threshold - 0.5) * 0.5)%float in
      let colorIdx := getPaletteIndexByLuminance (adjustedLum * 255)%float numColors in
      match indexOf colorIdx ≫= (sortedPalette !!.) with
      | None => Throw TypeError
      | Some c => Ok (setRGB d idx c)
      end
  end.

Definition orderedDither (imageData : ImageData) (palette : list rgb) (matrixSize : Z)
    : result ImageData :=
  let w := width imageData in
  let h := height imageData in
  let sortedPalette := sortPaletteByLuminance palette in
  d ← forPixels w h (orderedPixel sortedPalette matrixSize w) (data imageData);
  Ok (mkImageData d w h).

(** The six [[dy, dx]] offsets of the Atkinson pattern. *)
Definition atkinsonNeighbors : list (Z * Z) :=
  [(0, 1); (0, 2); (1, -1); (1, 0); (1, 1); (2, 0)]%Z.

Definition atkinsonSpread (w h x y : nat) (errR errG errB : float)
    (buffer : list float) (n : Z * Z) : list float :=
  let '(dy, dx) := n in
  let ny := (Z.of_nat y + dy)%Z in
  let nx := (Z.of_nat x + dx)%Z in
  if (0 <=? ny)%Z && (ny <? Z.of_nat h)%Z && (0 <=? nx)%Z && (nx <? Z.of_nat w)%Z
  then addErr buffer (Z.to_nat ((ny * Z.of_nat w + nx) * 4)) errR errG errB
  else buffer.

Definition atkinsonPixel (palette : list rgb) (w h x y : nat)
    (st : list Z * list float) : result (list Z * list float) :=
  let '(d, buffer) := st in
  let idx := ((y * w + x) * 4)%nat in
  let r := rdF buffer idx in
  let g := rdF buffer (idx + 1) in
  let b := rdF buffer (idx + 2) in
  match findClosestColor r g b palette with
  | None => Throw TypeError
  | Some (nr, ng, nb) =>
      let d := setRGB d idx (nr, ng, nb) in
      let errR := ((r - Z2f nr) * 0.125)%float in
      let errG := ((g - Z2f ng) * 0.125)%float in
      let errB := ((b - Z2f nb) * 0.125)%float in
      Ok (d, fold_left (atkinsonSpread w h x y errR errG errB) atkinsonNeighbors buffer)
  end.

Definition atkinson (imageData : ImageData) (palette : list rgb) : result ImageData :=
  let w := width imageData in
  let h := height imageData in
  let buffer := map (fun v => fround (Z2f v)) (data imageData) in
  '(d, _) ← forPixels w h (atkinsonPixel palette w h) (data imageData, buffer);
  Ok (mkImageData d w h).

Definition quantizePixel (palette : list rgb) (r g b : Z) : result rgb :=
  match findClosestColor (Z2f r) (Z2f g) (Z2f b) palette with
  | None => Throw TypeError
  | Some (nr, ng, nb) => Ok (clampByte nr, clampByte ng, clampByte nb)
  end.

Definition quantize (imageData : ImageData) (palette : list rgb) : result ImageData :=
  d ← mapPixels (quantizePixel palette) (data imageData);
  Ok (mkImageData d (width imageData) (height imageData)).

End DitheringEngine.
Export DitheringEngine.

(** ** EffectsEngine *)
Module EffectsEngine.

Definition posterizeLuminancePixel (step : float) (r g b : Z) : result rgb :=
  let lum := getLuminance r g b in
  let quantLum := (Math_round (Z2f lum / step) * step)%float in
  let scale := if (0 <? lum)%Z then (quantLum / Z2f lum)%float else 1%float in
  Ok (toUint8Clamp (clamp (Z2f r * scale)%float),
      toUint8Clamp (clamp (Z2f g * scale)%float),
      toUint8Clamp (clamp (Z2f b * scale)%float)).

Definition posterizeChannelPixel (step : float) (r g b : Z) : result rgb :=
  Ok (toUint8Clamp (Math_round (Z2f r / step) * step)%float,
      toUint8Clamp (Math_round (Z2f g / step) * step)%float,
      toUint8Clamp (Math_round (Z2f b / step) * step)%float).

(** [sum += data[i] + data[i + 1] + data[i + 2]] over the RGBA groups; the
    operands are bytes, so the additions are exact and are done in [Z]. *)
Fixpoint sumRGB (d : list Z) : Z :=
  match d with
  | r :: g :: b :: _ :: rest => (r + g + b + sumRGB rest)%Z
  | _ => 0%Z
  end.

Definition posterizeArtisticPixel (step mean : float) (r g b : Z) : result rgb :=
  let r := ((Z2f r - mean) * 1.3 + mean)%float in
  let g := ((Z2f g - mean) * 1.3 + mean)%float in
  let b := ((Z2f b - mean) * 1.3 + mean)%float in
  Ok (toUint8Clamp (clamp (Math_round (r / step) * step)%float),
      toUint8Clamp (clamp (Math_round (g / step) * step * 1.05)%float),
      toUint8Clamp (clamp (Math_round (b / step) * step)%float)).

(** The final pass of [posterize]: the pixel becomes the entry of the
    luminance-sorted palette selected by its luminance. *)
Definition paletteMapPixel (sortedPalette : list rgb) (r g b : Z) : result rgb :=
  let numColors := Z.of_nat (length sortedPalette) in
  let lum := getLuminance r g b in
  let idx := getPaletteIndexByLuminance (Z2f lum) numColors in
  match indexOf idx ≫= (sortedPalette !!.) with
  | None => Throw TypeError
  | Some (r, g, b) => Ok (clampByte r, clampByte g, clampByte b)
  end.

(** The mode-specific loop; [palette] is [None] for [null], and
    [noPalette] is [!palette] (an array, even an empty one, is truthy). *)
Definition posterizeStage (d : list Z) (levels : Z) (mode : string)
    (palette : option (list rgb)) : result (list Z) :=
  let step := (255 / Z2f (levels - 1))%float in
  let noPalette := match palette with None => true | Some _ => false end in
  if (mode =? "luminance")%string && noPalette then
    mapPixels (posterizeLuminancePixel step) d
  else if (mode =? "per-channel")%string then
    mapPixels (posterizeChannelPixel step) d
  else if (mode =? "artistic")%string then
    let mean := (Z2f (sumRGB d) / (Z2f (Z.of_nat (length d)) * 0.75))%float in
    mapPixels (posterizeArtisticPixel step mean) d
  else Ok d.

Definition posterize (imageData : ImageData) (levels : Z) (mode : string)
    (palette : option (list rgb)) : result ImageData :=
  let levels := Z.max 2 (Z.min 16 levels) in
  d ← posterizeStage (data imageData) levels mode palette;
  d ← match palette with
      | Some p =>
          if (0 <? length p)%nat
          then mapPixels (paletteMapPixel (sortPaletteByLuminance p)) d
          else Ok d
      | None => Ok d
      end;
  Ok (mkImageData d (width imageData) (height imageData)).

(** The [switch] of [blendPixel] on the normalized values. *)
Definition blendNormalized (mode : string) (b l : float) : float :=
  if (mode =? "multiply")%string then (b * l)%float
  else if (mode =? "screen")%string then (1 - (1 - b) * (1 - l))%float
  else if (mode =? "overlay")%string then
    (if (b <? 0.5)%float then (2 * b * l)%float else (1 - 2 * (1 - b) * (1 - l))%float)
  else if (mode =? "soft-light")%string then
    (if (l <? 0.5)%float
     then (b - (1 - 2 * l) * b * (1 - b))%float
     else (b + (2 * l - 1) * (PrimFloat.sqrt b - b))%float)
  else if (mode =? "hard-light")%string then
    (if (l <? 0.5)%float then (2 * b * l)%float else (1 - 2 * (1 - b) * (1 - l))%float)
  else if (mode =? "color-dodge")%string then
    (if (l =? 1)%float then 1%float else Math_min 1 (b / (1 - l))%float)
  else if (mode =? "color-burn")%string then
    (if (l =? 0)%float then 0%float else Math_max 0 (1 - (1 - b) / l)%float)
  else if (mode =? "difference")%string then PrimFloat.abs (b - l)%float
  else if (mode =? "exclusion")%string then (b + l - 2 * b * l)%float
  else if (mode =? "lighten")%string then Math_max b l
  else if (mode =? "darken")%string then Math_min b l
  else l.

Definition blendPixel (base blend : float) (mode : string) : float :=
  let b := (base / 255)%float in
  let l := (blend / 255)%float in
  Math_round (blendNormalized mode b l * 255)%float.

Definition BLEND_MODES : list string :=
  ["normal"; "multiply"; "screen"; "overlay"; "soft-light"; "hard-light";
   "color-dodge"; "color-burn"; "difference"; "exclusion"; "lighten"; "darken"]%string.

(** The loop of [addNoise]. [random k] is the value returned by the [k]-th
    call of [Math.random] (a Number in [0,1)); the pixel at position [k] of
    the remaining data consumes exactly one call. *)
Fixpoint noiseData (random : nat -> float) (k : nat) (amount : Z) (d : list Z) : list Z :=
  match d with
  | r :: g :: b :: a :: rest =>
      let noise := ((random k - 0.5) * Z2f amount * 2)%float in
      toUint8Clamp (clamp (Z2f r + noise)%float)
      :: toUint8Clamp (clamp (Z2f g + noise)%float)
      :: toUint8Clamp (clamp (Z2f b + noise)%float)
      :: a :: noiseData random (S k) amount rest
  | _ => d
  end.

Definition addNoise (random : nat -> float) (imageData : ImageData) (amount : Z) : ImageData :=
  mkImageData (noiseData random 0 amount (data imageData)) (width imageData) (height imageData).

(** A byte read from the reference raster; [undefined] becomes NaN. *)
Definition rdB (d : list Z) (i : nat) : float :=
  match d !! i with
  | Some v => Z2f v
  | None => nan
  end.

Fixpoint blendData (invBlend blendAmount : float) (processed original : list Z) : list Z :=
  match processed with
  | r :: g :: b :: a :: rest =>
      toUint8Clamp (Z2f r * invBlend + rdB original 0 * blendAmount)%float
      :: toUint8Clamp (Z2f g * invBlend + rdB original 1 * blendAmount)%float
      :: toUint8Clamp (Z2f b * invBlend + rdB original 2 * blendAmount)%float
      :: a :: blendData invBlend blendAmount rest (drop 4 original)
  | _ => processed
  end.

Definition blendWithOriginal (processedData originalData : ImageData) (blendAmount : float)
    : ImageData :=
  let invBlend := (1 - blendAmount)%float in
  mkImageData (blendData invBlend blendAmount (data processedData) (data originalData))
    (width processedData) (height processedData).

End EffectsEngine.
Export EffectsEngine.

(** ** ImageProcessor *)
Module ImageProcessor.

Definition hexDigit (c : Ascii.ascii) : option Z :=
  let n := Z.of_N (Ascii.N_of_ascii c) in
  if (48 <=? n)%Z && (n <=? 57)%Z then Some (n - 48)%Z
  else if (97 <=? n)%Z && (n <=? 102)%Z then Some (n - 87)%Z
  else if (65 <=? n)%Z && (n <=? 70)%Z then Some (n - 55)%Z
  else None.

(** [ColorUtils.hexToRgb]: the text must be an optional [#] followed by
    exactly six hexadecimal digits; anything else gives black. *)
Definition hexToRgb (hex : string) : rgb :=
  let digits := match hex with
                | String "#"%char rest => rest
                | _ => hex
                end in
  match digits with
  | String r1 (String r0 (String g1 (String g0 (String b1 (String b0 EmptyString))))) =>
      match hexDigit r1, hexDigit r0, hexDigit g1, hexDigit g0, hexDigit b1, hexDigit b0 with
      | Some r1, Some r0, Some g1, Some g0, Some b1, Some b0 =>
          (16 * r1 + r0, 16 * g1 + g0, 16 * b1 + b0)%Z
      | _, _, _, _, _, _ => (0, 0, 0)%Z
      end
  | _ => (0, 0, 0)%Z
  end.

(** The settings read by steps 1 and 2 of [process]. *)
Record Settings := mkSettings {
  colors : list string;
  ditherType : string;
  ditherStrength : Z;
  orderedMatrixSize : Z;
  posterizeEnabled : bool;
  posterizeLevels : Z;
  posterizeMode : string;
  posterizeUsePalette : bool
}.

(** Step 1 of [process]. *)
Definition posterizeStep (s : Settings) (palette : list rgb) (imageData : ImageData)
    : result ImageData :=
  if posterizeEnabled s
  then posterize imageData (posterizeLevels s) (posterizeMode s)
         (if posterizeUsePalette s then Some palette else None)
  else Ok imageData.

(** The [switch (ditherType)] of step 2. *)
Definition ditherSwitch (s : Settings) (palette : list rgb) (imageData : ImageData)
    : result ImageData :=
  if (ditherType s =? "floyd-steinberg")%string then floydSteinberg imageData palette
  else if (ditherType s =? "ordered")%string
       then orderedDither imageData palette (orderedMatrixSize s)
  else if (ditherType s =? "atkinson")%string then atkinson imageData palette
  else if (ditherType s =? "none")%string then
    (if negb (posterizeEnabled s) || negb (posterizeUsePalette s)
     then quantize imageData palette
     else Ok imageData)
  else floydSteinberg imageData palette.

(** Steps 1 and 2 of [process], from the working raster that step 0 has
    produced (the original, or its down-scaled copy) to the raster handed
    to the canvas. *)
Definition processSteps (s : Settings) (working : ImageData) : result ImageData :=
  let palette := map hexToRgb (colors s) in
  let cleanOriginal := working in
  imageData ← posterizeStep s palette working;
  if (0 <? ditherStrength s)%Z then
    imageData ← ditherSwitch s palette imageData;
    if (ditherStrength s <? 100)%Z && negb (ditherType s =? "none")%string then
      let undithered :=
        mkImageData (data cleanOriginal) (width imageData) (height imageData) in
      let blend := (Z2f (100 - ditherStrength s) / 100)%float in
      Ok (blendWithOriginal imageData undithered blend)
    else Ok imageData
  else Ok imageData.

(** [process]: no stored image is an error; otherwise steps 1 and 2 run on
    the working raster. Step 0 (the canvas down-scale) and steps 3 to 5
    (canvas compositing, noise, final blend) are outside this function. *)
Definition process (originalImageData : option ImageData) (s : Settings) : result ImageData :=
  match originalImageData with
  | None => Throw (Error "No image loaded")
  | Some img => processSteps s img
  end.

End ImageProcessor.
Export ImageProcessor.

(** ** ColorUtils: colours as text *)

(** [Number.prototype.toString(16)] on an integral Number. *)
Definition toString16 (n : integral) : string :=
  match n with
  | Int z => HexadecimalString.NilZero.string_of_int (Z.to_hex_int z)
  | Inf false => "Infinity"
  | Inf true => "-Infinity"
  | NaNInt => "NaN"
  end.

(** One element of the [map] of [rgbToHex]. *)
Definition hexOfChannel (x : float) : string :=
  let hex := toString16 (Math_roundI (Math_max 0 (Math_min 255 x))) in
  if (String.length hex =? 1)%nat then ("0" ++ hex)%string else hex.

(** [ColorUtils.rgbToHex]. *)
Definition rgbToHex (r g b : float) : string :=
  ("#" ++ hexOfChannel r ++ hexOfChannel g ++ hexOfChannel b)%string.

(** ** StateManager *)
Module StateManager.

(** The part of the state that [addColor] and [removeColor] touch: the
    colours, and the keys the subscribers have been notified with, oldest
    first. *)
Record State := mkState {
  colors : list string;
  notified : list string
}.

(** The state the constructor builds. *)
Definition constructor : State := mkState ["#0a0a0a"; "#f5f5f5"]%string [].

Definition notify (changedKey : string) (st : State) : State :=
  mkState (colors st) (notified st ++ [changedKey]).

(** The position at which [Array.prototype.splice] starts for the integral
    argument [start]: counted from the end when negative, never outside
    the array. *)
Definition relativeStart (len : nat) (start : Z) : nat :=
  if (start <? 0)%Z then Z.to_nat (Z.max (Z.of_nat len + start) 0)
  else Z.to_nat (Z.min start (Z.of_nat len)).

(** [l.splice(start, deleteCount, ...items)], the array left in [l]. *)
Definition splice {A : Type} (l : list A) (start deleteCount : Z) (items : list A) : list A :=
  let actualStart := relativeStart (length l) start in
  let actualDeleteCount :=
    Z.to_nat (Z.min (Z.max deleteCount 0) (Z.of_nat (length l - actualStart))) in
  take actualStart l ++ items ++ drop (actualStart + actualDeleteCount) l.

Definition addColor (color : string) (st : State) : bool * State :=
  if length (colors st) <? 5 then
    let colors' := splice (colors st) (Z.of_nat (length (colors st)) - 1) 0 [color] in
    (true, notify "colors" (mkState colors' (notified st)))
  else (false, st).

Definition removeColor (index : Z) (st : State) : bool * State :=
  if 2 <? length (colors st) then
    let colors' := splice (colors st) index 1 [] in
    (true, notify "colors" (mkState colors' (notified st)))
  else (false, st).

(** A call of one of the two methods. *)
Inductive call :=
| AddColor (color : string)
| RemoveColor (index : Z).

Definition perform (st : State) (c : call) : State :=
  match c with
  | AddColor color => snd (addColor color st)
  | RemoveColor index => snd (removeColor index st)
  end.

End StateManager.

(** ** Facts about binary64 rounding, from the specification of the
    primitive floats. *)
Module FloatFacts.
Local Open Scope Z_scope.

Abbreviation dg p := (Zpos (digits2_pos p)).

Lemma digits2_pos_size (p : positive) : digits2_pos p = Pos.size p.
Proof. induction p; simpl; congruence. Qed.

Lemma dg_upper (p : positive) : Zpos p < 2 ^ dg p.
Proof.
  rewrite digits2_pos_size.
  pose proof (Pos.size_gt p) as H.
  apply Pos2Z.pos_lt_pos in H. now rewrite Pos2Z.inj_pow in H.
Qed.

Lemma dg_lower (p : positive) : 2 ^ (dg p - 1) <= Zpos p.
Proof.
  rewrite digits2_pos_size.
  pose proof (Pos.size_le p) as H.
  apply Pos2Z.pos_le_pos in H. rewrite Pos2Z.inj_pow in H.
  change (Zpos p~0) with (2 * Zpos p) in H.
  replace (Zpos (Pos.size p)) with (Z.succ (Zpos (Pos.size p) - 1)) in H by lia.
  rewrite Z.pow_succ_r in H by lia. lia.
Qed.

Lemma Zdigits2_nonneg (m : Z) : 0 <= Zdigits2 m.
Proof. destruct m; simpl; lia. Qed.

Lemma Zdigits2_upper (m : Z) : 0 <= m -> m < 2 ^ Zdigits2 m.
Proof.
  destruct m as [|p|p]; simpl; intros; try lia. apply dg_upper.
Qed.

Lemma Zdigits2_le (m k : Z) : 0 <= m -> 0 <= k -> m < 2 ^ k -> Zdigits2 m <= k.
Proof.
  destruct m as [|p|p]; simpl; intros Hm Hk Hlt; try lia.
  pose proof (dg_lower p) as Hl.
  destruct (Z_le_gt_dec (dg p) k) as [|Hgt]; [assumption|exfalso].
  assert (2 ^ k <= 2 ^ (dg p - 1)) by (apply Z.pow_le_mono_r; lia).
  lia.
Qed.

Lemma Zdigits2_pos_lower (m : Z) : 0 < m -> 2 ^ (Zdigits2 m - 1) <= m /\ 1 <= Zdigits2 m.
Proof.
  destruct m as [|p|p]; simpl; intros; try lia. split; [apply dg_lower|lia].
Qed.

(** Right shifts of the rounding record divide the mantissa. *)
Lemma shr_1_m (mrs : shr_record) :
  0 <= shr_m mrs -> shr_m (shr_1 mrs) = shr_m mrs / 2.
Proof.
  destruct mrs as [m r s]. simpl. intros Hm.
  rewrite <- Z.div2_div.
  destruct m as [|p|p]; [reflexivity| |lia].
  destruct p; reflexivity.
Qed.

Lemma iter_pos_shr (p : positive) : forall mrs,
  0 <= shr_m mrs -> shr_m (SpecFloat.iter_pos shr_1 p mrs) = shr_m mrs / 2 ^ Zpos p.
Proof.
  induction p as [p IH|p IH|]; intros mrs Hm; simpl SpecFloat.iter_pos.
  - assert (H1 : 0 <= shr_m (shr_1 mrs)) by (rewrite shr_1_m by lia; apply Z.div_pos; lia).
    assert (H2 : 0 <= shr_m (SpecFloat.iter_pos shr_1 p (shr_1 mrs)))
      by (rewrite IH by lia; apply Z.div_pos; lia).
    rewrite IH, IH, shr_1_m by lia.
    rewrite !Z.div_div by lia.
    f_equal.
    replace (Zpos p~1) with (1 + Zpos p + Zpos p) by lia.
    rewrite !Z.pow_add_r by lia. lia.
  - assert (H2 : 0 <= shr_m (SpecFloat.iter_pos shr_1 p mrs))
      by (rewrite IH by lia; apply Z.div_pos; lia).
    rewrite IH, IH by lia.
    rewrite !Z.div_div by lia.
    f_equal.
    replace (Zpos p~0) with (Zpos p + Zpos p) by lia.
    rewrite !Z.pow_add_r by lia. lia.
  - rewrite shr_1_m by lia. reflexivity.
Qed.

Lemma shr_record_of_loc_m (m : Z) (l : location) : shr_m (shr_record_of_loc m l) = m.
Proof. destruct l as [|[]]; reflexivity. Qed.

Section Format.
Variables fprec femax : Z.

Lemma shr_fexp_spec (m e : Z) (l : location) :
  0 <= m ->
  let k := Z.max 0 (fexp fprec femax (Zdigits2 m + e) - e) in
  shr_m (fst (shr_fexp fprec femax m e l)) = m / 2 ^ k /\
  snd (shr_fexp fprec femax m e l) = e + k.
Proof.
  intros Hm k. unfold shr_fexp, shr. subst k.
  destruct (fexp fprec femax (Zdigits2 m + e) - e) as [|p|p] eqn:E; simpl fst; simpl snd.
  - rewrite shr_record_of_loc_m, Z.max_l, Z.pow_0_r, Z.div_1_r by lia. lia.
  - rewrite iter_pos_shr by (rewrite shr_record_of_loc_m; lia).
    rewrite shr_record_of_loc_m, Z.max_r by lia. lia.
  - rewrite shr_record_of_loc_m, Z.max_l, Z.pow_0_r, Z.div_1_r by lia. lia.
Qed.

Lemma round_nearest_even_bounds (m : Z) (l : location) :
  m <= round_nearest_even m l <= m + 1.
Proof.
  destruct l as [|[]]; simpl; try lia. destruct (Z.even m); lia.
Qed.

(** The two mantissas and exponents [binary_round_aux] goes through. *)
Definition step1k (mx ex : Z) : Z := Z.max 0 (fexp fprec femax (Zdigits2 mx + ex) - ex).

Lemma binary_round_aux_spec (sx : bool) (mx ex : Z) (lx : location) :
  0 <= mx ->
  exists m1, mx / 2 ^ step1k mx ex <= m1 <= mx / 2 ^ step1k mx ex + 1 /\
    let e1 := ex + step1k mx ex in
    let m2 := m1 / 2 ^ step1k m1 e1 in
    let e2 := e1 + step1k m1 e1 in
    binary_round_aux fprec femax sx mx ex lx =
      match m2 with
      | Z0 => S754_zero sx
      | Zpos m => if e2 <=? femax - fprec then S754_finite sx m e2 else S754_infinity sx
      | Zneg _ => S754_nan
      end.
Proof.
  intros Hm. unfold binary_round_aux.
  pose proof (shr_fexp_spec mx ex lx Hm) as [H1 H1e].
  destruct (shr_fexp fprec femax mx ex lx) as [mrs' e'] eqn:E1. simpl in H1, H1e.
  set (m1 := round_nearest_even (shr_m mrs') (loc_of_shr_record mrs')).
  pose proof (round_nearest_even_bounds (shr_m mrs') (loc_of_shr_record mrs')) as Hb.
  fold m1 in Hb.
  assert (Hq : 0 <= mx / 2 ^ step1k mx ex) by (apply Z.div_pos; unfold step1k; lia).
  assert (Hm1 : 0 <= m1) by (unfold step1k in Hq; lia).
  pose proof (shr_fexp_spec m1 e' loc_Exact Hm1) as [H2 H2e].
  destruct (shr_fexp fprec femax m1 e' loc_Exact) as [mrs'' e''] eqn:E2. simpl in H2, H2e.
  exists m1. split; [unfold step1k; lia|].
  cbv zeta. unfold step1k. subst e'. rewrite <- H2, <- H2e. reflexivity.
Qed.

End Format.
(** Shape of a rounded result of sign [s]. *)
Inductive rounded (s : bool) : spec_float -> Prop :=
| rounded_zero : rounded s (S754_zero s)
| rounded_finite (m : positive) (e : Z) : rounded s (S754_finite s m e)
| rounded_infinity : rounded s (S754_infinity s).

Definition finiteSF (x : spec_float) : bool :=
  match x with
  | S754_zero _ | S754_finite _ _ _ => true
  | _ => false
  end.

Definition nonzeroSF (x : spec_float) : bool :=
  match x with
  | S754_infinity _ | S754_finite _ _ _ => true
  | _ => false
  end.

Ltac unfold_format := unfold step1k, fexp, SpecFloat.emin, prec, emax in *.

(** Rounding never produces NaN. *)
Lemma binary_round_aux_rounded (sx : bool) (mx ex : Z) (lx : location) :
  0 <= mx -> rounded sx (binary_round_aux prec emax sx mx ex lx).
Proof.
  intros Hm.
  destruct (binary_round_aux_spec prec emax sx mx ex lx Hm) as (m1 & Hm1 & ->).
  assert (0 <= mx / 2 ^ step1k prec emax mx ex) by (apply Z.div_pos; unfold step1k; lia).
  assert (H2 : 0 <= m1 / 2 ^ step1k prec emax m1 (ex + step1k prec emax mx ex))
    by (apply Z.div_pos; unfold step1k; lia).
  destruct (m1 / 2 ^ step1k prec emax m1 (ex + step1k prec emax mx ex)); try lia.
  - constructor.
  - destruct (_ <=? _); constructor.
Qed.

(** No overflow when the magnitude is below [2^1023]. *)
Lemma binary_round_aux_finite (sx : bool) (mx ex : Z) (lx : location) :
  0 <= mx -> ex <= 971 -> Zdigits2 mx + ex <= 1023 ->
  finiteSF (binary_round_aux prec emax sx mx ex lx) = true.
Proof.
  intros Hm Hex HD.
  destruct (binary_round_aux_spec prec emax sx mx ex lx Hm) as (m1 & Hm1 & ->).
  set (k1 := step1k prec emax mx ex) in *.
  assert (Hk1 : 0 <= k1) by (unfold k1, step1k; lia).
  assert (Hq : 0 <= mx / 2 ^ k1) by (apply Z.div_pos; lia).
  assert (Hd1 : Zdigits2 m1 + (ex + k1) <= Z.max (Zdigits2 mx + ex + 1) (1 + (ex + k1))).
  { pose proof (Zdigits2_upper mx Hm) as Hu.
    pose proof (Zdigits2_nonneg mx) as Hn.
    destruct (Z_le_gt_dec k1 (Zdigits2 mx)) as [Hle|Hgt].
    - assert (mx / 2 ^ k1 < 2 ^ (Zdigits2 mx - k1)).
      { apply Z.div_lt_upper_bound; [lia|].
        rewrite <- Z.pow_add_r by lia. now replace (k1 + (Zdigits2 mx - k1)) with (Zdigits2 mx) by lia. }
      assert (m1 < 2 ^ (Zdigits2 mx - k1 + 1)) by (rewrite Z.pow_add_r by lia; lia).
      pose proof (Zdigits2_le m1 (Zdigits2 mx - k1 + 1)). lia.
    - assert (mx / 2 ^ k1 = 0).
      { apply Z.div_small. split; [lia|].
        assert (2 ^ Zdigits2 mx <= 2 ^ k1) by (apply Z.pow_le_mono_r; lia). lia. }
      pose proof (Zdigits2_le m1 1). lia. }
  assert (He1 : ex + k1 <= 971) by (unfold k1 in *; unfold_format; lia).
  assert (He2 : ex + k1 + step1k prec emax m1 (ex + k1) <= 971)
    by (unfold k1 in *; unfold_format; lia).
  assert (H2 : 0 <= m1 / 2 ^ step1k prec emax m1 (ex + k1))
    by (apply Z.div_pos; unfold step1k; lia).
  destruct (m1 / 2 ^ step1k prec emax m1 (ex + k1)); try reflexivity; [|lia].
  replace (_ <=? _) with true; [reflexivity|].
  symmetry. apply Z.leb_le. unfold k1 in *. unfold_format. lia.
Qed.

(** No underflow to zero when the exponent is at least [emin]. *)
Lemma binary_round_aux_nonzero (sx : bool) (mx ex : Z) (lx : location) :
  0 < mx -> -1074 <= ex ->
  nonzeroSF (binary_round_aux prec emax sx mx ex lx) = true.
Proof.
  intros Hm Hex.
  destruct (binary_round_aux_spec prec emax sx mx ex lx (Z.lt_le_incl _ _ Hm)) as (m1 & Hm1 & ->).
  set (k1 := step1k prec emax mx ex) in *.
  pose proof (Zdigits2_pos_lower mx Hm) as [Hl Hd].
  assert (Hk1 : 0 <= k1 <= Zdigits2 mx - 1) by (unfold k1; unfold_format; lia).
  assert (Hq : 1 <= mx / 2 ^ k1).
  { apply Z.div_le_lower_bound; [lia|].
    assert (2 ^ k1 <= 2 ^ (Zdigits2 mx - 1)) by (apply Z.pow_le_mono_r; lia). lia. }
  assert (Hm1' : 0 < m1) by lia.
  set (k2 := step1k prec emax m1 (ex + k1)) in *.
  pose proof (Zdigits2_pos_lower m1 Hm1') as [Hl1 Hd1].
  assert (Hk2 : 0 <= k2 <= Zdigits2 m1 - 1) by (unfold k2; unfold_format; lia).
  assert (Hq2 : 1 <= m1 / 2 ^ k2).
  { apply Z.div_le_lower_bound; [lia|].
    assert (2 ^ k2 <= 2 ^ (Zdigits2 m1 - 1)) by (apply Z.pow_le_mono_r; lia). lia. }
  destruct (m1 / 2 ^ k2); try lia.
  destruct (_ <=? _); reflexivity.
Qed.

Lemma dg_iter_xO (m d : positive) :
  digits2_pos (Pos.iter xO m d) = (digits2_pos m + d)%positive.
Proof.
  induction d as [|d IH] using Pos.peano_ind.
  - simpl. lia.
  - rewrite Pos.iter_succ. simpl. rewrite IH. lia.
Qed.

Lemma shl_align_spec (mx : positive) (ex ex' : Z) :
  snd (shl_align mx ex ex') = Z.min ex ex' /\
  dg (fst (shl_align mx ex ex')) + snd (shl_align mx ex ex') = dg mx + ex.
Proof.
  unfold shl_align. destruct (ex' - ex) as [|d|d] eqn:E; simpl fst; simpl snd.
  - lia.
  - lia.
  - rewrite dg_iter_xO. lia.
Qed.

Lemma binary_round_rounded (sx : bool) (mx : positive) (ex : Z) :
  rounded sx (binary_round prec emax sx mx ex).
Proof.
  unfold binary_round. destruct (shl_align _ _ _) as [mz ez].
  apply binary_round_aux_rounded. lia.
Qed.

Lemma binary_round_finite (sx : bool) (mx : positive) (ex : Z) :
  ex <= 971 -> dg mx + ex <= 1023 ->
  finiteSF (binary_round prec emax sx mx ex) = true.
Proof.
  intros Hex HD. unfold binary_round.
  pose proof (shl_align_spec mx ex (fexp prec emax (dg mx + ex))) as [He Hd].
  destruct (shl_align _ _ _) as [mz ez]. cbn [fst snd] in He, Hd.
  apply binary_round_aux_finite; cbn [Zdigits2]; lia.
Qed.

Lemma binary_round_nonzero (sx : bool) (mx : positive) (ex : Z) :
  -1074 <= ex -> nonzeroSF (binary_round prec emax sx mx ex) = true.
Proof.
  intros Hex. unfold binary_round.
  pose proof (shl_align_spec mx ex (fexp prec emax (dg mx + ex))) as [He Hd].
  destruct (shl_align _ _ _) as [mz ez]. cbn [fst snd] in He, Hd.
  apply binary_round_aux_nonzero; [lia|]. subst ez. unfold_format. lia.
Qed.

Lemma binary_normalize_finite (m e : Z) (szero : bool) :
  e <= 971 -> Zdigits2 m + e <= 1023 ->
  finiteSF (binary_normalize prec emax m e szero) = true.
Proof.
  intros He HD. destruct m as [|p|p]; simpl in *; [reflexivity| |];
    apply binary_round_finite; assumption.
Qed.

(** An integer is a finite Number. *)
Lemma of_uint63_finite (i : int) : finiteSF (Prim2SF (of_uint63 i)) = true.
Proof.
  rewrite of_uint63_spec.
  pose proof (Uint63.to_Z_bounded i) as Hb.
  apply binary_normalize_finite; [lia|].
  pose proof (Zdigits2_le (Uint63.to_Z i) 63).
  change wB with (2 ^ 63) in Hb. lia.
Qed.

Lemma SFopp_finite (x : spec_float) : finiteSF (SFopp x) = finiteSF x.
Proof. destruct x; reflexivity. Qed.

(** *** Rounding of an exact value *)

(** After [n] right shifts: the mantissa is the quotient, and a record
    whose round and sticky bits are clear has lost no bit. *)
Definition shifted (m n : Z) (mrs : shr_record) : Prop :=
  shr_m mrs = m / 2 ^ n /\ (shr_r mrs || shr_s mrs = true -> m mod 2 ^ n <> 0).

Lemma shr_1_shifted (m n : Z) (mrs : shr_record) :
  0 <= m -> 0 <= n -> shifted m n mrs -> shifted m (n + 1) (shr_1 mrs).
Proof.
  intros Hm Hn [Hq Hr].
  assert (Hp : 0 < 2 ^ n) by (apply Z.pow_pos_nonneg; lia).
  assert (Hq0 : 0 <= shr_m mrs) by (rewrite Hq; apply Z.div_pos; lia).
  assert (Hmod : m mod 2 ^ (n + 1) = m mod 2 ^ n + 2 ^ n * ((m / 2 ^ n) mod 2)).
  { rewrite Z.pow_add_r, Z.pow_1_r by lia. apply Z.rem_mul_r; lia. }
  pose proof (Z.mod_pos_bound m (2 ^ n) Hp) as Hb.
  split.
  - rewrite shr_1_m by exact Hq0. rewrite Hq, Z.div_div by lia.
    now rewrite Z.pow_add_r, Z.pow_1_r by lia.
  - rewrite Hmod. rewrite <- Hq.
    destruct mrs as [q r s]. cbn [shr_m shr_r shr_s] in *.
    destruct q as [|[p|p|]|p]; try lia; cbn [shr_1 shr_r shr_s]; intros H.
    + rewrite Z.mod_0_l by lia. rewrite orb_false_l in H. specialize (Hr H). lia.
    + rewrite Zmod_odd. cbn [Z.odd]. lia.
    + rewrite Zmod_odd. cbn [Z.odd]. rewrite orb_false_l in H. specialize (Hr H). lia.
    + change (1 mod 2) with 1. lia.
Qed.

Lemma iter_pos_shifted (m : Z) (p : positive) : forall n mrs,
  0 <= m -> 0 <= n -> shifted m n mrs ->
  shifted m (n + Zpos p) (SpecFloat.iter_pos shr_1 p mrs).
Proof.
  induction p as [p IH|p IH|]; intros n mrs Hm Hn H; simpl SpecFloat.iter_pos.
  - replace (n + Zpos p~1) with (n + 1 + Zpos p + Zpos p) by lia.
    apply IH; [lia|lia|]. apply IH; [lia|lia|]. now apply shr_1_shifted.
  - replace (n + Zpos p~0) with (n + Zpos p + Zpos p) by lia.
    apply IH; [lia|lia|]. now apply IH.
  - now apply shr_1_shifted.
Qed.

Lemma shr_fexp_shifted (fprec femax m e : Z) :
  0 <= m ->
  let k := Z.max 0 (fexp fprec femax (Zdigits2 m + e) - e) in
  shifted m k (fst (shr_fexp fprec femax m e loc_Exact)) /\
  snd (shr_fexp fprec femax m e loc_Exact) = e + k.
Proof.
  intros Hm k. unfold shr_fexp, shr. subst k.
  assert (H0 : shifted m 0 (shr_record_of_loc m loc_Exact)).
  { split; simpl; [now rewrite Z.div_1_r|discriminate]. }
  destruct (fexp fprec femax (Zdigits2 m + e) - e) as [|p|p] eqn:E; simpl fst; simpl snd.
  - rewrite Z.max_l by lia. split; [exact H0|lia].
  - rewrite Z.max_r by lia. split; [|lia].
    apply (iter_pos_shifted m p 0); [lia|lia|exact H0].
  - rewrite Z.max_l by lia. split; [exact H0|lia].
Qed.

(** [binary_round_aux] on an exact value: the mantissa is rounded up only
    when bits are lost. *)
Lemma binary_round_aux_exact (fprec femax : Z) (sx : bool) (mx ex : Z) :
  0 <= mx ->
  let k1 := step1k fprec femax mx ex in
  exists m1,
    (m1 = mx / 2 ^ k1 \/ (m1 = mx / 2 ^ k1 + 1 /\ mx mod 2 ^ k1 <> 0)) /\
    let e1 := ex + k1 in
    let m2 := m1 / 2 ^ step1k fprec femax m1 e1 in
    let e2 := e1 + step1k fprec femax m1 e1 in
    binary_round_aux fprec femax sx mx ex loc_Exact =
      match m2 with
      | Z0 => S754_zero sx
      | Zpos m => if e2 <=? femax - fprec then S754_finite sx m e2 else S754_infinity sx
      | Zneg _ => S754_nan
      end.
Proof.
  intros Hm k1. unfold binary_round_aux.
  pose proof (shr_fexp_shifted fprec femax mx ex Hm) as [[H1 H1r] H1e].
  fold (step1k fprec femax mx ex) in H1, H1r, H1e. fold k1 in H1, H1r, H1e.
  destruct (shr_fexp fprec femax mx ex loc_Exact) as [mrs' e'] eqn:E1.
  cbn [fst snd] in H1, H1r, H1e.
  set (m1 := round_nearest_even (shr_m mrs') (loc_of_shr_record mrs')).
  assert (Hq : 0 <= mx / 2 ^ k1) by (apply Z.div_pos; unfold k1, step1k; lia).
  assert (Hm1 : m1 = mx / 2 ^ k1 \/ (m1 = mx / 2 ^ k1 + 1 /\ mx mod 2 ^ k1 <> 0)).
  { subst m1. rewrite <- H1. destruct mrs' as [q r s]. cbn [shr_m shr_r shr_s] in *.
    destruct r, s; cbn [loc_of_shr_record round_nearest_even];
      try (destruct (Z.even q)); auto. }
  assert (Hm1' : 0 <= m1) by lia.
  pose proof (shr_fexp_spec fprec femax m1 e' loc_Exact Hm1') as [H2 H2e].
  destruct (shr_fexp fprec femax m1 e' loc_Exact) as [mrs'' e''] eqn:E2. simpl in H2, H2e.
  exists m1. split; [exact Hm1|].
  cbv zeta. unfold step1k. subst e'. fold (step1k fprec femax mx ex). fold k1.
  rewrite <- H2, <- H2e. reflexivity.
Qed.

(** *** Magnitudes

    The magnitude [m * 2^e] of a finite number is compared through the
    integer [m * sc e]; the scale covers the exponents of exact products. *)
Definition sc (e : Z) : Z := 2 ^ (e + 2200).

Lemma sc_pos (e : Z) : -2200 <= e -> 0 < sc e.
Proof. intros. unfold sc. apply Z.pow_pos_nonneg; lia. Qed.

Lemma sc_shift (e k : Z) : -2200 <= e -> 0 <= k -> sc (e + k) = 2 ^ k * sc e.
Proof.
  intros. unfold sc. replace (e + k + 2200) with (k + (e + 2200)) by lia.
  apply Z.pow_add_r; lia.
Qed.

Lemma sc_mono (e e' : Z) : -2200 <= e -> e <= e' -> sc e <= sc e'.
Proof. intros. unfold sc. apply Z.pow_le_mono_r; lia. Qed.

(** [x] is a zero or a finite number of magnitude at most [c * 2^ec]. *)
Definition magLe (x : spec_float) (c ec : Z) : Prop :=
  match x with
  | S754_zero _ => True
  | S754_finite _ m e => Zpos m * sc e <= c * sc ec
  | _ => False
  end.

Lemma Zdigits2_bound (c : Z) : 0 < c -> Zdigits2 c <= 53 -> c < 2 ^ 53.
Proof.
  intros Hc Hd. pose proof (Zdigits2_upper c ltac:(lia)) as H.
  assert (2 ^ Zdigits2 c <= 2 ^ 53) by (apply Z.pow_le_mono_r; lia). lia.
Qed.

(** Rounding does not cross a representable number: an exact value that is
    at most [c * 2^ec], with [c] of at most 53 bits, is rounded to a number
    that is at most [c * 2^ec]. *)
Lemma binary_round_aux_below (sx : bool) (mx ex c ec : Z) :
  0 < mx -> -2200 <= ex <= 971 -> Zdigits2 mx + ex <= 1023 ->
  0 < c -> Zdigits2 c <= 53 -> -1074 <= ec ->
  mx * sc ex <= c * sc ec ->
  magLe (binary_round_aux prec emax sx mx ex loc_Exact) c ec.
Proof.
  intros Hm Hex HD Hc Hdc Hec Hle.
  pose proof (binary_round_aux_finite sx mx ex loc_Exact ltac:(lia) ltac:(lia) HD) as Hfin.
  destruct (binary_round_aux_exact prec emax sx mx ex ltac:(lia)) as (m1 & Hm1 & Heq).
  cbv zeta in Hm1, Heq. rewrite Heq in Hfin |- *. clear Heq.
  set (k1 := step1k prec emax mx ex) in *.
  assert (Hk1 : 0 <= k1) by (unfold k1, step1k; lia).
  assert (Hp1 : 0 < 2 ^ k1) by (apply Z.pow_pos_nonneg; lia).
  pose proof (sc_pos ex ltac:(lia)) as Hsx.
  pose proof (sc_pos ec ltac:(lia)) as Hsc.
  pose proof (Z.div_mod mx (2 ^ k1) ltac:(lia)) as Hdm.
  pose proof (Z.mod_pos_bound mx (2 ^ k1) Hp1) as Hr.
  assert (Hq : 0 <= mx / 2 ^ k1) by (apply Z.div_pos; lia).
  assert (Hs1 : sc (ex + k1) = 2 ^ k1 * sc ex) by (apply sc_shift; lia).
  assert (H1 : m1 * sc (ex + k1) <= c * sc ec).
  { destruct Hm1 as [->|[-> Hne]].
    - rewrite Hs1. nia.
    - destruct (Z_le_gt_dec (ex + k1) ec) as [Hge|Hlt].
      + assert (Hs2 : sc ec = 2 ^ (ec - (ex + k1)) * sc (ex + k1)).
        { rewrite <- sc_shift by lia. f_equal. lia. }
        assert (Hp2 : 0 < 2 ^ (ec - (ex + k1))) by (apply Z.pow_pos_nonneg; lia).
        set (c' := c * 2 ^ (ec - (ex + k1))).
        assert (Hc' : c * sc ec = c' * sc (ex + k1)) by (unfold c'; rewrite Hs2; ring).
        rewrite Hc' in Hle |- *. rewrite Hs1 in Hle.
        assert (mx / 2 ^ k1 < c') by nia.
        pose proof (sc_pos (ex + k1) ltac:(lia)). nia.
      + exfalso.
        assert (Hk0 : k1 <> 0).
        { intros E0. apply Hne. rewrite E0. apply Z.mod_1_r. }
        assert (Hk1' : k1 = Zdigits2 mx + ex - 53 - ex)
          by (unfold k1 in *; unfold_format; lia).
        pose proof (Zdigits2_bound c Hc Hdc) as Hcb.
        pose proof (Zdigits2_pos_lower mx Hm) as [Hl Hd1].
        assert (Hs3 : sc ec <= sc (ex + k1 - 1)) by (apply sc_mono; lia).
        assert (Hs4 : 2 ^ 53 * sc (ex + k1 - 1) = 2 ^ (Zdigits2 mx - 1) * sc ex).
        { rewrite <- !sc_shift by lia. f_equal. lia. }
        pose proof (sc_pos (ex + k1 - 1) ltac:(lia)).
        assert (c * sc ec < 2 ^ 53 * sc (ex + k1 - 1)) by nia.
        assert (2 ^ (Zdigits2 mx - 1) * sc ex <= mx * sc ex) by nia.
        lia. }
  assert (Hm1' : 0 <= m1) by lia.
  set (e1 := ex + k1) in *.
  set (k2 := step1k prec emax m1 e1) in *.
  assert (Hk2 : 0 <= k2) by (unfold k2, step1k; lia).
  assert (Hp2 : 0 < 2 ^ k2) by (apply Z.pow_pos_nonneg; lia).
  assert (Hs5 : sc (e1 + k2) = 2 ^ k2 * sc e1) by (apply sc_shift; unfold e1; lia).
  pose proof (Z.mul_div_le m1 (2 ^ k2) Hp2) as Hql.
  assert (Hq2 : 0 <= m1 / 2 ^ k2) by (apply Z.div_pos; lia).
  pose proof (sc_pos e1 ltac:(unfold e1; lia)).
  destruct (m1 / 2 ^ k2) as [|m2|m2] eqn:E2; [exact I| |lia].
  destruct (e1 + k2 <=? emax - prec); [|discriminate Hfin].
  cbn [magLe]. rewrite Hs5. nia.
Qed.

Lemma iter_xO_value (m d : positive) : Zpos (Pos.iter xO m d) = Zpos m * 2 ^ Zpos d.
Proof.
  induction d as [|d IH] using Pos.peano_ind.
  - simpl. lia.
  - rewrite Pos.iter_succ, Pos2Z.inj_succ, Z.pow_succ_r by lia.
    change (Zpos (Pos.iter xO m d)~0) with (2 * Zpos (Pos.iter xO m d)). rewrite IH. ring.
Qed.

Lemma shl_align_value (mx : positive) (ex ex' : Z) :
  -2200 <= ex -> -2200 <= ex' ->
  Zpos (fst (shl_align mx ex ex')) * sc (snd (shl_align mx ex ex')) = Zpos mx * sc ex.
Proof.
  intros Hex Hex'. unfold shl_align.
  destruct (ex' - ex) as [|d|d] eqn:E; cbn [fst snd]; try reflexivity.
  rewrite iter_xO_value.
  replace ex with (ex' + Zpos d) by lia. rewrite sc_shift by lia. ring.
Qed.

Lemma binary_round_below (sx : bool) (mx : positive) (ex c ec : Z) :
  -2200 <= ex -> dg mx + ex <= 1023 ->
  0 < c -> Zdigits2 c <= 53 -> -1074 <= ec ->
  Zpos mx * sc ex <= c * sc ec ->
  magLe (binary_round prec emax sx mx ex) c ec.
Proof.
  intros Hex HD Hc Hdc Hec Hle. unfold binary_round.
  pose proof (shl_align_spec mx ex (fexp prec emax (dg mx + ex))) as [He Hd].
  pose proof (shl_align_value mx ex (fexp prec emax (dg mx + ex)) Hex
                ltac:(unfold_format; lia)) as Hv.
  destruct (shl_align _ _ _) as [mz ez]. cbn [fst snd] in He, Hd, Hv.
  apply binary_round_aux_below; cbn [Zdigits2]; try lia.
  subst ez. unfold_format. lia.
Qed.

End FloatFacts.

(** ** Facts about the Numbers of the model *)
Module NumberFacts.
Import FloatFacts.
Local Open Scope Z_scope.

Definition finiteF (x : float) : bool := finiteSF (Prim2SF x).

Lemma Z2f_finite (z : Z) : finiteF (Z2f z) = true.
Proof.
  unfold finiteF. destruct z as [|p|p]; simpl Z2f.
  - reflexivity.
  - apply of_uint63_finite.
  - rewrite FloatAxioms.opp_spec, SFopp_finite. apply of_uint63_finite.
Qed.

Lemma SF64mul_not_nan (x y : spec_float) :
  finiteSF x = true -> finiteSF y = true -> SF64mul x y <> S754_nan.
Proof.
  destruct x as [sx|sx| |sx mx ex], y as [sy|sy| |sy my ey]; simpl; try discriminate.
  intros _ _ H.
  pose proof (binary_round_aux_rounded (xorb sx sy) (Zpos (mx * my)) (ex + ey) loc_Exact
                ltac:(lia)) as R.
  unfold SF64mul, SFmul in H. rewrite H in R. inversion R.
Qed.

Lemma mul_not_nan (x y : float) :
  finiteF x = true -> finiteF y = true -> Prim2SF (x * y) <> S754_nan.
Proof. intros. rewrite FloatAxioms.mul_spec. now apply SF64mul_not_nan. Qed.

Lemma Math_roundI_not_nan (x : float) :
  Prim2SF x <> S754_nan -> Math_roundI x <> NaNInt.
Proof.
  unfold Math_roundI. destruct (Prim2SF x); try discriminate; [congruence|].
  destruct (0 <=? e); discriminate.
Qed.

(** The palette index is always a valid position of a non-empty palette. *)
Lemma paletteIndex_in_range (luminance : float) (n : Z) :
  finiteF (luminance / 255) = true -> 1 <= n ->
  exists j, 0 <= j <= n - 1 /\ getPaletteIndexByLuminance luminance n = Int j.
Proof.
  intros Hf Hn. unfold getPaletteIndexByLuminance.
  pose proof (Math_roundI_not_nan _ (mul_not_nan _ _ Hf (Z2f_finite (n - 1)))) as Hr.
  destruct (Math_roundI _) as [z|[]|]; try congruence; simpl.
  - exists (Z.max 0 (Z.min (n - 1) z)). split; [lia|reflexivity].
  - exists 0. split; [lia|reflexivity].
  - exists (Z.max 0 (n - 1)). split; [lia|reflexivity].
Qed.

(** Non-negative Numbers: [+0], and the positive ones. *)
Definition pzeroSF (x : spec_float) : bool :=
  match x with
  | S754_zero false => true
  | _ => false
  end.

Definition posSF (x : spec_float) : bool :=
  match x with
  | S754_finite false _ _ | S754_infinity false => true
  | _ => false
  end.

Definition pzeroF (x : float) : bool := pzeroSF (Prim2SF x).
Definition posF (x : float) : bool := posSF (Prim2SF x).

Lemma bounded_emin (m : positive) (e : Z) :
  bounded prec emax m e = true -> -1074 <= e /\ dg m <= 53.
Proof.
  unfold bounded, canonical_mantissa. intros H.
  apply andb_prop in H as [H _]. apply Z.eqb_eq in H.
  unfold fexp, SpecFloat.emin, prec, emax in H. lia.
Qed.

Lemma SF64add_pos (x y : spec_float) :
  valid_binary x = true -> valid_binary y = true ->
  pzeroSF x || posSF x = true -> pzeroSF y || posSF y = true ->
  posSF (SF64add x y) = posSF x || posSF y /\
  pzeroSF (SF64add x y) = negb (posSF x || posSF y).
Proof.
  destruct x as [[]|[]| |[] mx ex], y as [[]|[]| |[] my ey]; simpl;
    try discriminate; auto.
  intros Vx Vy _ _.
  apply bounded_emin in Vx as [Hx _]. apply bounded_emin in Vy as [Hy _].
  unfold SF64add, SFadd.
  set (ez := Z.min ex ey).
  destruct (shl_align mx ex ez) as [mx' ex'], (shl_align my ey ez) as [my' ey'].
  cbn [fst cond_Zopp Z.add binary_normalize].
  pose proof (binary_round_rounded false (mx' + my') ez) as R.
  pose proof (binary_round_nonzero false (mx' + my') ez ltac:(lia)) as N.
  destruct R; simpl in *; try discriminate; auto.
Qed.

Lemma add_pos (x y : float) :
  pzeroF x || posF x = true -> pzeroF y || posF y = true ->
  posF (x + y) = posF x || posF y /\ pzeroF (x + y) = negb (posF x || posF y).
Proof.
  unfold pzeroF, posF. intros Hx Hy. rewrite FloatAxioms.add_spec.
  apply SF64add_pos; auto using Prim2SF_valid.
Qed.

Lemma ltb_nonneg_pzero (d m : float) :
  pzeroF d || posF d = true -> pzeroF m = true -> (d <? m)%float = false.
Proof.
  unfold pzeroF, posF. rewrite FloatAxioms.ltb_spec.
  destruct (Prim2SF d) as [[]|[]| |[] ? ?], (Prim2SF m) as [[]|[]| |[] ? ?];
    simpl; try discriminate; reflexivity.
Qed.

Lemma ltb_pzero_pos (d m : float) :
  pzeroF d = true -> posF m = true -> (d <? m)%float = true.
Proof.
  unfold pzeroF, posF. rewrite FloatAxioms.ltb_spec.
  destruct (Prim2SF d) as [[]|[]| |[] ? ?], (Prim2SF m) as [[]|[]| |[] ? ?];
    simpl; try discriminate; reflexivity.
Qed.

End NumberFacts.

(** ** Bounds on rounded results *)
Module RangeFacts.
Import FloatFacts NumberFacts.
Local Open Scope Z_scope.

(** [x] is a zero, or negative of magnitude at most [cn * 2^ec], or
    positive of magnitude at most [cp * 2^ec]. *)
Definition within (x : spec_float) (cn cp ec : Z) : Prop :=
  match x with
  | S754_zero _ => True
  | S754_finite true m e => Zpos m * sc e <= cn * sc ec
  | S754_finite false m e => Zpos m * sc e <= cp * sc ec
  | _ => False
  end.

Lemma within_rounded (s : bool) (x : spec_float) (cn cp ec : Z) :
  rounded s x -> magLe x (if s then cn else cp) ec -> within x cn cp ec.
Proof. intros [| |] H; destruct s; simpl in *; auto. Qed.

Lemma bounded_canonical (m : positive) (e : Z) :
  bounded prec emax m e = true ->
  -1074 <= e <= 971 /\ dg m <= 53 /\ (-1074 < e -> dg m = 53).
Proof.
  unfold bounded, canonical_mantissa. intros H.
  apply andb_prop in H as [H1 H2]. apply Z.eqb_eq in H1. apply Z.leb_le in H2.
  unfold fexp, SpecFloat.emin, prec, emax in *. lia.
Qed.

(** On canonical numbers the order of the magnitudes is the lexicographic
    order of exponent and mantissa, which [SFcompare] computes. *)
Lemma canonical_le (m1 m2 : positive) (e1 e2 : Z) :
  bounded prec emax m1 e1 = true -> bounded prec emax m2 e2 = true ->
  Zpos m1 * sc e1 <= Zpos m2 * sc e2 ->
  e1 < e2 \/ (e1 = e2 /\ (m1 <= m2)%positive).
Proof.
  intros B1 B2 H.
  apply bounded_canonical in B1 as (He1 & Hd1 & Hn1).
  apply bounded_canonical in B2 as (He2 & Hd2 & Hn2).
  destruct (Z.lt_trichotomy e1 e2) as [Hlt|[Heq|Hgt]]; [now left| |exfalso].
  - right. split; [exact Heq|]. subst e2.
    pose proof (sc_pos e1 ltac:(lia)). apply Pos2Z.pos_le_pos. nia.
  - pose proof (dg_lower m1) as Hl. rewrite (Hn1 ltac:(lia)) in Hl.
    pose proof (dg_upper m2) as Hu.
    assert (2 ^ dg m2 <= 2 ^ 53) by (apply Z.pow_le_mono_r; lia).
    assert (Hs : sc (e2 + 1) <= sc e1) by (apply sc_mono; lia).
    rewrite sc_shift in Hs by lia.
    pose proof (sc_pos e2 ltac:(lia)).
    change (2 ^ (53 - 1)) with 4503599627370496 in Hl.
    change (2 ^ 53) with 9007199254740992 in *. change (2 ^ 1) with 2 in Hs. nia.
Qed.

Lemma canonical_lt (m1 m2 : positive) (e1 e2 : Z) :
  bounded prec emax m1 e1 = true -> bounded prec emax m2 e2 = true ->
  Zpos m1 * sc e1 < Zpos m2 * sc e2 ->
  e1 < e2 \/ (e1 = e2 /\ (m1 < m2)%positive).
Proof.
  intros B1 B2 H.
  destruct (canonical_le m1 m2 e1 e2 B1 B2 ltac:(lia)) as [Hlt|[Heq Hle]]; [now left|].
  right. split; [exact Heq|]. subst e2.
  apply Pos2Z.pos_lt_pos.
  apply bounded_canonical in B1 as (He1 & _).
  pose proof (sc_pos e1 ltac:(lia)). nia.
Qed.

(** A number within [mA] and [mA - 1] at the exponent of the canonical
    number [A = mA * 2^eA] lies in the interval [[-A, A)]. *)
Lemma within_interval (n : spec_float) (mA : positive) (eA : Z) :
  valid_binary n = true -> bounded prec emax mA eA = true ->
  within n (Zpos mA) (Zpos mA - 1) eA ->
  SFleb (S754_finite true mA eA) n = true /\ SFltb n (S754_finite false mA eA) = true.
Proof.
  intros Vn BA Hn.
  destruct n as [s|s| |[] m e]; cbn [within] in Hn; try contradiction.
  - split; reflexivity.
  - cbn [valid_binary] in Vn. split; [|reflexivity].
    destruct (canonical_le m mA e eA Vn BA Hn) as [Hlt|[-> Hle]];
      unfold SFleb, SFcompare.
    + apply Z.compare_gt_iff in Hlt. now rewrite Hlt.
    + rewrite Z.compare_refl.
      change (Pos.compare_cont Eq mA m) with (Pos.compare mA m).
      destruct (Pos.compare_spec mA m); try reflexivity. lia.
  - cbn [valid_binary] in Vn. split; [reflexivity|].
    pose proof (bounded_canonical mA eA BA) as (HeA & _).
    pose proof (sc_pos eA ltac:(lia)).
    destruct (canonical_lt m mA e eA Vn BA ltac:(nia)) as [Hlt|[-> Hl]];
      unfold SFltb, SFcompare.
    + apply Z.compare_lt_iff in Hlt. now rewrite Hlt.
    + rewrite Z.compare_refl.
      change (Pos.compare_cont Eq m mA) with (Pos.compare m mA).
      apply Pos.compare_lt_iff in Hl. now rewrite Hl.
Qed.


(** Magnitude of a product with a positive number. *)
Lemma SF64mul_within (x : spec_float) (my : positive) (ey cn cp ec dn dp ed : Z) :
  valid_binary x = true -> bounded prec emax my ey = true ->
  within x cn cp ec ->
  0 < cn < 2 ^ 53 -> 0 < cp < 2 ^ 53 -> -1074 <= ec -> ec + ey <= 800 ->
  0 < dn -> Zdigits2 dn <= 53 -> 0 < dp -> Zdigits2 dp <= 53 -> -1074 <= ed ->
  cn * Zpos my * sc (ec + ey) <= dn * sc ed ->
  cp * Zpos my * sc (ec + ey) <= dp * sc ed ->
  within (SF64mul x (S754_finite false my ey)) dn dp ed.
Proof.
  intros Vx By Hx Hcn Hcp Hec Hsum Hdn Hdn' Hdp Hdp' Hed Hn Hp.
  apply bounded_canonical in By as (Hey & Hdy & _).
  destruct x as [s|s| |s mx ex]; cbn [within] in Hx; try contradiction; [exact I|].
  cbn [valid_binary] in Vx. apply bounded_canonical in Vx as (Hex & Hdx & _).
  unfold SF64mul, SFmul. rewrite xorb_false_r.
  set (c := if s then cn else cp).
  set (d := if s then dn else dp).
  assert (Hc : 0 < c < 2 ^ 53) by (unfold c; destruct s; lia).
  assert (Hxc : Zpos mx * sc ex <= c * sc ec) by (unfold c; destruct s; exact Hx).
  assert (Hd : 0 < d /\ Zdigits2 d <= 53) by (unfold d; destruct s; lia).
  assert (Hcd : c * Zpos my * sc (ec + ey) <= d * sc ed)
    by (unfold c, d; destruct s; assumption).
  clear Hx Hn Hp.
  pose proof (sc_pos ex ltac:(lia)) as Hsx. pose proof (sc_pos ec ltac:(lia)) as Hsc.
  (* the exponent of x is below ec + 53 *)
  assert (Hexc : ex < ec + 53).
  { destruct (Z_lt_ge_dec ex (ec + 53)) as [|Hge]; [assumption|exfalso].
    assert (Hs : sc (ec + 53) <= sc ex) by (apply sc_mono; lia).
    rewrite sc_shift in Hs by lia. nia. }
  (* the exact product, on the common scale *)
  assert (Hprod : Zpos (mx * my) * sc (ex + ey) <= d * sc ed).
  { destruct (Z_le_gt_dec ex ec) as [Hle|Hgt].
    - assert (Hs : sc (ec + ey) = 2 ^ (ec - ex) * sc (ex + ey)).
      { rewrite <- sc_shift by lia. f_equal. lia. }
      assert (Hs' : sc ec = 2 ^ (ec - ex) * sc ex).
      { rewrite <- sc_shift by lia. f_equal. lia. }
      pose proof (sc_pos (ex + ey) ltac:(lia)).
      assert (0 < 2 ^ (ec - ex)) by (apply Z.pow_pos_nonneg; lia).
      rewrite Hs in Hcd. rewrite Hs' in Hxc. rewrite Pos2Z.inj_mul.
      assert (Zpos mx <= c * 2 ^ (ec - ex)) by nia. nia.
    - assert (Hs : sc (ex + ey) = 2 ^ (ex - ec) * sc (ec + ey)).
      { rewrite <- sc_shift by lia. f_equal. lia. }
      assert (Hs' : sc ex = 2 ^ (ex - ec) * sc ec).
      { rewrite <- sc_shift by lia. f_equal. lia. }
      pose proof (sc_pos (ec + ey) ltac:(lia)).
      assert (0 < 2 ^ (ex - ec)) by (apply Z.pow_pos_nonneg; lia).
      rewrite Hs. rewrite Hs' in Hxc. rewrite Pos2Z.inj_mul.
      assert (Zpos mx * 2 ^ (ex - ec) <= c) by nia. nia. }
  apply within_rounded with (s := s).
  - apply binary_round_aux_rounded. lia.
  - fold d. apply binary_round_aux_below; try lia.
    cbn [Zdigits2].
    pose proof (dg_upper (mx * my)) as Hu. pose proof (dg_lower (mx * my)) as Hl.
    pose proof (dg_upper mx) as Hux. pose proof (dg_upper my) as Huy.
    assert (H53 : forall p, dg p <= 53 -> Zpos p < 2 ^ 53).
    { intros p Hp. pose proof (dg_upper p).
      assert (2 ^ dg p <= 2 ^ 53) by (apply Z.pow_le_mono_r; lia). lia. }
    pose proof (H53 mx Hdx). pose proof (H53 my Hdy).
    assert (Zpos (mx * my) < 2 ^ 106).
    { rewrite Pos2Z.inj_mul. change (2 ^ 106) with (2 ^ 53 * 2 ^ 53). nia. }
    assert (dg (mx * my) <= 106).
    { destruct (Z_le_gt_dec (dg (mx * my)) 106); [assumption|exfalso].
      assert (2 ^ 106 <= 2 ^ (dg (mx * my) - 1)) by (apply Z.pow_le_mono_r; lia). lia. }
    lia.
Qed.

(** A draw [u] of [Math.random], [0 <= u < 1], minus one half: at most
    1/2 below zero and at most 1/2 - 2^-53 above. *)
Lemma sub_half_within (u : float) :
  (0 <=? u)%float = true -> (u <? 1)%float = true ->
  within (Prim2SF (u - 0.5)) (2 ^ 52) (2 ^ 52 - 1) (-53).
Proof.
  rewrite FloatAxioms.leb_spec, FloatAxioms.ltb_spec, FloatAxioms.sub_spec.
  pose proof (Prim2SF_valid u) as Vu.
  change (Prim2SF 0) with (S754_zero false).
  change (Prim2SF 1) with (S754_finite false 4503599627370496 (-52)).
  change (Prim2SF 0.5) with (S754_finite false 4503599627370496 (-53)).
  destruct (Prim2SF u) as [s|s| |s mx ex].
  - intros _ _. unfold SF64sub. cbn [SFsub negb within]. apply Z.le_refl.
  - destruct s; discriminate.
  - discriminate.
  - destruct s; try discriminate. intros _ Hlt.
    cbn [valid_binary] in Vu. apply bounded_canonical in Vu as (Hex & Hdx & Hnx).
    assert (Hex' : ex <= -53).
    { unfold SFltb, SFcompare in Hlt.
      destruct (Z.compare_spec ex (-52)) as [->|Hl|Hg]; try discriminate; [|lia].
      exfalso. pose proof (dg_lower mx) as Hl. rewrite (Hnx ltac:(lia)) in Hl.
      destruct (Pos.compare_cont Eq mx 4503599627370496) eqn:Ec; try discriminate.
      assert (Zpos mx < 4503599627370496) by (apply Pos2Z.pos_lt_pos; exact Ec).
      change (2 ^ (53 - 1)) with 4503599627370496 in Hl. lia. }
    clear Hlt. unfold SF64sub, SFsub.
    rewrite Z.min_l by lia.
    pose proof (shl_align_spec 4503599627370496 (-53) ex) as [He2 _].
    pose proof (shl_align_value 4503599627370496 (-53) ex ltac:(lia) ltac:(lia)) as Hv2.
    pose proof (shl_align_spec mx ex ex) as [He1 _].
    pose proof (shl_align_value mx ex ex ltac:(lia) ltac:(lia)) as Hv1.
    destruct (shl_align 4503599627370496 (-53) ex) as [h eh].
    destruct (shl_align mx ex ex) as [mx' ex'].
    cbn [fst snd cond_Zopp] in *.
    rewrite Z.min_r in He2 by lia. rewrite Z.min_id in He1. subst eh ex'.
    pose proof (sc_pos ex ltac:(lia)) as Hsx.
    assert (Hmx : Zpos mx' = Zpos mx) by nia. rewrite Hmx. clear Hmx Hv1 mx'.
    assert (Hm53 : Zpos mx < 2 ^ 53).
    { pose proof (dg_upper mx).
      assert (2 ^ dg mx <= 2 ^ 53) by (apply Z.pow_le_mono_r; lia). lia. }
    assert (Hs : sc (-53) = 2 ^ (-53 - ex) * sc ex).
    { rewrite <- sc_shift by lia. f_equal. lia. }
    assert (Hp : 0 < 2 ^ (-53 - ex)) by (apply Z.pow_pos_nonneg; lia).
    change (2 ^ 53) with 9007199254740992 in Hm53. change (2 ^ 52) with 4503599627370496.
    destruct (Zpos mx - Zpos h) as [|M|M] eqn:EM; cbn [binary_normalize].
    + exact I.
    + apply within_rounded with (s := false); [apply binary_round_rounded|].
      apply binary_round_below; try lia.
      * pose proof (Zdigits2_le (Zpos M) 53 ltac:(lia) ltac:(lia)
                      ltac:(change (2 ^ 53) with 9007199254740992; lia)) as HdM.
        cbn [Zdigits2] in HdM. lia.
      * vm_compute. discriminate.
      * rewrite <- EM. nia.
    + apply within_rounded with (s := true); [apply binary_round_rounded|].
      assert (HM : Zpos M = Zpos h - Zpos mx) by lia.
      assert (Hh : Zpos h = 4503599627370496 * 2 ^ (-53 - ex)) by nia.
      apply binary_round_below; try lia.
      * assert (Hlt : Zpos M < 2 ^ (-1 - ex)).
        { replace (-1 - ex) with (52 + (-53 - ex)) by lia.
          rewrite Z.pow_add_r by lia. change (2 ^ 52) with 4503599627370496. lia. }
        pose proof (Zdigits2_le (Zpos M) (-1 - ex) ltac:(lia) ltac:(lia) Hlt) as HdM.
        cbn [Zdigits2] in HdM. lia.
      * vm_compute. discriminate.
Qed.

Lemma binary_round_aux_exponent (sx : bool) (mx ex : Z) (s : bool) (m : positive) (e : Z) :
  0 <= mx ->
  binary_round_aux prec emax sx mx ex loc_Exact = S754_finite s m e -> ex <= e.
Proof.
  intros Hm E.
  destruct (binary_round_aux_spec prec emax sx mx ex loc_Exact Hm) as (m1 & _ & Heq).
  cbv zeta in Heq. rewrite Heq in E.
  destruct (m1 / _); try discriminate.
  destruct (_ <=? _); try discriminate.
  injection E as _ _ <-. unfold step1k. lia.
Qed.

(** A positive integer below 2^63 is a positive normal Number. *)
Lemma Z2f_normal (amount : Z) :
  0 < amount < 2 ^ 63 ->
  exists mA eA, Prim2SF (Z2f amount) = S754_finite false mA eA /\
    bounded prec emax mA eA = true /\ dg mA = 53 /\ -52 <= eA <= 11.
Proof.
  intros Ha. pose proof (Prim2SF_valid (Z2f amount)) as V.
  destruct amount as [|p|p]; try lia. cbn [Z2f] in *.
  rewrite of_uint63_spec in *.
  rewrite Uint63.of_Z_spec in *.
  rewrite Z.mod_small in * by (change wB with (2 ^ 63); lia).
  cbn [binary_normalize] in *.
  pose proof (binary_round_rounded false p 0) as R.
  pose proof (binary_round_nonzero false p 0 ltac:(lia)) as N.
  pose proof (binary_round_below false p 0 (2 ^ 52) 11 ltac:(lia)) as B.
  assert (Hdp : dg p <= 63).
  { pose proof (Zdigits2_le (Zpos p) 63 ltac:(lia) ltac:(lia) ltac:(lia)) as H.
    exact H. }
  specialize (B ltac:(lia) ltac:(reflexivity) ltac:(vm_compute; discriminate) ltac:(lia)).
  assert (Hsc : 2 ^ 52 * sc 11 = 2 ^ 63 * sc 0).
  { change 11 with (0 + 11). rewrite sc_shift by lia.
    change (2 ^ 63) with (2 ^ 52 * 2 ^ 11). ring. }
  pose proof (sc_pos 0 ltac:(lia)) as Hs0.
  specialize (B ltac:(rewrite Hsc; nia)).
  assert (Hexp : forall s m e, binary_round prec emax false p 0 = S754_finite s m e ->
                               -52 <= e).
  { intros s m e E. unfold binary_round in E.
    pose proof (shl_align_spec p 0 (fexp prec emax (dg p + 0))) as [He _].
    destruct (shl_align _ _ _) as [mz ez]. cbn [fst snd] in He.
    apply binary_round_aux_exponent in E; [|lia].
    subst ez. unfold_format. lia. }
  destruct (binary_round prec emax false p 0) as [s|s| |s m e] eqn:E;
    inversion R; subst; try discriminate N; try contradiction.
  specialize (Hexp _ _ _ eq_refl).
  cbn [valid_binary] in V.
  pose proof (bounded_canonical m e V) as (He & Hd & Hn).
  exists m, e. split; [reflexivity|]. split; [exact V|]. split; [apply Hn; lia|].
  split; [exact Hexp|].
  cbn [magLe] in B.
  destruct (Z_le_gt_dec e 11) as [|Hgt]; [assumption|exfalso].
  pose proof (dg_lower m) as Hl. rewrite (Hn ltac:(lia)) in Hl.
  assert (Hs : sc (11 + 1) <= sc e) by (apply sc_mono; lia).
  rewrite sc_shift in Hs by lia.
  pose proof (sc_pos 11 ltac:(lia)).
  change (2 ^ (53 - 1)) with (2 ^ 52) in Hl. change (2 ^ 1) with 2 in Hs.
  assert (0 < 2 ^ 52) by reflexivity. nia.
Qed.

(** The noise of one pixel, [(u - 0.5) * amount * 2] for a draw
    [0 <= u < 1], lies in [[-amount, amount)]. *)
Lemma noise_interval (u : float) (amount : Z) :
  (0 <=? u)%float = true -> (u <? 1)%float = true -> 0 < amount < 2 ^ 63 ->
  let noise := ((u - 0.5) * Z2f amount * 2)%float in
  (- Z2f amount <=? noise)%float = true /\ (noise <? Z2f amount)%float = true.
Proof.
  intros H0 H1 Ha noise.
  destruct (Z2f_normal amount Ha) as (mA & eA & EA & BA & HdA & HeA).
  pose proof (sub_half_within u H0 H1) as Ht.
  pose proof (dg_lower mA) as HlA. pose proof (dg_upper mA) as HuA.
  rewrite HdA in HlA, HuA.
  change (2 ^ (53 - 1)) with 4503599627370496 in HlA.
  change (2 ^ 53) with 9007199254740992 in HuA.
  assert (Hd1 : Zdigits2 (Zpos mA - 1) <= 53).
  { apply Zdigits2_le; [lia|lia|]. change (2 ^ 53) with 9007199254740992. lia. }
  assert (Hp : within (Prim2SF ((u - 0.5) * Z2f amount)) (Zpos mA) (Zpos mA - 1) (eA - 1)).
  { rewrite FloatAxioms.mul_spec, EA.
    assert (Hs : sc (eA - 1) = 4503599627370496 * sc (-53 + eA)).
    { replace (eA - 1) with (-53 + eA + 52) by lia. now rewrite sc_shift by lia. }
    pose proof (sc_pos (-53 + eA) ltac:(lia)).
    apply SF64mul_within with (cn := 4503599627370496) (cp := 4503599627370495) (ec := -53);
      try assumption; try (cbn [Zdigits2]; lia);
      first [apply Prim2SF_valid | rewrite Hs; nia]. }
  assert (Hn : within (Prim2SF noise) (Zpos mA) (Zpos mA - 1) eA).
  { unfold noise. rewrite FloatAxioms.mul_spec.
    change (Prim2SF 2) with (S754_finite false 4503599627370496 (-51)).
    assert (Hs : sc eA = 4503599627370496 * sc (eA - 1 + -51)).
    { replace eA with (eA - 1 + -51 + 52) at 1 by lia. now rewrite sc_shift by lia. }
    pose proof (sc_pos (eA - 1 + -51) ltac:(lia)).
    apply SF64mul_within with (cn := Zpos mA) (cp := Zpos mA - 1) (ec := eA - 1);
      try assumption; try (cbn [Zdigits2]; lia);
      first [apply Prim2SF_valid | reflexivity
            | change (2 ^ 53) with 9007199254740992; lia | rewrite Hs; nia]. }
  rewrite FloatAxioms.leb_spec, FloatAxioms.ltb_spec, FloatAxioms.opp_spec, EA.
  cbn [SFopp negb].
  apply within_interval; [apply Prim2SF_valid|exact BA|exact Hn].
Qed.

(** With the amount 0 the noise is a zero. *)
Lemma noise_zero (u : float) :
  (0 <=? u)%float = true -> (u <? 1)%float = true ->
  let noise := ((u - 0.5) * Z2f 0 * 2)%float in
  noise = 0%float \/ noise = (-0)%float.
Proof.
  intros H0 H1 noise.
  pose proof (sub_half_within u H0 H1) as Ht.
  assert (E : exists s, Prim2SF noise = S754_zero s).
  { unfold noise. rewrite !FloatAxioms.mul_spec.
    change (Prim2SF (Z2f 0)) with (S754_zero false).
    change (Prim2SF 2) with (S754_finite false 4503599627370496 (-51)).
    destruct (Prim2SF (u - 0.5)) as [s|s| |s m e]; cbn [within] in Ht;
      try contradiction; cbn; eauto. }
  destruct E as [s E].
  rewrite <- (SF2Prim_Prim2SF noise), E.
  destruct s; [right|left]; reflexivity.
Qed.

End RangeFacts.

(** ** Loops and pixel access *)
Module LoopFacts.

Lemma forEach_seq_inv {St : Type} (Inv : nat -> St -> Prop) (body : nat -> St -> result St) :
  forall (n a : nat) (s : St),
  Inv a s ->
  (forall i s, a <= i < a + n -> Inv i s -> exists s', body i s = Ok s' /\ Inv (i + 1) s') ->
  exists s', forEach (seq a n) body s = Ok s' /\ Inv (a + n) s'.
Proof.
  induction n as [|n IH]; intros a s H0 Hstep; simpl.
  - exists s. rewrite Nat.add_0_r. auto.
  - destruct (Hstep a s ltac:(lia) H0) as (s1 & -> & H1). simpl.
    destruct (IH (S a) s1) as (s2 & E & H2).
    + now rewrite Nat.add_1_r in H1.
    + intros i s' Hi. apply Hstep. lia.
    + exists s2. split; [exact E|]. now replace (a + S n) with (S a + n) by lia.
Qed.

(** The invariant rule of the row-major double loop: [Inv k] holds when
    exactly the first [k] pixels (in row-major order) have been processed. *)
Lemma forPixels_inv {St : Type} (Inv : nat -> St -> Prop) (w h : nat)
    (body : nat -> nat -> St -> result St) (s : St) :
  Inv 0 s ->
  (forall x y s, x < w -> y < h -> Inv (y * w + x) s ->
     exists s', body x y s = Ok s' /\ Inv (y * w + x + 1) s') ->
  exists s', forPixels w h body s = Ok s' /\ Inv (h * w) s'.
Proof.
  intros H0 Hstep. unfold forPixels.
  destruct (forEach_seq_inv (fun y s => Inv (y * w) s)
              (fun y => forEach (seq 0 w) (fun x => body x y)) h 0 s) as (s' & E & H').
  - exact H0.
  - intros y s1 Hy Hs1.
    destruct (forEach_seq_inv (fun x s => Inv (y * w + x) s) (fun x => body x y) w 0 s1)
      as (s2 & E2 & H2).
    + now rewrite Nat.add_0_r.
    + intros x s2 Hx Hs2. rewrite Nat.add_assoc. apply Hstep; [lia|lia|exact Hs2].
    + exists s2. split; [exact E2|].
      now replace ((y + 1) * w) with (y * w + (0 + w)) by lia.
  - exists s'. split; [exact E|exact H'].
Qed.

(** A throw in the very first iteration aborts the double loop. *)
Lemma forPixels_throw_first {St : Type} (w h : nat)
    (body : nat -> nat -> St -> result St) (s : St) (e : jsError) :
  0 < w -> 0 < h -> body 0 0 s = Throw e -> forPixels w h body s = Throw e.
Proof.
  intros Hw Hh Hb. unfold forPixels.
  destruct h as [|h]; [lia|]. destruct w as [|w]; [lia|].
  simpl. rewrite Hb. reflexivity.
Qed.

Lemma list4_ind (P : list Z -> Prop) :
  (forall d, length d < 4 -> P d) ->
  (forall r g b a rest, P rest -> P (r :: g :: b :: a :: rest)) ->
  forall d, P d.
Proof.
  intros Hshort Hstep. fix IH 1.
  intros [|r [|g [|b [|a rest]]]]; try (apply Hshort; simpl; lia).
  apply Hstep, IH.
Qed.

Lemma pixelAt_group_0 (r g b a : Z) (rest : list Z) :
  pixelAt (r :: g :: b :: a :: rest) 0 = Some (r, g, b).
Proof. reflexivity. Qed.

Lemma pixelAt_group_S (r g b a : Z) (rest : list Z) (i : nat) :
  pixelAt (r :: g :: b :: a :: rest) (S i) = pixelAt rest i.
Proof.
  unfold pixelAt.
  replace (4 * S i) with (S (S (S (S (4 * i))))) by lia.
  replace (S (S (S (S (4 * i)))) + 1) with (S (S (S (S (4 * i + 1))))) by lia.
  replace (S (S (S (S (4 * i)))) + 2) with (S (S (S (S (4 * i + 2))))) by lia.
  reflexivity.
Qed.

Lemma mapPixels_length (f : Z -> Z -> Z -> result rgb) :
  forall d d', mapPixels f d = Ok d' -> length d' = length d.
Proof.
  induction d as [d Hd|r g b a rest IH] using list4_ind; intros d' H.
  - destruct d as [|? [|? [|? [|? ?]]]]; simpl in *; try lia; now inversion H.
  - simpl in H. destruct (f r g b) as [[[r' g'] b']|]; simpl in H; [|discriminate].
    destruct (mapPixels f rest) as [rest'|]; simpl in H; [|discriminate].
    inversion H; subst. simpl. now rewrite (IH rest').
Qed.

(** Each stored pixel is what [f] returns on the pixel read. *)
Lemma mapPixels_pixelAt (f : Z -> Z -> Z -> result rgb) :
  forall d d', mapPixels f d = Ok d' ->
  forall i r g b, 4 * i + 3 < length d -> pixelAt d i = Some (r, g, b) ->
  exists c, f r g b = Ok c /\ pixelAt d' i = Some c.
Proof.
  induction d as [d Hd|r0 g0 b0 a0 rest IH] using list4_ind; intros d' H i r g b Hi Hp.
  - lia.
  - simpl in H. destruct (f r0 g0 b0) as [[[r' g'] b']|] eqn:Ef; simpl in H; [|discriminate].
    destruct (mapPixels f rest) as [rest'|] eqn:Er; simpl in H; [|discriminate].
    inversion H; subst. destruct i as [|i].
    + rewrite pixelAt_group_0 in Hp. inversion Hp; subst. eauto.
    + rewrite pixelAt_group_S in *. apply (IH rest' eq_refl i); [simpl in Hi; lia|exact Hp].
Qed.

(** The loop succeeds when [f] succeeds on every pixel. *)
Lemma mapPixels_total (f : Z -> Z -> Z -> result rgb) :
  forall d,
  (forall i r g b, 4 * i + 3 < length d -> pixelAt d i = Some (r, g, b) ->
     exists c, f r g b = Ok c) ->
  exists d', mapPixels f d = Ok d'.
Proof.
  induction d as [d Hd|r0 g0 b0 a0 rest IH] using list4_ind; intros Hf.
  - destruct d as [|? [|? [|? [|? ?]]]]; simpl in *; try lia; eauto.
  - simpl. destruct (Hf 0 r0 g0 b0) as ([[r' g'] b'] & ->); [simpl; lia|reflexivity|].
    destruct IH as (rest' & ->).
    + intros i r g b Hi Hp. apply (Hf (S i)); [simpl; lia|now rewrite pixelAt_group_S].
    + simpl. eauto.
Qed.

(** The loop changes nothing when [f] returns every pixel as it is. *)
Lemma mapPixels_id (f : Z -> Z -> Z -> result rgb) :
  forall d,
  (forall i r g b, 4 * i + 3 < length d -> pixelAt d i = Some (r, g, b) ->
     f r g b = Ok (r, g, b)) ->
  mapPixels f d = Ok d.
Proof.
  induction d as [d Hd|r0 g0 b0 a0 rest IH] using list4_ind; intros Hf.
  - destruct d as [|? [|? [|? [|? ?]]]]; simpl in *; try lia; eauto.
  - simpl. rewrite (Hf 0 r0 g0 b0); [|simpl; lia|reflexivity]. simpl.
    rewrite IH; [reflexivity|].
    intros i r g b Hi Hp. apply (Hf (S i)); [simpl; lia|now rewrite pixelAt_group_S].
Qed.

Lemma mapPixels_throw_first (f : Z -> Z -> Z -> result rgb) (e : jsError)
    (r g b a : Z) (rest : list Z) :
  f r g b = Throw e -> mapPixels f (r :: g :: b :: a :: rest) = Throw e.
Proof. intros H. simpl. now rewrite H. Qed.

Lemma pixelAt_defined (d : list Z) (i : nat) :
  4 * i + 2 < length d -> exists c, pixelAt d i = Some c.
Proof.
  intros H. unfold pixelAt.
  destruct (lookup_lt_is_Some_2 d (4 * i) ltac:(lia)) as [r ->].
  destruct (lookup_lt_is_Some_2 d (4 * i + 1) ltac:(lia)) as [g ->].
  destruct (lookup_lt_is_Some_2 d (4 * i + 2) ltac:(lia)) as [b ->].
  eauto.
Qed.

Lemma clampByte_isByte (z : Z) : isByte (clampByte z).
Proof. unfold isByte, clampByte. lia. Qed.

Lemma clampByte_id (z : Z) : isByte z -> clampByte z = z.
Proof. unfold isByte, clampByte. lia. Qed.

Lemma setRGB_length (d : list Z) (i : nat) (c : rgb) : length (setRGB d i c) = length d.
Proof. destruct c as [[r g] b]. unfold setRGB. now rewrite !length_insert. Qed.

Lemma setRGB_lookup_other (d : list Z) (i j : nat) (c : rgb) :
  j < i \/ i + 2 < j -> setRGB d i c !! j = d !! j.
Proof.
  intros H. destruct c as [[r g] b]. unfold setRGB.
  rewrite !list_lookup_insert_ne by lia. reflexivity.
Qed.

Lemma pixelAt_setRGB_same (d : list Z) (k : nat) (r g b : Z) :
  4 * k + 2 < length d ->
  pixelAt (setRGB d (4 * k) (r, g, b)) k = Some (clampByte r, clampByte g, clampByte b).
Proof.
  intros H. unfold pixelAt, setRGB.
  rewrite (list_lookup_insert_ne _ (4 * k + 2) (4 * k)) by lia.
  rewrite (list_lookup_insert_ne _ (4 * k + 1) (4 * k)) by lia.
  rewrite list_lookup_insert_eq by lia.
  rewrite (list_lookup_insert_ne _ (4 * k + 2) (4 * k + 1)) by lia.
  rewrite list_lookup_insert_eq by (rewrite length_insert; lia).
  rewrite list_lookup_insert_eq by (rewrite !length_insert; lia).
  reflexivity.
Qed.

Lemma pixelAt_setRGB_other (d : list Z) (k i : nat) (c : rgb) :
  i <> k -> pixelAt (setRGB d (4 * k) c) i = pixelAt d i.
Proof.
  intros H. unfold pixelAt.
  rewrite !setRGB_lookup_other by lia. reflexivity.
Qed.

Lemma setRGB_bytes (d : list Z) (i : nat) (c : rgb) :
  Forall isByte d -> Forall isByte (setRGB d i c).
Proof.
  intros H. destruct c as [[r g] b]. unfold setRGB.
  repeat apply Forall_insert; auto using clampByte_isByte.
Qed.

End LoopFacts.

(** ** Facts about the palette search and the sorted palette *)
Module PaletteFacts.
Import LoopFacts NumberFacts.

Lemma scanPalette_in (r g b : float) :
  forall palette minDist closest,
  scanPalette r g b palette minDist closest = closest \/
  exists c, c ∈ palette /\ scanPalette r g b palette minDist closest = Some c.
Proof.
  induction palette as [|[[pr pg] pb] rest IH]; intros minDist closest; cbn [scanPalette].
  - now left.
  - set (dist := colorDistanceSq r g b (Z2f pr) (Z2f pg) (Z2f pb)).
    destruct (dist <? minDist)%float.
    + right. destruct (IH dist (Some (pr, pg, pb))) as [E|(c & Hc & E)].
      * exists (pr, pg, pb). split; [left|exact E].
      * exists c. split; [now right|exact E].
    + destruct (IH minDist closest) as [E|(c & Hc & E)]; [now left|].
      right. exists c. split; [now right|exact E].
Qed.

Lemma findClosestColor_in (r g b : float) (palette : list rgb) :
  palette <> [] -> exists c, c ∈ palette /\ findClosestColor r g b palette = Some c.
Proof.
  intros Hne. unfold findClosestColor.
  destruct palette as [|c0 rest]; [congruence|].
  destruct (scanPalette_in r g b (c0 :: rest) infinity (head (c0 :: rest)))
    as [E|(c & Hc & E)].
  - exists c0. split; [left|exact E].
  - eauto.
Qed.

Lemma findClosestColor_nil (r g b : float) : findClosestColor r g b [] = None.
Proof. reflexivity. Qed.

Lemma wfPalette_clamp (palette : list rgb) (r g b : Z) :
  wfPalette palette -> (r, g, b) ∈ palette ->
  (clampByte r, clampByte g, clampByte b) = (r, g, b).
Proof.
  intros Hwf Hin. unfold wfPalette in Hwf. rewrite Forall_forall in Hwf.
  destruct (Hwf _ Hin) as (Hr & Hg & Hb).
  now rewrite !clampByte_id.
Qed.

Lemma insertByLuminance_perm (c : rgb) (l : list rgb) : insertByLuminance c l ≡ₚ c :: l.
Proof.
  induction l as [|d rest IH]; simpl; [reflexivity|].
  destruct (_ <=? _)%Z; [reflexivity|].
  rewrite IH. apply Permutation_swap.
Qed.

Lemma sortPaletteByLuminance_perm (palette : list rgb) :
  sortPaletteByLuminance palette ≡ₚ palette.
Proof.
  unfold sortPaletteByLuminance.
  induction palette as [|c rest IH]; simpl; [reflexivity|].
  now rewrite insertByLuminance_perm, IH.
Qed.

Lemma sortPaletteByLuminance_length (palette : list rgb) :
  length (sortPaletteByLuminance palette) = length palette.
Proof. now rewrite sortPaletteByLuminance_perm. Qed.

Lemma sortPaletteByLuminance_elem (palette : list rgb) (c : rgb) :
  c ∈ sortPaletteByLuminance palette <-> c ∈ palette.
Proof. now rewrite sortPaletteByLuminance_perm. Qed.

(** The luminance of a byte pixel is a byte. *)
Lemma getLuminance_byte (r g b : Z) :
  isByte r -> isByte g -> isByte b -> isByte (getLuminance r g b).
Proof.
  unfold isByte, getLuminance, toInt32. intros Hr Hg Hb.
  rewrite Z.mod_small by lia.
  replace (_ <? _)%Z with true by (symmetry; apply Z.ltb_lt; lia).
  rewrite Z.shiftr_div_pow2 by lia.
  change (2 ^ 8)%Z with 256%Z.
  split; [apply Z.div_pos; lia|].
  apply Z.lt_succ_r. apply Z.div_lt_upper_bound; lia.
Qed.

(** The palette lookup of the final posterize pass and of the ordered
    dither: for a finite normalized luminance the index names an entry. *)
Lemma palette_lookup_ok (sortedPalette : list rgb) (luminance : float) :
  sortedPalette <> [] -> finiteF (luminance / 255) = true ->
  exists j c, (0 <= j <= Z.of_nat (length sortedPalette) - 1)%Z /\
    getPaletteIndexByLuminance luminance (Z.of_nat (length sortedPalette)) = Int j /\
    indexOf (Int j) ≫= (sortedPalette !!.) = Some c /\ c ∈ sortedPalette.
Proof.
  intros Hne Hf.
  assert (Hn : (1 <= Z.of_nat (length sortedPalette))%Z)
    by (destruct sortedPalette; [congruence|simpl; lia]).
  destruct (paletteIndex_in_range luminance _ Hf Hn) as (j & Hj & Hidx).
  destruct (lookup_lt_is_Some_2 sortedPalette (Z.to_nat j) ltac:(lia)) as [c Hc].
  exists j, c. repeat split; try lia; [exact Hidx| |].
  - simpl. replace (0 <=? j)%Z with true by (symmetry; apply Z.leb_le; lia).
    simpl. exact Hc.
  - eapply list_elem_of_lookup_2, Hc.
Qed.

End PaletteFacts.

(** ** Palette-only rasters *)

(** The first [n] pixels of [d] carry palette colours. *)
Definition paletteOnly (palette : list rgb) (d : list Z) (n : nat) : Prop :=
  forall i, i < n -> exists c, c ∈ palette /\ pixelAt d i = Some c.

Module DitherFacts.
Import LoopFacts NumberFacts PaletteFacts.

(** A row-major loop whose body stores one palette colour into the pixel
    it visits leaves a palette-only raster. *)
Lemma paintLoop_palette {St : Type} (getData : St -> list Z) (palette : list rgb)
    (w h : nat) (body : nat -> nat -> St -> result St) (s : St) :
  wfPalette palette ->
  length (getData s) = 4 * (w * h) ->
  Forall isByte (getData s) ->
  (forall x y s, x < w -> y < h ->
     length (getData s) = 4 * (w * h) -> Forall isByte (getData s) ->
     exists c s', c ∈ palette /\ body x y s = Ok s' /\
       getData s' = setRGB (getData s) ((y * w + x) * 4) c) ->
  exists s', forPixels w h body s = Ok s' /\
    length (getData s') = 4 * (w * h) /\ Forall isByte (getData s') /\
    paletteOnly palette (getData s') (w * h).
Proof.
  intros Hwf Hlen Hbytes Hbody.
  destruct (forPixels_inv
    (fun k s => length (getData s) = 4 * (w * h) /\ Forall isByte (getData s) /\
                paletteOnly palette (getData s) k) w h body s) as (s' & E & HI).
  - repeat split; auto. intros i Hi. lia.
  - intros x y s0 Hx Hy (Hl & Hb & Hp).
    destruct (Hbody x y s0 Hx Hy Hl Hb) as ([[r g] b] & s1 & Hc & Eb & Ed).
    exists s1. split; [exact Eb|].
    replace ((y * w + x) * 4) with (4 * (y * w + x)) in Ed by lia.
    assert (Hk : y * w + x < w * h) by nia.
    rewrite Ed. repeat split.
    + now rewrite setRGB_length.
    + now apply setRGB_bytes.
    + intros i Hi. destruct (Nat.eq_dec i (y * w + x)) as [->|Hne].
      * exists (r, g, b). split; [exact Hc|].
        rewrite pixelAt_setRGB_same by lia.
        f_equal. now apply (wfPalette_clamp palette).
      * rewrite pixelAt_setRGB_other by exact Hne. apply Hp. lia.
  - exists s'. destruct HI as (Hl & Hb & Hp). repeat split; auto.
    now rewrite Nat.mul_comm.
Qed.

Lemma fsPixel_paints (palette : list rgb) (w h x y : nat) (d : list Z) (buffer : list float) :
  palette <> [] ->
  exists c s', c ∈ palette /\ fsPixel palette w h x y (d, buffer) = Ok s' /\
    fst s' = setRGB (fst (d, buffer)) ((y * w + x) * 4) c.
Proof.
  intros Hne. unfold fsPixel.
  destruct (findClosestColor_in (rdF buffer ((y * w + x) * 4))
              (rdF buffer ((y * w + x) * 4 + 1)) (rdF buffer ((y * w + x) * 4 + 2))
              palette Hne) as ([[nr ng] nb] & Hc & ->).
  eexists (nr, ng, nb), _. split; [exact Hc|]. split; reflexivity.
Qed.

Lemma atkinsonPixel_paints (palette : list rgb) (w h x y : nat) (d : list Z)
    (buffer : list float) :
  palette <> [] ->
  exists c s', c ∈ palette /\ atkinsonPixel palette w h x y (d, buffer) = Ok s' /\
    fst s' = setRGB (fst (d, buffer)) ((y * w + x) * 4) c.
Proof.
  intros Hne. unfold atkinsonPixel.
  destruct (findClosestColor_in (rdF buffer ((y * w + x) * 4))
              (rdF buffer ((y * w + x) * 4 + 1)) (rdF buffer ((y * w + x) * 4 + 2))
              palette Hne) as ([[nr ng] nb] & Hc & ->).
  eexists (nr, ng, nb), _. split; [exact Hc|]. split; reflexivity.
Qed.

(** The perturbed luminance handed to the palette lookup by the ordered
    dither, normalized as the lookup does. *)
Definition orderedNormalized (lum : Z) (threshold : float) : float :=
  ((Z2f lum / 255 + (threshold - 0.5) * 0.5) * 255 / 255)%float.

Definition byteRange : list Z := map Z.of_nat (seq 0 256).

Lemma byteRange_In (v : Z) : isByte v -> In v byteRange.
Proof.
  intros [H0 H1]. unfold byteRange. apply in_map_iff.
  exists (Z.to_nat v). split; [lia|]. apply in_seq. lia.
Qed.

(** Every cell of the Bayer matrix of size [n] exists, and with it the
    normalized luminance is finite for every byte luminance. *)
Definition orderedCheck (n : nat) : bool :=
  forallb (fun i => forallb (fun j =>
    match bayerFor (Z.of_nat n) !! i ≫= (.!! j) with
    | Some t => forallb (fun lum => finiteF (orderedNormalized lum t)) byteRange
    | None => false
    end) (seq 0 n)) (seq 0 n).

Lemma orderedCheck_sizes : orderedCheck 2 && orderedCheck 4 && orderedCheck 8 = true.
Proof. vm_cast_no_check (eq_refl true). Qed.

Lemma remIndex_lt (k n : nat) :
  0 < n -> exists i, remIndex k (Z.of_nat n) = Some i /\ i < n.
Proof.
  intros Hn. unfold remIndex.
  replace (Z.of_nat n =? 0)%Z with false by (symmetry; apply Z.eqb_neq; lia).
  eexists. split; [reflexivity|].
  pose proof (Z.rem_bound_pos (Z.of_nat k) (Z.of_nat n) ltac:(lia) ltac:(lia)). lia.
Qed.

Lemma bayer_cell (n x y : nat) (lum : Z) :
  orderedCheck n = true -> 0 < n -> isByte lum ->
  exists row t, remIndex y (Z.of_nat n) ≫= (bayerFor (Z.of_nat n) !!.) = Some row /\
    remIndex x (Z.of_nat n) ≫= (row !!.) = Some t /\
    finiteF (orderedNormalized lum t) = true.
Proof.
  intros Hchk Hn Hlum.
  destruct (remIndex_lt y n Hn) as (i & -> & Hi).
  destruct (remIndex_lt x n Hn) as (j & -> & Hj).
  unfold orderedCheck in Hchk.
  pose proof (proj1 (forallb_forall _ _) Hchk i ltac:(apply in_seq; lia)) as Hrow.
  cbv beta in Hrow.
  pose proof (proj1 (forallb_forall _ _) Hrow j ltac:(apply in_seq; lia)) as Hcell.
  cbv beta in Hcell. simpl.
  destruct (bayerFor (Z.of_nat n) !! i) as [row|]; cbn [mbind option_bind] in Hcell;
    [|discriminate].
  destruct (row !! j) as [t|] eqn:Et; [|discriminate].
  pose proof (proj1 (forallb_forall _ _) Hcell) as Hfin.
  exists row, t. split; [reflexivity|]. split; [exact Et|].
  apply Hfin. now apply byteRange_In.
Qed.

Lemma lumAt_byte (d : list Z) (idx : nat) : Forall isByte d -> isByte (lumAt d idx).
Proof.
  intros Hb. unfold lumAt. rewrite Forall_lookup in Hb.
  destruct (d !! idx) as [r|] eqn:Er; [|unfold isByte; lia].
  destruct (d !! (idx + 1)) as [g|] eqn:Eg; [|unfold isByte; lia].
  destruct (d !! (idx + 2)) as [b|] eqn:Eb; [|unfold isByte; lia].
  apply getLuminance_byte; eauto.
Qed.

Lemma orderedPixel_paints (palette : list rgb) (n w x y : nat) (d : list Z) :
  orderedCheck n = true -> 0 < n -> palette <> [] -> Forall isByte d ->
  exists c d', c ∈ palette /\
    orderedPixel (sortPaletteByLuminance palette) (Z.of_nat n) w x y d = Ok d' /\
    d' = setRGB d ((y * w + x) * 4) c.
Proof.
  intros Hchk Hn Hne Hb. unfold orderedPixel.
  destruct (bayer_cell n x y (lumAt d ((y * w + x) * 4)) Hchk Hn (lumAt_byte _ _ Hb))
    as (row & t & -> & -> & Hfin).
  assert (Hs : sortPaletteByLuminance palette <> []).
  { intros E. apply Hne. apply length_zero_iff_nil.
    now rewrite <- sortPaletteByLuminance_length, E. }
  unfold orderedNormalized in Hfin.
  destruct (palette_lookup_ok _ _ Hs Hfin) as (j & c & Hj & Eidx & Ec & Hc).
  cbv zeta. cbn [default from_option id]. rewrite Eidx, Ec.
  exists c, (setRGB d ((y * w + x) * 4) c). repeat split.
  now apply sortPaletteByLuminance_elem.
Qed.

Lemma quantizePixel_paints (palette : list rgb) (r g b : Z) :
  wfPalette palette -> palette <> [] ->
  exists c, c ∈ palette /\ quantizePixel palette r g b = Ok c.
Proof.
  intros Hwf Hne. unfold quantizePixel.
  destruct (findClosestColor_in (Z2f r) (Z2f g) (Z2f b) palette Hne)
    as ([[nr ng] nb] & Hc & ->).
  exists (nr, ng, nb). split; [exact Hc|].
  f_equal. now apply (wfPalette_clamp palette).
Qed.

(** Results of the four strategies. *)
Lemma floydSteinberg_palette (img : ImageData) (palette : list rgb) :
  wfImage img -> wfPalette palette -> palette <> [] ->
  exists out, floydSteinberg img palette = Ok out /\
    width out = width img /\ height out = height img /\ wfImage out /\
    paletteOnly palette (data out) (width img * height img).
Proof.
  intros [Hl Hb] Hwf Hne. unfold floydSteinberg.
  destruct (paintLoop_palette fst palette (width img) (height img)
              (fsPixel palette (width img) (height img))
              (data img, map (fun v => fround (Z2f v)) (data img)) Hwf Hl Hb) as ([d buf] & -> & Hl' & Hb' & Hp).
  - intros x y [d buf] _ _ _ _. now apply fsPixel_paints.
  - simpl in *. eexists. split; [reflexivity|]. simpl. repeat split; auto.
Qed.

Lemma atkinson_palette (img : ImageData) (palette : list rgb) :
  wfImage img -> wfPalette palette -> palette <> [] ->
  exists out, atkinson img palette = Ok out /\
    width out = width img /\ height out = height img /\ wfImage out /\
    paletteOnly palette (data out) (width img * height img).
Proof.
  intros [Hl Hb] Hwf Hne. unfold atkinson.
  destruct (paintLoop_palette fst palette (width img) (height img)
              (atkinsonPixel palette (width img) (height img))
              (data img, map (fun v => fround (Z2f v)) (data img)) Hwf Hl Hb) as ([d buf] & -> & Hl' & Hb' & Hp).
  - intros x y [d buf] _ _ _ _. now apply atkinsonPixel_paints.
  - simpl in *. eexists. split; [reflexivity|]. simpl. repeat split; auto.
Qed.

Lemma orderedDither_palette (img : ImageData) (palette : list rgb) (n : nat) :
  orderedCheck n = true -> 0 < n ->
  wfImage img -> wfPalette palette -> palette <> [] ->
  exists out, orderedDither img palette (Z.of_nat n) = Ok out /\
    width out = width img /\ height out = height img /\ wfImage out /\
    paletteOnly palette (data out) (width img * height img).
Proof.
  intros Hchk Hn [Hl Hb] Hwf Hne. unfold orderedDither.
  destruct (paintLoop_palette id palette (width img) (height img)
              (orderedPixel (sortPaletteByLuminance palette) (Z.of_nat n) (width img))
              (data img) Hwf Hl Hb) as (d & -> & Hl' & Hb' & Hp).
  - intros x y d _ _ _ Hd. unfold id.
    destruct (orderedPixel_paints palette n (width img) x y d Hchk Hn Hne Hd)
      as (c & d' & Hc & E & ->). eauto.
  - unfold id in *. eexists. split; [reflexivity|]. simpl. repeat split; auto.
Qed.

Lemma quantize_palette (img : ImageData) (palette : list rgb) :
  wfImage img -> wfPalette palette -> palette <> [] ->
  exists out, quantize img palette = Ok out /\
    width out = width img /\ height out = height img /\
    length (data out) = length (data img) /\
    paletteOnly palette (data out) (width img * height img).
Proof.
  intros [Hl Hb] Hwf Hne. unfold quantize.
  destruct (mapPixels_total (quantizePixel palette) (data img)) as (d' & E).
  - intros i r g b _ _. destruct (quantizePixel_paints palette r g b Hwf Hne) as (c & _ & ->).
    eauto.
  - rewrite E. eexists. split; [reflexivity|]. simpl.
    pose proof (mapPixels_length _ _ _ E) as Hl'.
    repeat split; auto.
    intros i Hi.
    destruct (pixelAt_defined (data img) i ltac:(lia)) as ([[r g] b] & Hp).
    destruct (mapPixels_pixelAt _ _ _ E i r g b ltac:(lia) Hp) as (c & Hq & Hc).
    destruct (quantizePixel_paints palette r g b Hwf Hne) as (c' & Hin & Hq').
    exists c. split; [congruence|exact Hc].
Qed.

End DitherFacts.

(** ** Nearest colour of a colour that is in the palette *)
Module NearestFacts.
Import LoopFacts NumberFacts PaletteFacts.

(** Cheap tests for the two classes of non-negative Numbers. *)
Lemma ltb_zero_posF (a : float) : (0 <? a)%float = true -> posF a = true.
Proof.
  unfold posF. rewrite FloatAxioms.ltb_spec.
  change (Prim2SF 0) with (S754_zero false).
  destruct (Prim2SF a) as [[]|[]| |[] ? ?]; simpl; try discriminate; reflexivity.
Qed.

Lemma eqb_zero_pzeroF (a : float) :
  (a =? 0)%float = true -> (1 / a <? 0)%float = false -> pzeroF a = true.
Proof.
  unfold pzeroF.
  rewrite FloatAxioms.eqb_spec, FloatAxioms.ltb_spec, FloatAxioms.div_spec.
  change (Prim2SF 0) with (S754_zero false).
  change (Prim2SF 1) with (S754_finite false 4503599627370496 (-52)).
  destruct (Prim2SF a) as [[]|[]| |[] ? ?]; simpl; try discriminate; reflexivity.
Qed.

Lemma pzero_not_pos (a : float) : pzeroF a = true -> posF a = false.
Proof. unfold pzeroF, posF. destruct (Prim2SF a) as [[]|[]| |[] ? ?]; simpl; congruence. Qed.

Lemma pos_not_pzero (a : float) : posF a = true -> pzeroF a = false.
Proof. unfold pzeroF, posF. destruct (Prim2SF a) as [[]|[]| |[] ? ?]; simpl; congruence. Qed.

(** The bytes with their Numbers. *)
Definition byteTable : list (Z * float) :=
  Eval vm_compute in map (fun z => (z, Z2f z)) DitherFacts.byteRange.

Lemma byteTable_In (z : Z) : isByte z -> In (z, Z2f z) byteTable.
Proof.
  intros Hz.
  change byteTable with (map (fun z => (z, Z2f z)) DitherFacts.byteRange).
  apply in_map_iff. exists z. split; [reflexivity|now apply DitherFacts.byteRange_In].
Qed.

(** One weighted term of [colorDistanceSq] on byte channels: [+0] when the
    two bytes are equal and positive otherwise, checked on all pairs. *)
Definition distTermCheck (weight : float) : bool :=
  forallb (fun c1 : Z * float => forallb (fun c2 : Z * float =>
    let d := (snd c1 - snd c2)%float in
    let a := (d * d * weight)%float in
    if (fst c1 =? fst c2)%Z then (a =? 0)%float && negb (1 / a <? 0)%float
    else (0 <? a)%float) byteTable) byteTable.

Lemma distTermCheck_weights :
  distTermCheck 0.3 && distTermCheck 0.59 && distTermCheck 0.11 = true.
Proof. vm_cast_no_check (eq_refl true). Qed.

Lemma distTerm_class (weight : float) (c1 c2 : Z) :
  distTermCheck weight = true -> isByte c1 -> isByte c2 ->
  let a := ((Z2f c1 - Z2f c2) * (Z2f c1 - Z2f c2) * weight)%float in
  pzeroF a = (c1 =? c2)%Z /\ posF a = negb (c1 =? c2)%Z.
Proof.
  intros Hchk H1 H2 a.
  unfold distTermCheck in Hchk.
  pose proof (proj1 (forallb_forall _ _) Hchk _ (byteTable_In c1 H1)) as Hrow.
  cbv beta in Hrow.
  pose proof (proj1 (forallb_forall _ _) Hrow _ (byteTable_In c2 H2)) as Hcell.
  cbv beta zeta in Hcell. cbn [fst snd] in Hcell. fold a in Hcell. clear Hchk Hrow.
  destruct (c1 =? c2)%Z; cbn [negb].
  - apply andb_prop in Hcell as [Hz Hs]. apply negb_true_iff in Hs.
    pose proof (eqb_zero_pzeroF a Hz Hs) as Hp.
    split; [exact Hp|now apply pzero_not_pos].
  - pose proof (ltb_zero_posF a Hcell) as Hp.
    split; [now apply pos_not_pzero|exact Hp].
Qed.

(** The distance between two byte colours is [+0] exactly when they are
    equal, and positive otherwise. *)
Lemma colorDistanceSq_class (r g b pr pg pb : Z) :
  isByte r -> isByte g -> isByte b -> isByte pr -> isByte pg -> isByte pb ->
  let dist := colorDistanceSq (Z2f r) (Z2f g) (Z2f b) (Z2f pr) (Z2f pg) (Z2f pb) in
  pzeroF dist = (r =? pr)%Z && (g =? pg)%Z && (b =? pb)%Z /\
  posF dist = negb ((r =? pr)%Z && (g =? pg)%Z && (b =? pb)%Z).
Proof.
  intros Hr Hg Hb Hpr Hpg Hpb. unfold colorDistanceSq. cbv zeta.
  pose proof distTermCheck_weights as Hw.
  apply andb_prop in Hw as [Hw H3]. apply andb_prop in Hw as [H1 H2].
  destruct (distTerm_class _ r pr H1 Hr Hpr) as [Zr Pr].
  destruct (distTerm_class _ g pg H2 Hg Hpg) as [Zg Pg].
  destruct (distTerm_class _ b pb H3 Hb Hpb) as [Zb Pb].
  cbv zeta in Zr, Pr, Zg, Pg, Zb, Pb. clear H1 H2 H3.
  set (tr := ((Z2f r - Z2f pr) * (Z2f r - Z2f pr) * 0.3)%float) in *.
  set (tg := ((Z2f g - Z2f pg) * (Z2f g - Z2f pg) * 0.59)%float) in *.
  set (tb := ((Z2f b - Z2f pb) * (Z2f b - Z2f pb) * 0.11)%float) in *.
  assert (Nr : pzeroF tr || posF tr = true) by (rewrite Zr, Pr; now destruct (r =? pr)%Z).
  assert (Ng : pzeroF tg || posF tg = true) by (rewrite Zg, Pg; now destruct (g =? pg)%Z).
  assert (Nb : pzeroF tb || posF tb = true) by (rewrite Zb, Pb; now destruct (b =? pb)%Z).
  destruct (add_pos tr tg Nr Ng) as [P1 Z1].
  assert (N1 : pzeroF (tr + tg) || posF (tr + tg) = true)
    by (rewrite P1, Z1; now destruct (posF tr || posF tg)).
  destruct (add_pos (tr + tg) tb N1 Nb) as [P2 Z2].
  rewrite Z2, P2, P1, Pr, Pg, Pb.
  destruct (r =? pr)%Z, (g =? pg)%Z, (b =? pb)%Z; auto.
Qed.

Lemma infinity_pos : posF infinity = true.
Proof. reflexivity. Qed.

Definition byteColor (c : rgb) : Prop :=
  let '(r, g, b) := c in isByte r /\ isByte g /\ isByte b.

Section Scan.
Variables r g b : Z.
Hypothesis Hr : isByte r.
Hypothesis Hg : isByte g.
Hypothesis Hb : isByte b.

(** Once the colour itself is held at distance [+0], nothing replaces it. *)
Lemma scanPalette_keeps (palette : list rgb) (minDist : float) :
  Forall byteColor palette -> pzeroF minDist = true ->
  scanPalette (Z2f r) (Z2f g) (Z2f b) palette minDist (Some (r, g, b)) = Some (r, g, b).
Proof.
  intros Hpal Hz. induction Hpal as [|[[pr pg] pb] rest (Hpr & Hpg & Hpb) _ IH];
    cbn [scanPalette]; [reflexivity|].
  destruct (colorDistanceSq_class r g b pr pg pb Hr Hg Hb Hpr Hpg Hpb) as [Zd Pd].
  cbv zeta in Zd, Pd.
  rewrite ltb_nonneg_pzero; [exact IH| |exact Hz].
  rewrite Zd, Pd. now destruct (_ && _).
Qed.

(** While the running minimum is positive, the scan ends on the colour
    itself as soon as the palette contains it. *)
Lemma scanPalette_finds (palette : list rgb) :
  Forall byteColor palette -> (r, g, b) ∈ palette ->
  forall minDist closest, posF minDist = true ->
  scanPalette (Z2f r) (Z2f g) (Z2f b) palette minDist closest = Some (r, g, b).
Proof.
  intros Hpal. induction Hpal as [|[[pr pg] pb] rest (Hpr & Hpg & Hpb) Hrest IH];
    intros Hin minDist closest Hpos; [now apply elem_of_nil in Hin|].
  cbn [scanPalette].
  destruct (colorDistanceSq_class r g b pr pg pb Hr Hg Hb Hpr Hpg Hpb) as [Zd Pd].
  cbv zeta in Zd, Pd.
  set (dist := colorDistanceSq (Z2f r) (Z2f g) (Z2f b) (Z2f pr) (Z2f pg) (Z2f pb)) in *.
  destruct ((r =? pr)%Z && (g =? pg)%Z && (b =? pb)%Z) eqn:E.
  - apply andb_prop in E as [E E3]. apply andb_prop in E as [E1 E2].
    apply Z.eqb_eq in E1, E2, E3. subst pr pg pb.
    rewrite ltb_pzero_pos by assumption.
    now apply scanPalette_keeps.
  - assert (Hin' : (r, g, b) ∈ rest).
    { apply elem_of_cons in Hin as [Heq|Hin']; [|exact Hin'].
      inversion Heq; subst. now rewrite !Z.eqb_refl in E. }
    destruct (dist <? minDist)%float; now apply IH.
Qed.

Lemma findClosestColor_self (palette : list rgb) :
  Forall byteColor palette -> (r, g, b) ∈ palette ->
  findClosestColor (Z2f r) (Z2f g) (Z2f b) palette = Some (r, g, b).
Proof.
  intros Hpal Hin. unfold findClosestColor.
  now apply scanPalette_finds; [| |apply infinity_pos].
Qed.

End Scan.

Lemma quantizePixel_self (palette : list rgb) (r g b : Z) :
  wfPalette palette -> (r, g, b) ∈ palette ->
  quantizePixel palette r g b = Ok (r, g, b).
Proof.
  intros Hwf Hin. unfold quantizePixel.
  pose proof Hwf as Hwf'. unfold wfPalette in Hwf'. rewrite Forall_forall in Hwf'.
  destruct (Hwf' _ Hin) as (Hr & Hg & Hb).
  rewrite (findClosestColor_self r g b Hr Hg Hb palette Hwf Hin).
  now rewrite !clampByte_id.
Qed.

Lemma quantize_fixpoint (img : ImageData) (palette : list rgb) :
  wfImage img -> wfPalette palette ->
  paletteOnly palette (data img) (width img * height img) ->
  quantize img palette = Ok img.
Proof.
  intros [Hl _] Hwf Hp. unfold quantize.
  rewrite mapPixels_id; [now destruct img|].
  intros i r g b Hi Hpx.
  destruct (Hp i ltac:(lia)) as (c & Hc & Hpx').
  rewrite Hpx in Hpx'. inversion Hpx'; subst c.
  now apply (quantizePixel_self palette).
Qed.

End NearestFacts.

(** ** Facts about the blend-mode pixel function *)
Module BlendFacts.
Import LoopFacts NumberFacts.

Lemma toUint8Clamp_byte (x : float) : isByte (toUint8Clamp x).
Proof.
  unfold isByte, toUint8Clamp.
  destruct (Prim2SF x) as [s|[]| |[] m e]; try lia.
  destruct (0 <=? e)%Z eqn:E.
  - apply Z.leb_le in E.
    pose proof (proj2 (Z.shiftl_nonneg (Zpos m) e) ltac:(lia)). lia.
  - pose proof (proj2 (Z.shiftr_nonneg (Zpos m) (- e)) ltac:(lia)).
    repeat match goal with |- context [if ?c then _ else _] => destruct c end; lia.
Qed.

(** A cheap test on a Number [v] that makes [Math.round v] a byte: [v]
    lies in [0, 255.5) and is not [-0]. *)
Definition roundsToByte (v : float) : bool :=
  (0 <=? v)%float && (v <? 255.5)%float && negb (1 / v <? 0)%float.

Lemma roundHalfUp_byte (m : positive) (e : Z) :
  (e < -45 /\ Zpos m < 2 ^ 53 \/ e = -45 /\ Zpos m < 8989607068696576)%Z ->
  isByte (roundHalfUp false m e).
Proof.
  intros H. unfold roundHalfUp, isByte.
  assert (Hk : (45 <= - e)%Z) by lia.
  set (k := (- e)%Z) in *.
  rewrite Z.shiftr_div_pow2, Z.land_ones, Z.shiftl_mul_pow2, Z.mul_1_l by lia.
  assert (Hp : (0 < 2 ^ k)%Z) by (apply Z.pow_pos_nonneg; lia).
  pose proof (Z.div_mod (Zpos m) (2 ^ k) ltac:(lia)) as Hdm.
  pose proof (Z.mod_pos_bound (Zpos m) (2 ^ k) Hp) as Hr.
  assert (Hq : (0 <= Zpos m / 2 ^ k)%Z) by (apply Z.div_pos; lia).
  assert (Hhalf : (2 ^ k = 2 * 2 ^ (k - 1))%Z).
  { rewrite <- Z.pow_succ_r by lia. f_equal. lia. }
  destruct H as [[He Hm]|[He Hm]].
  - assert (2 ^ 46 <= 2 ^ k)%Z by (apply Z.pow_le_mono_r; lia).
    assert (Zpos m / 2 ^ k < 128)%Z.
    { apply Z.div_lt_upper_bound; [lia|].
      change (2 ^ 53)%Z with (2 ^ 46 * 128)%Z in Hm. nia. }
    destruct (_ <=? _)%Z; lia.
  - assert (Ek : k = 45%Z) by lia. rewrite Ek in *.
    change (2 ^ 45)%Z with 35184372088832%Z in *.
    change (2 ^ (45 - 1))%Z with 17592186044416%Z in *.
    destruct (Z.leb_spec 17592186044416 (Zpos m mod 35184372088832)); lia.
Qed.

Lemma Math_round_byte (v : float) :
  roundsToByte v = true -> exists z, isByte z /\ Math_round v = Z2f z.
Proof.
  unfold roundsToByte. intros H.
  apply andb_prop in H as [H Hs]. apply andb_prop in H as [H0 H1].
  apply negb_true_iff in Hs.
  rewrite FloatAxioms.leb_spec in H0. rewrite FloatAxioms.ltb_spec in H1.
  rewrite FloatAxioms.ltb_spec, FloatAxioms.div_spec in Hs.
  change (Prim2SF 0) with (S754_zero false) in *.
  change (Prim2SF 1) with (S754_finite false 4503599627370496 (-52)) in *.
  change (Prim2SF 255.5) with (S754_finite false 8989607068696576 (-45)) in *.
  pose proof (Prim2SF_valid v) as Hv.
  unfold Math_round.
  destruct (Prim2SF v) as [[]|[]| |[] m e] eqn:E; try discriminate.
  - exists 0%Z. split; [unfold isByte; lia|].
    rewrite <- (SF2Prim_Prim2SF v), E. reflexivity.
  - simpl in Hv. apply bounded_emin in Hv as [_ Hd].
    assert (Hm : (Zpos m < 2 ^ 53)%Z).
    { pose proof (FloatFacts.dg_upper m).
      assert (2 ^ Zpos (digits2_pos m) <= 2 ^ 53)%Z by (apply Z.pow_le_mono_r; lia). lia. }
    unfold SFltb, SFcompare in H1.
    assert (Hc : (e < -45 /\ Zpos m < 2 ^ 53 \/ e = -45 /\ Zpos m < 8989607068696576)%Z).
    { destruct (Z.compare_spec e (-45)) as [He|He|He]; try discriminate; [right|left; lia].
      split; [exact He|].
      destruct (Pos.compare_cont Eq m 8989607068696576) eqn:Ec; try discriminate.
      apply Pos2Z.pos_lt_pos. exact Ec. }
    replace (0 <=? e)%Z with false by (symmetry; apply Z.leb_gt; lia).
    pose proof (roundHalfUp_byte m e Hc) as Hz.
    exists (roundHalfUp false m e). split; [exact Hz|].
    destruct (Z.eqb_spec (roundHalfUp false m e) 0) as [->|]; reflexivity.
Qed.

(** The normalized bytes [v / 255]. *)
Definition normTable : list float :=
  Eval vm_compute in map (fun z => (Z2f z / 255)%float) DitherFacts.byteRange.

Lemma normTable_In (z : Z) : isByte z -> In (Z2f z / 255)%float normTable.
Proof.
  intros Hz.
  change normTable with (map (fun z => (Z2f z / 255)%float) DitherFacts.byteRange).
  apply in_map_iff. exists z. split; [reflexivity|now apply DitherFacts.byteRange_In].
Qed.

(** [blendModeCheck mode]: for all normalized byte inputs, the normalized
    result of the mode lies in [0,1] and its rescaled value rounds to a
    byte. *)
Definition blendModeCheck (mode : string) : bool :=
  forallb (fun b => forallb (fun l =>
    let n := blendNormalized mode b l in
    (0 <=? n)%float && (n <=? 1)%float && roundsToByte (n * 255)%float)
    normTable) normTable.

Lemma blendModeCheck_all : forallb blendModeCheck BLEND_MODES = true.
Proof. vm_cast_no_check (eq_refl true). Qed.

Lemma blendModeCheck_sound (mode : string) (base blend : Z) :
  blendModeCheck mode = true -> isByte base -> isByte blend ->
  let n := blendNormalized mode (Z2f base / 255) (Z2f blend / 255) in
  (0 <=? n)%float = true /\ (n <=? 1)%float = true /\
  exists z, isByte z /\ Math_round (n * 255)%float = Z2f z.
Proof.
  intros Hchk Hb Hl n. unfold blendModeCheck in Hchk.
  pose proof (proj1 (forallb_forall _ _) Hchk _ (normTable_In _ Hb)) as Hrow.
  cbv beta in Hrow.
  pose proof (proj1 (forallb_forall _ _) Hrow _ (normTable_In _ Hl)) as Hcell.
  cbv beta zeta in Hcell. fold n in Hcell. clear Hchk Hrow.
  apply andb_prop in Hcell as [Hcell Hr]. apply andb_prop in Hcell as [H0 H1].
  repeat split; auto. now apply Math_round_byte.
Qed.

(** Every mode name behaves as one of the twelve listed names, the names
    outside the list as ["normal"]. *)
Ltac listed mode name :=
  let E := fresh "E" in
  destruct (String.eqb_spec mode name) as [E|E];
  [exists name; split; [simpl; tauto|intros; rewrite E; reflexivity]|].

Lemma blendNormalized_listed (mode : string) :
  exists m, In m BLEND_MODES /\
    forall b l, blendNormalized mode b l = blendNormalized m b l.
Proof.
  listed mode "multiply"%string. listed mode "screen"%string.
  listed mode "overlay"%string. listed mode "soft-light"%string.
  listed mode "hard-light"%string. listed mode "color-dodge"%string.
  listed mode "color-burn"%string. listed mode "difference"%string.
  listed mode "exclusion"%string. listed mode "lighten"%string.
  listed mode "darken"%string.
  exists "normal"%string. split; [simpl; tauto|].
  intros b l. unfold blendNormalized.
  repeat match goal with
         | H : mode <> ?name |- context [String.eqb mode ?name] =>
             rewrite (proj2 (String.eqb_neq mode name) H)
         end.
  reflexivity.
Qed.

Lemma blendPixel_byte (base blend : Z) (mode : string) :
  isByte base -> isByte blend ->
  let n := blendNormalized mode (Z2f base / 255) (Z2f blend / 255) in
  (0 <=? n)%float = true /\ (n <=? 1)%float = true /\
  exists z, isByte z /\ blendPixel (Z2f base) (Z2f blend) mode = Z2f z.
Proof.
  intros Hb Hl. unfold blendPixel. cbv zeta.
  destruct (blendNormalized_listed mode) as (m & Hm & ->).
  pose proof (proj1 (forallb_forall _ _) blendModeCheck_all m Hm) as Hchk.
  exact (blendModeCheck_sound m base blend Hchk Hb Hl).
Qed.

(** In normal mode a byte overlay comes back unchanged. *)
Definition normalCheck : bool :=
  forallb (fun c : Z * float =>
    PrimFloat.Leibniz.eqb (Math_round (snd c / 255 * 255)%float) (snd c)) NearestFacts.byteTable.

Lemma normalCheck_ok : normalCheck = true.
Proof. vm_cast_no_check (eq_refl true). Qed.

Lemma blendPixel_normal (base : float) (blend : Z) :
  isByte blend -> blendPixel base (Z2f blend) "normal" = Z2f blend.
Proof.
  intros Hl.
  pose proof (proj1 (forallb_forall _ _) normalCheck_ok _ (NearestFacts.byteTable_In _ Hl)) as H.
  cbv beta in H. cbn [snd] in H. now apply FloatAxioms.Leibniz.eqb_spec in H.
Qed.

End BlendFacts.

(** ** [Math.round] from comparisons *)
Module RoundFacts.
Import FloatFacts NumberFacts RangeFacts.
Local Open Scope Z_scope.

(** The order of canonical positive Numbers is the order of their
    magnitudes. *)
Lemma SFltb_magnitude (m1 m2 : positive) (e1 e2 : Z) :
  bounded prec emax m1 e1 = true -> bounded prec emax m2 e2 = true ->
  SFltb (S754_finite false m1 e1) (S754_finite false m2 e2) = true ->
  Zpos m1 * sc e1 < Zpos m2 * sc e2.
Proof.
  intros B1 B2 H.
  destruct (Z_lt_le_dec (Zpos m1 * sc e1) (Zpos m2 * sc e2)) as [|Hle]; [assumption|].
  exfalso. unfold SFltb, SFcompare in H.
  destruct (canonical_le m2 m1 e2 e1 B2 B1 Hle) as [He|[He Hm]].
  - rewrite (proj2 (Z.compare_gt_iff e1 e2)) in H by lia. discriminate.
  - subst e2. rewrite Z.compare_refl in H.
    change (Pos.compare_cont Eq m1 m2) with (Pos.compare m1 m2) in H.
    destruct (Pos.compare_spec m1 m2); try discriminate. lia.
Qed.

Lemma SFleb_magnitude (m1 m2 : positive) (e1 e2 : Z) :
  bounded prec emax m1 e1 = true -> bounded prec emax m2 e2 = true ->
  SFleb (S754_finite false m1 e1) (S754_finite false m2 e2) = true ->
  Zpos m1 * sc e1 <= Zpos m2 * sc e2.
Proof.
  intros B1 B2 H.
  destruct (Z_le_gt_dec (Zpos m1 * sc e1) (Zpos m2 * sc e2)) as [|Hgt]; [assumption|].
  exfalso. unfold SFleb, SFcompare in H.
  destruct (canonical_lt m2 m1 e2 e1 B2 B1 ltac:(lia)) as [He|[He Hm]].
  - rewrite (proj2 (Z.compare_gt_iff e1 e2)) in H by lia. discriminate.
  - subst e2. rewrite Z.compare_refl in H.
    change (Pos.compare_cont Eq m1 m2) with (Pos.compare m1 m2) in H.
    destruct (Pos.compare_spec m1 m2); try discriminate; lia.
Qed.

(** The two Numbers [z - 0.5] and [z + 0.5] of a byte [z], with their
    magnitudes. *)
Definition halfCell (z : Z) : bool :=
  match Prim2SF (Z2f z + 0.5)%float with
  | S754_finite false mh eh =>
      (Zpos mh * 2 ^ (eh + 60) =? (2 * z + 1) * 2 ^ 59) && (-60 <=? eh)
  | _ => false
  end &&
  ((z =? 0) ||
   match Prim2SF (Z2f z - 0.5)%float with
   | S754_finite false ml el =>
       (Zpos ml * 2 ^ (el + 60) =? (2 * z - 1) * 2 ^ 59) && (-60 <=? el)
   | _ => false
   end).

Lemma halfCheck_ok : forallb halfCell DitherFacts.byteRange = true.
Proof. vm_cast_no_check (eq_refl true). Qed.

Lemma sc_60 (e : Z) : -60 <= e -> sc e = 2 ^ (e + 60) * 2 ^ 2140.
Proof.
  intros He. unfold sc. rewrite <- Z.pow_add_r by lia. f_equal. lia.
Qed.

Lemma half_facts (z : Z) :
  isByte z ->
  (exists mh eh, Prim2SF (Z2f z + 0.5)%float = S754_finite false mh eh /\
     Zpos mh * sc eh = (2 * z + 1) * 2 ^ 2199) /\
  (z = 0 \/
   exists ml el, Prim2SF (Z2f z - 0.5)%float = S754_finite false ml el /\
     Zpos ml * sc el = (2 * z - 1) * 2 ^ 2199).
Proof.
  intros Hz.
  pose proof (proj1 (forallb_forall _ _) halfCheck_ok z (DitherFacts.byteRange_In z Hz)) as H.
  unfold halfCell in H. apply andb_prop in H as [Hh Hl].
  assert (E59 : 2 ^ 2199 = 2 ^ 59 * 2 ^ 2140) by (rewrite <- Z.pow_add_r by lia; reflexivity).
  split.
  - destruct (Prim2SF (Z2f z + 0.5)%float) as [| | |[] mh eh]; try discriminate.
    apply andb_prop in Hh as [Hh He]. apply Z.eqb_eq in Hh. apply Z.leb_le in He.
    exists mh, eh. split; [reflexivity|].
    rewrite (sc_60 eh He), E59, Z.mul_assoc, Hh. ring.
  - apply orb_prop in Hl as [Hl|Hl]; [left; now apply Z.eqb_eq|right].
    destruct (Prim2SF (Z2f z - 0.5)%float) as [| | |[] ml el]; try discriminate.
    apply andb_prop in Hl as [Hl He]. apply Z.eqb_eq in Hl. apply Z.leb_le in He.
    exists ml, el. split; [reflexivity|].
    rewrite (sc_60 el He), E59, Z.mul_assoc, Hl. ring.
Qed.

(** Rounding half up between two half-integers. *)
Lemma roundHalfUp_between (m : positive) (e r : Z) :
  -1074 <= e < 0 ->
  (2 * r - 1) * 2 ^ 2199 <= Zpos m * sc e < (2 * r + 1) * 2 ^ 2199 ->
  roundHalfUp false m e = r.
Proof.
  intros He H. unfold roundHalfUp.
  set (k := - e). assert (Hk : 1 <= k <= 1074) by (unfold k; lia).
  rewrite Z.shiftr_div_pow2, Z.land_ones, Z.shiftl_mul_pow2, Z.mul_1_l by lia.
  assert (Hhalf : 0 < 2 ^ (k - 1)) by (apply Z.pow_pos_nonneg; lia).
  assert (E2 : 2 ^ k = 2 * 2 ^ (k - 1)).
  { rewrite <- Z.pow_succ_r by lia. f_equal. lia. }
  set (P := 2 ^ (2200 - k)).
  assert (HP : 0 < P) by (apply Z.pow_pos_nonneg; lia).
  assert (Esc : sc e = P) by (unfold sc, P, k; f_equal; lia).
  assert (E99 : 2 ^ 2199 = 2 ^ (k - 1) * P).
  { unfold P. rewrite <- Z.pow_add_r by lia. f_equal. lia. }
  rewrite Esc, E99 in H.
  set (half := 2 ^ (k - 1)) in *.
  assert (Hm : (2 * r - 1) * half <= Zpos m < (2 * r + 1) * half).
  { split.
    - apply Z.mul_le_mono_pos_r with P; [exact HP|]. lia.
    - apply Z.mul_lt_mono_pos_r with P; [exact HP|]. lia. }
  rewrite E2.
  pose proof (Z.div_mod (Zpos m) (2 * half) ltac:(lia)) as Hdm.
  pose proof (Z.mod_pos_bound (Zpos m) (2 * half) ltac:(lia)) as Hr.
  set (q := Zpos m / (2 * half)) in *. set (rem := Zpos m mod (2 * half)) in *.
  destruct (Z.leb_spec half rem) as [Hge|Hlt]; nia.
Qed.

(** A Number that lies in [r - 0.5, r + 0.5) for a byte [r] is rounded to
    [r]. *)
Lemma Math_round_between (v : float) (r : Z) :
  isByte r -> BlendFacts.roundsToByte v = true ->
  (Z2f r - 0.5 <=? v)%float = true -> (v <? Z2f r + 0.5)%float = true ->
  Math_round v = Z2f r.
Proof.
  intros Hr Hv Hlo Hhi.
  destruct (half_facts r Hr) as ((mh & eh & Eh & Hmh) & Hl).
  unfold BlendFacts.roundsToByte in Hv.
  apply andb_prop in Hv as [Hv Hs]. apply andb_prop in Hv as [H0 _].
  apply negb_true_iff in Hs.
  rewrite FloatAxioms.leb_spec in H0, Hlo. rewrite FloatAxioms.ltb_spec in Hhi.
  rewrite FloatAxioms.ltb_spec, FloatAxioms.div_spec in Hs.
  change (Prim2SF 0) with (S754_zero false) in *.
  change (Prim2SF 1) with (S754_finite false 4503599627370496 (-52)) in *.
  rewrite Eh in Hhi.
  pose proof (Prim2SF_valid v) as Hval.
  pose proof (Prim2SF_valid (Z2f r + 0.5)%float) as Hvh. rewrite Eh in Hvh.
  pose proof (Prim2SF_valid (Z2f r - 0.5)%float) as Hvl.
  unfold Math_round.
  destruct (Prim2SF v) as [[]|[]| |[] m e] eqn:E; try discriminate.
  - (* +0 *)
    destruct Hl as [->|(ml & el & El & _)].
    + rewrite <- (SF2Prim_Prim2SF v), E. reflexivity.
    + rewrite El in Hlo. discriminate.
  - (* a positive Number *)
    simpl in Hval, Hvh.
    pose proof (SFltb_magnitude m mh e eh Hval Hvh Hhi) as Hup. rewrite Hmh in Hup.
    assert (Hlow : (2 * r - 1) * 2 ^ 2199 <= Zpos m * sc e).
    { destruct Hl as [->|(ml & el & El & Hml)].
      - assert (0 < sc e) by (apply sc_pos; apply bounded_emin in Hval; lia).
        assert (0 < 2 ^ 2199) by (apply Z.pow_pos_nonneg; lia). nia.
      - rewrite El in Hlo, Hvl. simpl in Hvl. rewrite <- Hml.
        now apply SFleb_magnitude. }
    destruct (bounded_canonical m e Hval) as (He & Hd & Hd53).
    destruct (Z.leb_spec 0 e) as [Hpos|Hneg].
    + exfalso.
      assert (Hm : 2 ^ 52 <= Zpos m).
      { pose proof (dg_lower m) as Hdl. rewrite Hd53 in Hdl by lia. exact Hdl. }
      assert (Hsc : 2 ^ 2200 <= sc e).
      { unfold sc. apply Z.pow_le_mono_r; lia. }
      assert (E00 : 2 ^ 2200 = 2 * 2 ^ 2199) by (rewrite <- Z.pow_succ_r by lia; reflexivity).
      assert (0 < 2 ^ 2199) by (apply Z.pow_pos_nonneg; lia).
      change (2 ^ 52) with 4503599627370496 in Hm.
      destruct Hr as [Hr0 Hr1]. nia.
    + rewrite (roundHalfUp_between m e r) by lia.
      destruct (Z.eqb_spec r 0) as [->|_]; reflexivity.
Qed.

End RoundFacts.

(** ** The blend formulas on exact numbers *)
Module BlendExact.
Import Stdlib.Reals.Reals Stdlib.micromega.Lra Stdlib.micromega.Lia.
Local Open Scope R_scope.

(** The twelve formulas on real numbers of [0,1]: [b] is the normalized
    base, [l] the normalized overlay. *)
Definition blendFormula (mode : string) (b l : R) : R :=
  if (mode =? "multiply")%string then b * l
  else if (mode =? "screen")%string then 1 - (1 - b) * (1 - l)
  else if (mode =? "overlay")%string then
    (if Rlt_dec b (1 / 2) then 2 * b * l else 1 - 2 * (1 - b) * (1 - l))
  else if (mode =? "soft-light")%string then
    (if Rlt_dec l (1 / 2)
     then b - (1 - 2 * l) * b * (1 - b)
     else b + (2 * l - 1) * (sqrt b - b))
  else if (mode =? "hard-light")%string then
    (if Rlt_dec l (1 / 2) then 2 * b * l else 1 - 2 * (1 - b) * (1 - l))
  else if (mode =? "color-dodge")%string then
    (if Req_dec_T l 1 then 1 else Rmin 1 (b / (1 - l)))
  else if (mode =? "color-burn")%string then
    (if Req_dec_T l 0 then 0 else Rmax 0 (1 - (1 - b) / l))
  else if (mode =? "difference")%string then Rabs (b - l)
  else if (mode =? "exclusion")%string then b + l - 2 * b * l
  else if (mode =? "lighten")%string then Rmax b l
  else if (mode =? "darken")%string then Rmin b l
  else l.

(** The exact value that [blendPixel] rounds: the formula of the mode on
    the normalized bytes, rescaled to [0,255]. *)
Definition blendExact (mode : string) (base blend : Z) : R :=
  blendFormula mode (IZR base / 255) (IZR blend / 255) * 255.

(** [r] is an integer nearest to [x]. *)
Definition nearestInteger (r : Z) (x : R) : Prop := Rabs (IZR r - x) <= 1 / 2.

(** The exact value as a quotient of integers, for every case but
    soft-light with an overlay of 128 or more (a square root). *)
Definition ratio (mode : string) (a b : Z) : Z * Z :=
  (if (mode =? "multiply")%string then (a * b, 255)
   else if (mode =? "screen")%string then (65025 - (255 - a) * (255 - b), 255)
   else if (mode =? "overlay")%string then
     (if a <=? 127 then (2 * a * b, 255) else (65025 - 2 * (255 - a) * (255 - b), 255))
   else if (mode =? "soft-light")%string then
     (65025 * a - (255 - 2 * b) * a * (255 - a), 65025)
   else if (mode =? "hard-light")%string then
     (if b <=? 127 then (2 * a * b, 255) else (65025 - 2 * (255 - a) * (255 - b), 255))
   else if (mode =? "color-dodge")%string then
     (if b =? 255 then (255, 1) else if 255 - b <=? a then (255, 1) else (255 * a, 255 - b))
   else if (mode =? "color-burn")%string then
     (if b =? 0 then (0, 1) else if b <=? 255 - a then (0, 1) else (255 * (a + b - 255), b))
   else if (mode =? "difference")%string then (Z.abs (a - b), 1)
   else if (mode =? "exclusion")%string then (255 * (a + b) - 2 * a * b, 255)
   else if (mode =? "lighten")%string then (Z.max a b, 1)
   else if (mode =? "darken")%string then (Z.min a b, 1)
   else (b, 1))%Z.

(** [r] is within 1/2 of [n / d]. *)
Definition nearRatio (r : Z) (p : Z * Z) : bool :=
  (Z.abs (2 * r * snd p - 2 * fst p) <=? snd p)%Z.

(** [r] is within 1/2 of the soft-light value for an overlay [b] of 128 or
    more, [a + c * (sqrt (255 a) - a) / 255] with [c = 2 b - 255]: the
    bounds on the square root are compared after squaring. *)
Definition nearSoft (a b r : Z) : bool :=
  (let c := 2 * b - 255 in
   let k := 2 * (255 * (r - a) + c * a) in
   let m := 1020 * c * c * a in
   ((k - 255 <=? 0) || ((k - 255) * (k - 255) <=? m)) &&
   (0 <=? k + 255) && (m <=? (k + 255) * (k + 255)))%Z.

Definition nearExact (mode : string) (a b r : Z) : bool :=
  if (mode =? "soft-light")%string && (128 <=? b)%Z then nearSoft a b r
  else nearRatio r (ratio mode a b).


Lemma nearest_ratio (r n d : Z) :
  (0 < d)%Z -> nearRatio r (n, d) = true -> nearestInteger r (IZR n / IZR d).
Proof.
  unfold nearRatio, nearestInteger. cbn [fst snd]. intros Hd H.
  apply Z.leb_le in H.
  assert (Hd' : 0 < IZR d) by now apply IZR_lt.
  apply Z.abs_le in H. destruct H as [H1 H2].
  apply IZR_le in H1, H2.
  rewrite ?minus_IZR, ?mult_IZR in H1, H2. rewrite opp_IZR in H1.
  apply Rabs_le.
  assert (E : IZR r - IZR n / IZR d = (IZR r * IZR d - IZR n) / IZR d) by (field; lra).
  rewrite E. split.
  - apply Rmult_le_reg_r with (IZR d); [lra|].
    unfold Rdiv. rewrite Rmult_assoc, Rinv_l by lra. lra.
  - apply Rmult_le_reg_r with (IZR d); [lra|].
    unfold Rdiv. rewrite Rmult_assoc, Rinv_l by lra. lra.
Qed.

(** The bounds of a byte, on the reals. *)
Lemma byte_bounds (z : Z) : isByte z -> 0 <= IZR z <= 255.
Proof. intros [H0 H1]. split; [now apply (IZR_le 0)|now apply (IZR_le z 255)]. Qed.

Ltac bytes a b Ha Hb :=
  pose proof (byte_bounds a Ha); pose proof (byte_bounds b Hb).

Ltac push :=
  repeat first [rewrite plus_IZR|rewrite minus_IZR|rewrite mult_IZR|rewrite opp_IZR].

Lemma ratio_multiply (a b : Z) :
  blendExact "multiply" a b = IZR (a * b) / IZR 255.
Proof. unfold blendExact, blendFormula. cbn [String.eqb Ascii.eqb Bool.eqb]. push. field. Qed.

Lemma ratio_screen (a b : Z) :
  blendExact "screen" a b = IZR (65025 - (255 - a) * (255 - b)) / IZR 255.
Proof. unfold blendExact, blendFormula. cbn [String.eqb Ascii.eqb Bool.eqb]. push. field. Qed.

Lemma ratio_exclusion (a b : Z) :
  blendExact "exclusion" a b = IZR (255 * (a + b) - 2 * a * b) / IZR 255.
Proof. unfold blendExact, blendFormula. cbn [String.eqb Ascii.eqb Bool.eqb]. push. field. Qed.

Lemma ratio_normal (a b : Z) : blendExact "normal" a b = IZR b / IZR 1.
Proof. unfold blendExact, blendFormula. cbn [String.eqb Ascii.eqb Bool.eqb]. field. Qed.

(** The threshold 1/2 on a normalized byte. *)
Lemma half_lt (z : Z) : (z <= 127)%Z -> IZR z / 255 < 1 / 2.
Proof. intros H. apply IZR_le in H. lra. Qed.

Lemma half_ge (z : Z) : (127 < z)%Z -> ~ IZR z / 255 < 1 / 2.
Proof. intros H. assert (128 <= z)%Z by lia. apply (IZR_le 128) in H0. lra. Qed.

Lemma ratio_low (a b : Z) (x y : R) :
  x = IZR a / 255 -> y = IZR b / 255 ->
  2 * x * y * 255 = IZR (2 * a * b) / IZR 255.
Proof. intros -> ->. push. field. Qed.

Lemma ratio_high (a b : Z) (x y : R) :
  x = IZR a / 255 -> y = IZR b / 255 ->
  (1 - 2 * (1 - x) * (1 - y)) * 255 = IZR (65025 - 2 * (255 - a) * (255 - b)) / IZR 255.
Proof. intros -> ->. push. field. Qed.

Lemma ratio_overlay (a b : Z) :
  blendExact "overlay" a b = IZR (fst (ratio "overlay" a b)) / IZR (snd (ratio "overlay" a b)).
Proof.
  unfold blendExact, blendFormula, ratio. cbn [String.eqb Ascii.eqb Bool.eqb].
  destruct (Z.leb_spec a 127) as [H|H]; cbn [fst snd].
  - destruct (Rlt_dec _ _) as [_|Hn]; [|contradiction Hn; now apply half_lt].
    now apply ratio_low.
  - destruct (Rlt_dec _ _) as [Hl|_]; [now apply half_ge in Hl|].
    now apply ratio_high.
Qed.

Lemma ratio_hard_light (a b : Z) :
  blendExact "hard-light" a b
  = IZR (fst (ratio "hard-light" a b)) / IZR (snd (ratio "hard-light" a b)).
Proof.
  unfold blendExact, blendFormula, ratio. cbn [String.eqb Ascii.eqb Bool.eqb].
  destruct (Z.leb_spec b 127) as [H|H]; cbn [fst snd].
  - destruct (Rlt_dec _ _) as [_|Hn]; [|contradiction Hn; now apply half_lt].
    now apply ratio_low.
  - destruct (Rlt_dec _ _) as [Hl|_]; [now apply half_ge in Hl|].
    now apply ratio_high.
Qed.

Lemma ratio_soft_light (a b : Z) :
  (b <= 127)%Z ->
  blendExact "soft-light" a b
  = IZR (65025 * a - (255 - 2 * b) * a * (255 - a)) / IZR 65025.
Proof.
  intros H. unfold blendExact, blendFormula. cbn [String.eqb Ascii.eqb Bool.eqb].
  destruct (Rlt_dec _ _) as [_|Hn]; [|contradiction Hn; now apply half_lt].
  push. field.
Qed.

Lemma ratio_difference (a b : Z) :
  blendExact "difference" a b = IZR (Z.abs (a - b)) / IZR 1.
Proof.
  unfold blendExact, blendFormula. cbn [String.eqb Ascii.eqb Bool.eqb].
  rewrite abs_IZR, minus_IZR.
  replace (IZR a / 255 - IZR b / 255) with ((IZR a - IZR b) * / 255) by field.
  rewrite Rabs_mult, (Rabs_pos_eq (/ 255)) by lra. field.
Qed.

Lemma ratio_lighten (a b : Z) :
  blendExact "lighten" a b = IZR (Z.max a b) / IZR 1.
Proof.
  unfold blendExact, blendFormula. cbn [String.eqb Ascii.eqb Bool.eqb].
  unfold Rmax. destruct (Rle_dec _ _) as [H|H].
  - rewrite Z.max_r; [field|]. apply le_IZR. lra.
  - rewrite Z.max_l; [field|]. apply le_IZR. lra.
Qed.

Lemma ratio_darken (a b : Z) :
  blendExact "darken" a b = IZR (Z.min a b) / IZR 1.
Proof.
  unfold blendExact, blendFormula. cbn [String.eqb Ascii.eqb Bool.eqb].
  unfold Rmin. destruct (Rle_dec _ _) as [H|H].
  - rewrite Z.min_l; [field|]. apply le_IZR. lra.
  - rewrite Z.min_r; [field|]. apply le_IZR. lra.
Qed.

Lemma ratio_color_dodge (a b : Z) :
  isByte a -> isByte b ->
  blendExact "color-dodge" a b
  = IZR (fst (ratio "color-dodge" a b)) / IZR (snd (ratio "color-dodge" a b)) /\
  (0 < snd (ratio "color-dodge" a b))%Z.
Proof.
  intros Ha Hb. bytes a b Ha Hb. destruct Hb as [Hb0 Hb1].
  unfold blendExact, blendFormula, ratio. cbn [String.eqb Ascii.eqb Bool.eqb].
  destruct (Z.eqb_spec b 255) as [->|Hne]; cbn [fst snd].
  - destruct (Req_dec_T _ _) as [_|Hn]; [split; [field|lia]|].
    contradiction Hn. field.
  - assert (Hlt : IZR b < 255) by (apply IZR_lt; lia).
    destruct (Req_dec_T _ _) as [E|_]; [lra|].
    assert (Ex : IZR a / 255 / (1 - IZR b / 255) = IZR a / (255 - IZR b)) by (field; lra).
    rewrite Ex.
    assert (Hx : IZR a / (255 - IZR b) * (255 - IZR b) = IZR a) by (field; lra).
    destruct (Z.leb_spec (255 - b) a) as [Hc|Hc]; cbn [fst snd].
    + split; [|lia]. apply IZR_le in Hc. rewrite minus_IZR in Hc.
      rewrite Rmin_left; [field|].
      apply Rmult_le_reg_r with (255 - IZR b); [lra|]. rewrite Hx. lra.
    + split; [|lia]. apply IZR_lt in Hc. rewrite minus_IZR in Hc.
      rewrite Rmin_right.
      * push. field. lra.
      * apply Rmult_le_reg_r with (255 - IZR b); [lra|]. rewrite Hx. lra.
Qed.

Lemma ratio_color_burn (a b : Z) :
  isByte a -> isByte b ->
  blendExact "color-burn" a b
  = IZR (fst (ratio "color-burn" a b)) / IZR (snd (ratio "color-burn" a b)) /\
  (0 < snd (ratio "color-burn" a b))%Z.
Proof.
  intros Ha Hb. bytes a b Ha Hb. destruct Hb as [Hb0 Hb1].
  unfold blendExact, blendFormula, ratio. cbn [String.eqb Ascii.eqb Bool.eqb].
  destruct (Z.eqb_spec b 0) as [->|Hne]; cbn [fst snd].
  - destruct (Req_dec_T _ _) as [_|Hn]; [split; [field|lia]|].
    contradiction Hn. field.
  - assert (Hlt : 0 < IZR b) by (apply (IZR_lt 0); lia).
    destruct (Req_dec_T _ _) as [E|_]; [lra|].
    assert (Ex : 1 - (1 - IZR a / 255) / (IZR b / 255) = 1 - (255 - IZR a) / IZR b)
      by (field; lra).
    rewrite Ex.
    assert (Hx : (255 - IZR a) / IZR b * IZR b = 255 - IZR a) by (field; lra).
    destruct (Z.leb_spec b (255 - a)) as [Hc|Hc]; cbn [fst snd].
    + split; [|lia]. apply IZR_le in Hc. rewrite minus_IZR in Hc.
      rewrite Rmax_left; [field|].
      assert (1 <= (255 - IZR a) / IZR b); [|lra].
      apply Rmult_le_reg_r with (IZR b); [lra|]. rewrite Hx. lra.
    + split; [|lia]. apply IZR_lt in Hc. rewrite minus_IZR in Hc.
      rewrite Rmax_right.
      * push. field. lra.
      * assert ((255 - IZR a) / IZR b <= 1); [|lra].
        apply Rmult_le_reg_r with (IZR b); [lra|]. rewrite Hx. lra.
Qed.

Lemma square_le (x y : R) : 0 <= y -> x * x <= y * y -> x <= y.
Proof. intros Hy H. destruct (Rle_dec x y) as [|Hn]; [assumption|]. nra. Qed.

Lemma nearSoft_sound (a b r : Z) :
  isByte a -> isByte b -> (128 <= b)%Z -> nearSoft a b r = true ->
  nearestInteger r (blendExact "soft-light" a b).
Proof.
  intros Ha Hb H128 H. bytes a b Ha Hb.
  unfold nearSoft in H. cbv zeta in H.
  apply andb_prop in H as [H Hu2]. apply andb_prop in H as [Hl Hu1].
  apply Z.leb_le in Hu1, Hu2.
  set (c := (2 * b - 255)%Z) in *.
  set (k := (2 * (255 * (r - a) + c * a))%Z) in *.
  set (m := (1020 * c * c * a)%Z) in *.
  assert (Hc : (1 <= c)%Z) by (unfold c; lia).
  unfold blendExact, blendFormula. cbn [String.eqb Ascii.eqb Bool.eqb].
  destruct (Rlt_dec _ _) as [Hlt|_]; [apply half_ge in Hlt; [destruct Hlt|lia]|].
  set (x := IZR a / 255). set (t := sqrt x).
  assert (Hx : 0 <= x) by (unfold x; lra).
  assert (Ht : 0 <= t) by (apply sqrt_pos).
  assert (Htt : t * t = x) by (apply sqrt_sqrt; exact Hx).
  (* [s = 510 c t] is the square root of [m] *)
  set (s := 510 * IZR c * t).
  assert (HcR : 1 <= IZR c) by now apply (IZR_le 1).
  assert (Hs : 0 <= s) by (unfold s; nra).
  assert (Hss : s * s = IZR m).
  { unfold s, m. push. replace (510 * IZR c * t * (510 * IZR c * t))
      with (260100 * IZR c * IZR c * (t * t)) by ring.
    rewrite Htt. unfold x. field. }
  assert (Ek : IZR k = 510 * (IZR r - IZR a) + 2 * IZR c * IZR a) by (unfold k; push; ring).
  assert (Ec : IZR c = 2 * IZR b - 255) by (unfold c; push; ring).
  assert (Hlow : IZR k - 255 <= s).
  { apply orb_prop in Hl as [Hl|Hl]; apply Z.leb_le in Hl; apply IZR_le in Hl.
    - rewrite minus_IZR in Hl. lra.
    - rewrite !mult_IZR, !minus_IZR in Hl.
      apply square_le; [exact Hs|]. rewrite Hss. exact Hl. }
  assert (Hup : s <= IZR k + 255).
  { apply IZR_le in Hu1, Hu2. rewrite plus_IZR in Hu1. rewrite mult_IZR, !plus_IZR in Hu2.
    apply square_le; [lra|]. rewrite Hss. exact Hu2. }
  unfold nearestInteger.
  replace ((x + (2 * (IZR b / 255) - 1) * (t - x)) * 255)
    with (IZR a + IZR c * t - IZR c * IZR a / 255) by (unfold x; rewrite Ec; field).
  apply Rabs_le. unfold s in Hlow, Hup. rewrite Ek in Hlow, Hup. split; lra.
Qed.

Lemma ratio_positive (mode : string) (a b : Z) :
  isByte a -> isByte b -> (0 < snd (ratio mode a b))%Z.
Proof.
  intros Ha Hb. unfold ratio, isByte in *.
  repeat match goal with
         | |- context [(?x =? ?y)%Z] => destruct (Z.eqb_spec x y)
         | |- context [(?x <=? ?y)%Z] => destruct (Z.leb_spec x y)
         | |- context [if ?c then _ else _] => destruct c
         end; cbn [snd]; lia.
Qed.

(** The integer test is sound for every listed mode. *)
Lemma nearExact_sound (mode : string) (a b r : Z) :
  In mode BLEND_MODES -> isByte a -> isByte b ->
  nearExact mode a b r = true -> nearestInteger r (blendExact mode a b).
Proof.
  intros Hm Ha Hb H. unfold nearExact in H.
  assert (Hrat : forall E : blendExact mode a b
                   = IZR (fst (ratio mode a b)) / IZR (snd (ratio mode a b)),
            nearRatio r (ratio mode a b) = true ->
            nearestInteger r (blendExact mode a b)).
  { intros E Hr. rewrite E. apply nearest_ratio; [now apply ratio_positive|].
    now destruct (ratio mode a b). }
  cbn [BLEND_MODES In] in Hm.
  destruct Hm as [<-|[<-|[<-|[<-|[<-|[<-|[<-|[<-|[<-|[<-|[<-|[<-|[]]]]]]]]]]]]];
    cbn [String.eqb Ascii.eqb Bool.eqb andb] in H.
  - apply Hrat; [apply ratio_normal|exact H].
  - apply Hrat; [apply ratio_multiply|exact H].
  - apply Hrat; [apply ratio_screen|exact H].
  - apply Hrat; [apply ratio_overlay|exact H].
  - destruct (Z.leb_spec 128 b) as [Hhigh|Hlow].
    + now apply nearSoft_sound.
    + apply Hrat; [apply ratio_soft_light; lia|exact H].
  - apply Hrat; [apply ratio_hard_light|exact H].
  - apply Hrat; [now apply ratio_color_dodge|exact H].
  - apply Hrat; [now apply ratio_color_burn|exact H].
  - apply Hrat; [apply ratio_difference|exact H].
  - apply Hrat; [apply ratio_exclusion|exact H].
  - apply Hrat; [apply ratio_lighten|exact H].
  - apply Hrat; [apply ratio_darken|exact H].
Qed.

(** The bytes with their normalized Numbers. *)
Definition normPairs : list (Z * float) :=
  Eval vm_compute in map (fun z => (z, (Z2f z / 255)%float)) DitherFacts.byteRange.

Lemma normPairs_In (z : Z) : isByte z -> In (z, (Z2f z / 255)%float) normPairs.
Proof.
  intros Hz.
  change normPairs with (map (fun z => (z, (Z2f z / 255)%float)) DitherFacts.byteRange).
  apply in_map_iff. exists z. split; [reflexivity|now apply DitherFacts.byteRange_In].
Qed.

(** An integer for the Number [v]: the integral part of [v + 0.5], read
    off the mantissa. A cell does not rely on it: it tests the integer it
    gets. *)
Definition nearInt (v : float) : Z :=
  let '(f, e) := frshiftexp (v + 0.5)%float in
  Uint63.to_Z (Uint63.lsr (normfr_mantissa f) (Uint63.sub 2154 e)).

(** One cell of the table: the rescaled value [v] lies in
    [r - 0.5, r + 0.5) for a byte [r] that is nearest to the exact value. *)
Definition exactCell (mode : string) (pa pb : Z * float) : bool :=
  let v := (blendNormalized mode (snd pa) (snd pb) * 255)%float in
  let r := nearInt v in
  BlendFacts.roundsToByte v && (0 <=? r)%Z && (r <=? 255)%Z &&
  (Z2f r - 0.5 <=? v)%float && (v <? Z2f r + 0.5)%float &&
  nearExact mode (fst pa) (fst pb) r.

Lemma exactCheck_ok :
  forallb (fun mode =>
    forallb (fun pa => forallb (exactCell mode pa) normPairs) normPairs) BLEND_MODES = true.
Proof. vm_cast_no_check (eq_refl true). Qed.

(** On bytes [blendPixel] returns a byte that is nearest to the exact
    value of the formula. *)
Lemma blendPixel_nearest (mode : string) (a b : Z) :
  In mode BLEND_MODES -> isByte a -> isByte b ->
  exists r, isByte r /\ blendPixel (Z2f a) (Z2f b) mode = Z2f r /\
    nearestInteger r (blendExact mode a b).
Proof.
  intros Hm Ha Hb.
  pose proof (proj1 (forallb_forall _ _)
                (proj1 (forallb_forall _ _)
                   (proj1 (forallb_forall _ _) exactCheck_ok mode Hm)
                   _ (normPairs_In a Ha))
                _ (normPairs_In b Hb)) as H.
  unfold exactCell in H. cbn [fst snd] in H. cbv zeta in H.
  set (v := (blendNormalized mode (Z2f a / 255) (Z2f b / 255) * 255)%float) in *.
  set (r := nearInt v) in *. clearbody r.
  apply andb_prop in H as [H Hn]. apply andb_prop in H as [H Hhi].
  apply andb_prop in H as [H Hlo]. apply andb_prop in H as [H H255].
  apply andb_prop in H as [Hv H0].
  apply Z.leb_le in H0, H255.
  assert (Hr : isByte r) by (split; assumption).
  exists r. split; [exact Hr|]. split.
  - unfold blendPixel. cbv zeta. fold v.
    now apply RoundFacts.Math_round_between.
  - now apply nearExact_sound.
Qed.

End BlendExact.

(** ** Facts about posterization *)
Module PosterizeFacts.
Import LoopFacts NumberFacts PaletteFacts.

Lemma mapPixels_bytes (f : Z -> Z -> Z -> result rgb) :
  (forall r g b c, f r g b = Ok c -> NearestFacts.byteColor c) ->
  forall d d', Forall isByte d -> mapPixels f d = Ok d' -> Forall isByte d'.
Proof.
  intros Hf.
  induction d as [d Hd|r g b a rest IH] using list4_ind; intros d' Hb H.
  - destruct d as [|? [|? [|? [|? ?]]]]; simpl in *; try lia; now inversion H.
  - simpl in H. destruct (f r g b) as [[[r' g'] b']|] eqn:Ef; simpl in H; [|discriminate].
    destruct (mapPixels f rest) as [rest'|] eqn:Er; simpl in H; [|discriminate].
    inversion H; subst. destruct (Hf _ _ _ _ Ef) as (Hr & Hg & Hb').
    inversion Hb as [|? ? ? Hb1]; subst. inversion Hb1 as [|? ? ? Hb2]; subst.
    inversion Hb2 as [|? ? ? Hb3]; subst. inversion Hb3 as [|? ? ? Hb4]; subst.
    repeat (constructor; [assumption|]). now apply IH.
Qed.

Lemma posterizeLuminancePixel_byte (step : float) (r g b : Z) (c : rgb) :
  posterizeLuminancePixel step r g b = Ok c -> NearestFacts.byteColor c.
Proof.
  unfold posterizeLuminancePixel. intros H. inversion H; subst.
  repeat split; apply BlendFacts.toUint8Clamp_byte.
Qed.

Lemma posterizeChannelPixel_byte (step : float) (r g b : Z) (c : rgb) :
  posterizeChannelPixel step r g b = Ok c -> NearestFacts.byteColor c.
Proof.
  unfold posterizeChannelPixel. intros H. inversion H; subst.
  repeat split; apply BlendFacts.toUint8Clamp_byte.
Qed.

Lemma posterizeArtisticPixel_byte (step mean : float) (r g b : Z) (c : rgb) :
  posterizeArtisticPixel step mean r g b = Ok c -> NearestFacts.byteColor c.
Proof.
  unfold posterizeArtisticPixel. intros H. inversion H; subst.
  repeat split; apply BlendFacts.toUint8Clamp_byte.
Qed.

(** The mode-specific pass never throws and keeps a byte raster. *)
Lemma posterizeStage_total (d : list Z) (levels : Z) (mode : string)
    (palette : option (list rgb)) :
  exists mid, posterizeStage d levels mode palette = Ok mid /\
    length mid = length d /\ (Forall isByte d -> Forall isByte mid).
Proof.
  unfold posterizeStage.
  destruct (_ && _).
  - destruct (mapPixels_total (posterizeLuminancePixel (255 / Z2f (levels - 1))) d)
      as (mid & E); [unfold posterizeLuminancePixel; eauto|].
    exists mid. split; [exact E|]. split; [exact (mapPixels_length _ _ _ E)|].
    intros Hb. exact (mapPixels_bytes _ (posterizeLuminancePixel_byte _) _ _ Hb E).
  - destruct (mode =? "per-channel")%string.
    + destruct (mapPixels_total (posterizeChannelPixel (255 / Z2f (levels - 1))) d)
        as (mid & E); [unfold posterizeChannelPixel; eauto|].
      exists mid. split; [exact E|]. split; [exact (mapPixels_length _ _ _ E)|].
      intros Hb. exact (mapPixels_bytes _ (posterizeChannelPixel_byte _) _ _ Hb E).
    + destruct (mode =? "artistic")%string; [|eauto].
      match goal with |- context [mapPixels ?f d] =>
        destruct (mapPixels_total f d) as (mid & E); [unfold posterizeArtisticPixel; eauto|]
      end.
      exists mid. split; [exact E|]. split; [exact (mapPixels_length _ _ _ E)|].
      intros Hb. exact (mapPixels_bytes _ (posterizeArtisticPixel_byte _ _) _ _ Hb E).
Qed.

(** The normalized luminance of a byte is finite. *)
Definition lumCheck : bool :=
  forallb (fun c : Z * float => finiteF (snd c / 255)%float) NearestFacts.byteTable.

Lemma lumCheck_ok : lumCheck = true.
Proof. vm_cast_no_check (eq_refl true). Qed.

Lemma byte_normalized_finite (lum : Z) : isByte lum -> finiteF (Z2f lum / 255) = true.
Proof.
  intros H.
  exact (proj1 (forallb_forall _ _) lumCheck_ok _ (NearestFacts.byteTable_In _ H)).
Qed.

(** The palette pass on one byte pixel: the entry of the sorted palette at
    the clamped rounded index. *)
Lemma paletteMapPixel_spec (sortedPalette : list rgb) (r g b : Z) :
  sortedPalette <> [] -> isByte r -> isByte g -> isByte b ->
  let n := Z.of_nat (length sortedPalette) in
  exists j c, (0 <= j <= n - 1)%Z /\
    Math_maxI (Int 0) (Math_minI (Int (n - 1))
      (Math_roundI (Z2f (getLuminance r g b) / 255 * Z2f (n - 1))%float)) = Int j /\
    sortedPalette !! Z.to_nat j = Some c /\
    paletteMapPixel sortedPalette r g b =
      Ok (let '(pr, pg, pb) := c in (clampByte pr, clampByte pg, clampByte pb)).
Proof.
  intros Hne Hr Hg Hb n.
  pose proof (byte_normalized_finite _ (getLuminance_byte r g b Hr Hg Hb)) as Hfin.
  destruct (palette_lookup_ok sortedPalette _ Hne Hfin) as (j & c & Hj & Eidx & Ec & Hc).
  exists j, c. split; [exact Hj|]. split; [exact Eidx|].
  unfold paletteMapPixel. cbv zeta. rewrite Eidx, Ec.
  split; [|now destruct c as [[pr pg] pb]].
  simpl in Ec. destruct (0 <=? j)%Z; [exact Ec|discriminate].
Qed.

Lemma insertByLuminance_sorted (c : rgb) (l : list rgb) :
  StronglySorted (fun a b => (lumOf a <= lumOf b)%Z) l ->
  StronglySorted (fun a b => (lumOf a <= lumOf b)%Z) (insertByLuminance c l).
Proof.
  induction 1 as [|d rest Hs IH Hd]; simpl.
  - repeat constructor.
  - destruct (Z.leb_spec (lumOf c) (lumOf d)).
    + constructor; [now constructor|].
      constructor; [lia|]. eapply Forall_impl; [exact Hd|]. simpl. intros; lia.
    + constructor; [exact IH|].
      rewrite insertByLuminance_perm. constructor; [lia|exact Hd].
Qed.

Lemma sortPaletteByLuminance_sorted (palette : list rgb) :
  StronglySorted (fun a b => (lumOf a <= lumOf b)%Z) (sortPaletteByLuminance palette).
Proof.
  unfold sortPaletteByLuminance. induction palette as [|c rest IH]; simpl.
  - constructor.
  - now apply insertByLuminance_sorted.
Qed.

Lemma wfPalette_sorted (palette : list rgb) :
  wfPalette palette -> wfPalette (sortPaletteByLuminance palette).
Proof.
  unfold wfPalette. rewrite !Forall_forall. intros H c Hc.
  apply H. now apply sortPaletteByLuminance_elem.
Qed.

(** [posterize] with a non-empty byte palette: the mode-specific pass (none
    for the modes other than per-channel and artistic), then the palette
    pass on every pixel of its result. *)
Lemma posterize_palette_spec (img : ImageData) (levels : Z) (mode : string)
    (palette : list rgb) :
  wfImage img -> wfPalette palette -> palette <> [] ->
  let sorted := sortPaletteByLuminance palette in
  let n := Z.of_nat (length sorted) in
  exists mid out,
    posterizeStage (data img) (Z.max 2 (Z.min 16 levels)) mode (Some palette) = Ok mid /\
    posterize img levels mode (Some palette) = Ok out /\
    width out = width img /\ height out = height img /\
    length (data out) = length (data img) /\ Forall isByte (data out) /\
    forall i, i < width img * height img ->
      exists r g b j c, pixelAt mid i = Some (r, g, b) /\ (0 <= j <= n - 1)%Z /\
        Math_maxI (Int 0) (Math_minI (Int (n - 1))
          (Math_roundI (Z2f (getLuminance r g b) / 255 * Z2f (n - 1))%float)) = Int j /\
        sorted !! Z.to_nat j = Some c /\ pixelAt (data out) i = Some c.
Proof.
  intros [Hl Hb] Hwf Hne sorted n.
  destruct (posterizeStage_total (data img) (Z.max 2 (Z.min 16 levels)) mode (Some palette))
    as (mid & Emid & Hlm & Hbm).
  specialize (Hbm Hb).
  assert (Hs : sorted <> []).
  { intros E. apply Hne. apply length_zero_iff_nil.
    unfold sorted in E. now rewrite <- sortPaletteByLuminance_length, E. }
  assert (Hpix : forall i r g b, pixelAt mid i = Some (r, g, b) ->
            isByte r /\ isByte g /\ isByte b).
  { intros i r g b Hp. unfold pixelAt in Hp. rewrite Forall_lookup in Hbm.
    destruct (mid !! (4 * i)) eqn:E0; [|discriminate].
    destruct (mid !! (4 * i + 1)) eqn:E1; [|discriminate].
    destruct (mid !! (4 * i + 2)) eqn:E2; [|discriminate].
    inversion Hp; subst. split; [|split]; eauto. }
  destruct (mapPixels_total (paletteMapPixel sorted) mid) as (d' & Ed).
  { intros i r g b _ Hp. destruct (Hpix i r g b Hp) as (Hr & Hg & Hbb).
    destruct (paletteMapPixel_spec sorted r g b Hs Hr Hg Hbb) as (j & c & _ & _ & _ & ->).
    eauto. }
  exists mid, (mkImageData d' (width img) (height img)).
  split; [exact Emid|].
  assert (Eout : posterize img levels mode (Some palette) =
                 Ok (mkImageData d' (width img) (height img))).
  { unfold posterize. rewrite Emid. cbn [mbind result_bind].
    replace (0 <? length palette)%nat with true
      by (symmetry; apply Nat.ltb_lt; destruct palette; [congruence|simpl; lia]).
    fold sorted. rewrite Ed. reflexivity. }
  split; [exact Eout|]. cbn [width height data].
  pose proof (mapPixels_length _ _ _ Ed) as Hld.
  repeat split; try lia.
  - refine (mapPixels_bytes _ _ _ _ Hbm Ed).
    intros r g b c Hc. unfold paletteMapPixel in Hc.
    destruct (_ ≫= _) as [[[pr pg] pb]|]; [|discriminate].
    inversion Hc; subst. repeat split; apply clampByte_isByte.
  - intros i Hi.
    destruct (pixelAt_defined mid i ltac:(lia)) as ([[r g] b] & Hp).
    destruct (Hpix i r g b Hp) as (Hr & Hg & Hbb).
    destruct (paletteMapPixel_spec sorted r g b Hs Hr Hg Hbb) as (j & c & Hj & Eidx & Ec & Epm).
    destruct (mapPixels_pixelAt _ _ _ Ed i r g b ltac:(lia) Hp) as (c' & Epm' & Hc').
    exists r, g, b, j, c. repeat split; try lia; auto.
    rewrite Epm in Epm'. inversion Epm'; subst c'.
    rewrite Hc'. f_equal. destruct c as [[pr pg] pb].
    apply (wfPalette_clamp sorted); [now apply wfPalette_sorted|].
    eapply list_elem_of_lookup_2, Ec.
Qed.

End PosterizeFacts.

(** ** Facts about steps 1 and 2 of the pipeline *)
Module PipelineFacts.
Import LoopFacts NumberFacts PaletteFacts.

Lemma hexDigit_range (c : ascii) (v : Z) : hexDigit c = Some v -> (0 <= v <= 15)%Z.
Proof.
  unfold hexDigit. generalize (Z.of_N (N_of_ascii c)). intros n H.
  destruct (Z.leb_spec 48 n), (Z.leb_spec n 57); simpl in H;
    try (inversion H; subst; lia);
    destruct (Z.leb_spec 97 n), (Z.leb_spec n 102); simpl in H;
    try (inversion H; subst; lia);
    destruct (Z.leb_spec 65 n), (Z.leb_spec n 70); simpl in H;
    try (inversion H; subst; lia); discriminate.
Qed.

Lemma hexToRgb_byte (hex : string) : NearestFacts.byteColor (hexToRgb hex).
Proof.
  assert (Hblack : NearestFacts.byteColor (0, 0, 0)%Z)
    by (unfold NearestFacts.byteColor, isByte; lia).
  unfold hexToRgb.
  destruct (match hex with String "#"%char rest => rest | _ => hex end)
    as [|r1 [|r0 [|g1 [|g0 [|b1 [|b0 [|? ?]]]]]]]; try exact Hblack.
  destruct (hexDigit r1) eqn:E1, (hexDigit r0) eqn:E2, (hexDigit g1) eqn:E3,
    (hexDigit g0) eqn:E4, (hexDigit b1) eqn:E5, (hexDigit b0) eqn:E6; try exact Hblack.
  apply hexDigit_range in E1, E2, E3, E4, E5, E6.
  unfold NearestFacts.byteColor, isByte. lia.
Qed.

Lemma palette_of_colors_wf (colors : list string) : wfPalette (map hexToRgb colors).
Proof.
  unfold wfPalette. induction colors as [|c rest IH]; simpl; constructor; auto.
  exact (hexToRgb_byte c).
Qed.

(** A strategy applied with an empty palette throws on the first pixel. *)
Lemma quantize_empty (img : ImageData) :
  wfImage img -> 0 < width img -> 0 < height img -> quantize img [] = Throw TypeError.
Proof.
  intros [Hl _] Hw Hh. unfold quantize.
  assert (4 <= length (data img)) by nia.
  destruct (data img) as [|r [|g [|b [|a rest]]]]; simpl in *; try lia.
  reflexivity.
Qed.

Lemma floydSteinberg_empty (img : ImageData) :
  0 < width img -> 0 < height img -> floydSteinberg img [] = Throw TypeError.
Proof.
  intros Hw Hh. unfold floydSteinberg.
  rewrite (forPixels_throw_first _ _ _ _ TypeError Hw Hh); reflexivity.
Qed.

Lemma atkinson_empty (img : ImageData) :
  0 < width img -> 0 < height img -> atkinson img [] = Throw TypeError.
Proof.
  intros Hw Hh. unfold atkinson.
  rewrite (forPixels_throw_first _ _ _ _ TypeError Hw Hh); reflexivity.
Qed.

Lemma orderedPixel_empty (matrixSize : Z) (w x y : nat) (d : list Z) :
  orderedPixel [] matrixSize w x y d = Throw TypeError.
Proof.
  unfold orderedPixel.
  destruct (remIndex y matrixSize ≫= _) as [row|]; [|reflexivity].
  cbv zeta. destruct (indexOf _) as [i|]; reflexivity.
Qed.

Lemma orderedDither_empty (img : ImageData) (matrixSize : Z) :
  0 < width img -> 0 < height img -> orderedDither img [] matrixSize = Throw TypeError.
Proof.
  intros Hw Hh. unfold orderedDither.
  rewrite (forPixels_throw_first _ _ _ _ TypeError Hw Hh); [reflexivity|].
  apply orderedPixel_empty.
Qed.

(** Step 1 never throws and keeps a well-formed raster. *)
Lemma posterizeStep_total (s : Settings) (palette : list rgb) (img : ImageData) :
  wfImage img -> wfPalette palette ->
  exists post, posterizeStep s palette img = Ok post /\ wfImage post /\
    width post = width img /\ height post = height img.
Proof.
  intros Himg Hpal. unfold posterizeStep.
  destruct (posterizeEnabled s); [|eauto].
  assert (Hnone : forall p, (p = None \/ p = Some []) ->
            exists post, posterize img (posterizeLevels s) (posterizeMode s) p = Ok post /\
              wfImage post /\ width post = width img /\ height post = height img).
  { intros p Hp. unfold posterize.
    destruct (PosterizeFacts.posterizeStage_total (data img)
                (Z.max 2 (Z.min 16 (posterizeLevels s))) (posterizeMode s) p)
      as (mid & -> & Hlm & Hbm).
    destruct Himg as [Hl Hb].
    exists (mkImageData mid (width img) (height img)).
    split; [destruct Hp as [->| ->]; reflexivity|].
    repeat split; simpl; auto. lia. }
  destruct (posterizeUsePalette s); [|apply Hnone; now left].
  destruct palette as [|c rest] eqn:Ep; [apply Hnone; now right|]. rewrite <- Ep in *.
  destruct (PosterizeFacts.posterize_palette_spec img (posterizeLevels s) (posterizeMode s)
              palette Himg Hpal ltac:(subst; discriminate))
    as (mid & out & _ & Eout & Hw & Hh & Hl & Hb & _).
  exists out. split; [exact Eout|]. destruct Himg as [Hl0 _].
  repeat split; auto. rewrite Hw, Hh. lia.
Qed.

(** Step 2's switch never throws on a well-formed raster when the palette
    is not empty. *)
Lemma ditherSwitch_total (s : Settings) (palette : list rgb) (img : ImageData) :
  wfImage img -> wfPalette palette -> palette <> [] ->
  In (orderedMatrixSize s) [2; 4; 8]%Z ->
  exists out, ditherSwitch s palette img = Ok out /\
    width out = width img /\ height out = height img.
Proof.
  intros Himg Hpal Hne Hms. unfold ditherSwitch.
  destruct (DitherFacts.floydSteinberg_palette img palette Himg Hpal Hne)
    as (o1 & E1 & W1 & H1 & _).
  destruct (DitherFacts.atkinson_palette img palette Himg Hpal Hne)
    as (o2 & E2 & W2 & H2 & _).
  destruct (DitherFacts.quantize_palette img palette Himg Hpal Hne)
    as (o3 & E3 & W3 & H3 & _).
  assert (E4 : exists o4, orderedDither img palette (orderedMatrixSize s) = Ok o4 /\
                 width o4 = width img /\ height o4 = height img).
  { pose proof DitherFacts.orderedCheck_sizes as Hchk.
    apply andb_prop in Hchk as [Hchk C8]. apply andb_prop in Hchk as [C2 C4].
    assert (Hn : exists n, orderedMatrixSize s = Z.of_nat n /\
                   DitherFacts.orderedCheck n = true /\ 0 < n).
    { simpl in Hms. destruct Hms as [<-|[<-|[<-|[]]]];
        [exists 2|exists 4|exists 8];
        (split; [reflexivity|split; [assumption|lia]]). }
    clear C2 C4 C8. destruct Hn as (n & -> & Hc & Hn).
    destruct (DitherFacts.orderedDither_palette img palette n Hc Hn Himg Hpal Hne)
      as (o4 & E4 & W4 & H4 & _). eauto. }
  destruct E4 as (o4 & E4 & W4 & H4).
  repeat match goal with |- context [if ?c then _ else _] => destruct c end; eauto.
Qed.

Lemma processSteps_total (s : Settings) (working : ImageData) :
  wfImage working -> colors s <> [] -> In (orderedMatrixSize s) [2; 4; 8]%Z ->
  exists out, processSteps s working = Ok out.
Proof.
  intros Himg Hne Hms. unfold processSteps.
  assert (Hpal := palette_of_colors_wf (colors s)).
  assert (Hne' : map hexToRgb (colors s) <> []) by (destruct (colors s); [congruence|discriminate]).
  destruct (posterizeStep_total s _ working Himg Hpal) as (post & -> & Hpost & _).
  cbn [mbind result_bind].
  destruct (0 <? ditherStrength s)%Z; [|eauto].
  destruct (ditherSwitch_total s _ post Hpost Hpal Hne' Hms) as (out & -> & _).
  cbn [mbind result_bind]. destruct (_ && _); eauto.
Qed.

End PipelineFacts.

(** ** Facts about the runs of the pipeline *)
Module RunFacts.
Import PipelineFacts.

(** Without the blend of step 2 the result carries palette colours only. *)
Lemma processSteps_unblended (s : Settings) (working : ImageData) :
  wfImage working -> colors s <> [] -> In (orderedMatrixSize s) [2; 4; 8]%Z ->
  (100 <= ditherStrength s)%Z \/
  ((0 < ditherStrength s)%Z /\ ditherType s = "none"%string) ->
  exists out, processSteps s working = Ok out /\
    width out = width working /\ height out = height working /\
    paletteOnly (map hexToRgb (colors s)) (data out) (width working * height working).
Proof.
  intros Himg Hne Hms Hst.
  unfold processSteps. cbv zeta.
  set (palette := map hexToRgb (colors s)).
  assert (Hpal : wfPalette palette) by apply PipelineFacts.palette_of_colors_wf.
  assert (Hpne : palette <> []).
  { subst palette. destruct (colors s); [congruence|discriminate]. }
  destruct (PipelineFacts.posterizeStep_total s palette working Himg Hpal)
    as (post & Epost & Hpost & Wp & Hp).
  rewrite Epost. cbn [mbind result_bind].
  replace (0 <? ditherStrength s)%Z with true by (symmetry; apply Z.ltb_lt; lia).
  assert (Hsw : exists out, ditherSwitch s palette post = Ok out /\
            width out = width working /\ height out = height working /\
            paletteOnly palette (data out) (width working * height working)).
  { rewrite <- Wp, <- Hp. unfold ditherSwitch.
    destruct (DitherFacts.floydSteinberg_palette post palette Hpost Hpal Hpne)
      as (o1 & E1 & W1 & H1 & _ & P1).
    destruct (DitherFacts.atkinson_palette post palette Hpost Hpal Hpne)
      as (o2 & E2 & W2 & H2 & _ & P2).
    destruct (DitherFacts.quantize_palette post palette Hpost Hpal Hpne)
      as (o3 & E3 & W3 & H3 & _ & P3).
    assert (E4 : exists o4, orderedDither post palette (orderedMatrixSize s) = Ok o4 /\
                 width o4 = width post /\ height o4 = height post /\
                 paletteOnly palette (data o4) (width post * height post)).
    { pose proof DitherFacts.orderedCheck_sizes as Hchk.
      apply andb_prop in Hchk as [Hchk C8]. apply andb_prop in Hchk as [C2 C4].
      assert (Hn : exists n, orderedMatrixSize s = Z.of_nat n /\
                     DitherFacts.orderedCheck n = true /\ 0 < n).
      { simpl in Hms. destruct Hms as [<-|[<-|[<-|[]]]];
          [exists 2|exists 4|exists 8];
          (split; [reflexivity|split; [assumption|lia]]). }
      clear C2 C4 C8. destruct Hn as (n & -> & Hc & Hn).
      destruct (DitherFacts.orderedDither_palette post palette n Hc Hn Hpost Hpal Hpne)
        as (o4 & E4 & W4 & H4 & _ & P4). eauto 10. }
    destruct E4 as (o4 & E4 & W4 & H4 & P4).
    destruct (ditherType s =? "floyd-steinberg")%string; [eauto 10|].
    destruct (ditherType s =? "ordered")%string; [eauto 10|].
    destruct (ditherType s =? "atkinson")%string; [eauto 10|].
    destruct (ditherType s =? "none")%string; [|eauto 10].
    destruct (posterizeEnabled s) eqn:Een; cbn [negb orb]; [|eauto 10].
    destruct (posterizeUsePalette s) eqn:Eup; cbn [negb]; [|eauto 10].
    exists post. split; [reflexivity|]. split; [reflexivity|]. split; [reflexivity|].
    unfold posterizeStep in Epost. rewrite Een, Eup in Epost.
    destruct (PosterizeFacts.posterize_palette_spec working (posterizeLevels s)
                (posterizeMode s) palette Himg Hpal Hpne)
      as (mid & out & _ & Eout & _ & _ & _ & _ & Hpix).
    rewrite Eout in Epost. injection Epost as <-.
    rewrite Wp, Hp. intros i Hi.
    destruct (Hpix i Hi) as (r & g & b & j & c & _ & _ & _ & Hc & Hout).
    exists c. split; [|exact Hout].
    apply PaletteFacts.sortPaletteByLuminance_elem.
    eapply list_elem_of_lookup_2. exact Hc. }
  destruct Hsw as (out & Eout & Wo & Ho & Po).
  rewrite Eout. cbn [mbind result_bind].
  replace ((ditherStrength s <? 100)%Z && negb (ditherType s =? "none")%string)
    with false; [eauto 10|].
  destruct Hst as [Hst|[_ Hnone]].
  - replace (ditherStrength s <? 100)%Z with false; [reflexivity|].
    symmetry. apply Z.ltb_ge. lia.
  - rewrite Hnone. cbn. now rewrite andb_false_r.
Qed.

(** With no colour at all the run fails as soon as a strategy is called. *)
Lemma processSteps_empty (s : Settings) (working : ImageData) :
  wfImage working -> 0 < width working -> 0 < height working ->
  colors s = [] -> (0 < ditherStrength s)%Z ->
  ditherType s <> "none"%string \/ posterizeEnabled s = false \/
    posterizeUsePalette s = false ->
  processSteps s working = Throw TypeError.
Proof.
  intros Himg Hw Hh Hcol Hst Hkind.
  unfold processSteps. cbv zeta. rewrite Hcol. cbn [map].
  destruct (posterizeStep_total s [] working Himg ltac:(constructor))
    as (post & -> & Hpost & Wp & Hp).
  cbn [mbind result_bind].
  replace (0 <? ditherStrength s)%Z with true by (symmetry; apply Z.ltb_lt; lia).
  rewrite <- Wp in Hw. rewrite <- Hp in Hh.
  assert (Hsw : ditherSwitch s [] post = Throw TypeError).
  { unfold ditherSwitch.
    rewrite (floydSteinberg_empty post Hw Hh), (atkinson_empty post Hw Hh),
      (orderedDither_empty post _ Hw Hh), (quantize_empty post Hpost Hw Hh).
    destruct (ditherType s =? "floyd-steinberg")%string; [reflexivity|].
    destruct (ditherType s =? "ordered")%string; [reflexivity|].
    destruct (ditherType s =? "atkinson")%string; [reflexivity|].
    destruct (String.eqb_spec (ditherType s) "none") as [En|_]; [|reflexivity].
    destruct Hkind as [Hk|[Hk|Hk]]; [congruence| |]; rewrite Hk; cbn [negb orb];
      [reflexivity|]. now rewrite orb_true_r. }
  rewrite Hsw. reflexivity.
Qed.

End RunFacts.

(** ** Error diffusion *)

(** The error of channel [c] (0, 1 or 2) of an error triple. *)
Definition channelOf {A : Type} (c : nat) (eR eG eB : A) : A :=
  match c with
  | 0 => eR
  | 1 => eG
  | _ => eB
  end.

(** [spread eR eG eB targets buffer]: for every target [(q, weight)], in
    order, the three colour cells of pixel [q] receive the error times the
    weight. *)
Definition spread (eR eG eB : float) (targets : list (nat * float))
    (buffer : list float) : list float :=
  fold_left (fun buf t => addErr buf (fst t * 4) (eR * snd t) (eG * snd t) (eB * snd t))
    targets buffer.

(** The weight a list of targets gives to pixel [q]. *)
Fixpoint weightOf (q : nat) (targets : list (nat * float)) : option float :=
  match targets with
  | [] => None
  | t :: rest => if (fst t =? q)%nat then Some (snd t) else weightOf q rest
  end.

(** Pixel number of the pixel in column [x] of row [y]. *)
Definition pix (w x y : nat) : nat := y * w + x.

(** The order of the scan: pixel number [k] is the pixel of column
    [k mod w] in row [k / w]. *)
Definition rowMajor (w h : nat) : list (nat * nat) :=
  map (fun k => (k mod w, k / w)) (seq 0 (w * h)).

(** The neighbours fed by [floydSteinberg] from pixel (x, y), as pixel
    numbers with the weight of each, in the order of the source. *)
Definition fsTargets (w h x y : nat) : list (nat * float) :=
  (if (x + 1 <? w)%nat then [(pix w (x + 1) y, 0.4375%float)] else []) ++
  (if (y + 1 <? h)%nat then
     (if (0 <? x)%nat then [(pix w (x - 1) (y + 1), 0.1875%float)] else []) ++
     [(pix w x (y + 1), 0.3125%float)] ++
     (if (x + 1 <? w)%nat then [(pix w (x + 1) (y + 1), 0.0625%float)] else [])
   else []).


(** The neighbours fed by [atkinson] from pixel (x, y) that lie in the
    raster, in the order of the pattern, each with the weight 1/8. *)
Definition atkinsonTargets (w h x y : nat) : list (nat * float) :=
  (if (x + 1 <? w)%nat then [(pix w (x + 1) y, 0.125%float)] else []) ++
  (if (x + 2 <? w)%nat then [(pix w (x + 2) y, 0.125%float)] else []) ++
  (if (y + 1 <? h)%nat && (0 <? x)%nat
   then [(pix w (x - 1) (y + 1), 0.125%float)] else []) ++
  (if (y + 1 <? h)%nat then [(pix w x (y + 1), 0.125%float)] else []) ++
  (if (y + 1 <? h)%nat && (x + 1 <? w)%nat
   then [(pix w (x + 1) (y + 1), 0.125%float)] else []) ++
  (if (y + 2 <? h)%nat then [(pix w x (y + 2), 0.125%float)] else []).

(** The Atkinson weight of the neighbour (nx, ny) of (x, y): 1/8 for
    (x+1, y), (x+2, y), (x-1, y+1), (x, y+1), (x+1, y+1) and (x, y+2). *)
Definition atkinsonWeight (x y nx ny : nat) : option float :=
  if (ny =? y)%nat && (nx =? x + 1)%nat
     || (ny =? y)%nat && (nx =? x + 2)%nat
     || (ny =? y + 1)%nat && (nx + 1 =? x)%nat
     || (ny =? y + 1)%nat && (nx =? x)%nat
     || (ny =? y + 1)%nat && (nx =? x + 1)%nat
     || (ny =? y + 2)%nat && (nx =? x)%nat
  then Some (1 / 8)%float
  else None.

Module DiffusionFacts.
Import LoopFacts.

Lemma addF_length (buf : list float) (i : nat) (v : float) :
  length (addF buf i v) = length buf.
Proof. unfold addF. apply length_insert. Qed.

Lemma addF_lookup (buf : list float) (i j : nat) (v : float) :
  i < length buf ->
  addF buf i v !! j = if decide (j = i) then Some (fround (rdF buf i + v)) else buf !! j.
Proof.
  intros Hi. unfold addF. destruct (decide (j = i)) as [->|Hne].
  - now rewrite list_lookup_insert_eq.
  - now rewrite list_lookup_insert_ne by congruence.
Qed.

Lemma addErr_length (buf : list float) (i : nat) (eR eG eB : float) :
  length (addErr buf i eR eG eB) = length buf.
Proof. unfold addErr. now rewrite !addF_length. Qed.

Lemma rdF_addF_ne (buf : list float) (i j : nat) (v : float) :
  i <> j -> i < length buf -> rdF (addF buf i v) j = rdF buf j.
Proof.
  intros Hne Hi. unfold rdF. rewrite addF_lookup by exact Hi.
  now rewrite decide_False by congruence.
Qed.

(** The three cells written by [addErr], and nothing else. *)
Lemma addErr_lookup (buf : list float) (i j : nat) (eR eG eB : float) :
  i + 2 < length buf ->
  addErr buf i eR eG eB !! j =
    if decide (i <= j < i + 3)
    then Some (fround (rdF buf j + channelOf (j - i) eR eG eB))
    else buf !! j.
Proof.
  intros Hi. unfold addErr.
  rewrite addF_lookup by (rewrite !addF_length; lia).
  rewrite (rdF_addF_ne _ (i + 1) (i + 2)) by (rewrite ?addF_length; lia).
  rewrite (rdF_addF_ne _ i (i + 2)) by lia.
  rewrite addF_lookup by (rewrite !addF_length; lia).
  rewrite (rdF_addF_ne _ i (i + 1)) by lia.
  rewrite addF_lookup by lia.
  destruct (decide (j = i + 2)) as [->|H2].
  - rewrite decide_True by lia. replace (i + 2 - i) with 2 by lia. reflexivity.
  - destruct (decide (j = i + 1)) as [->|H1].
    + rewrite decide_True by lia. replace (i + 1 - i) with 1 by lia. reflexivity.
    + destruct (decide (j = i)) as [->|H0].
      * rewrite decide_True by lia. replace (i - i) with 0 by lia. reflexivity.
      * now rewrite decide_False by lia.
Qed.

Lemma spread_length (eR eG eB : float) (targets : list (nat * float)) :
  forall buf, length (spread eR eG eB targets buf) = length buf.
Proof.
  unfold spread. induction targets as [|t rest IH]; intros buf; simpl; [reflexivity|].
  now rewrite IH, addErr_length.
Qed.

(** After [spread], a colour cell of a target pixel holds its old value
    plus the error times the weight of the pixel (rounded to binary32);
    every other cell is unchanged. *)
Lemma spread_lookup (eR eG eB : float) (targets : list (nat * float)) :
  forall buf q c,
  NoDup (map fst targets) ->
  Forall (fun t => fst t * 4 + 3 < length buf) targets ->
  c < 4 ->
  spread eR eG eB targets buf !! (q * 4 + c) =
    match weightOf q targets with
    | Some weight =>
        if decide (c < 3)
        then Some (fround (rdF buf (q * 4 + c) + channelOf c eR eG eB * weight))
        else buf !! (q * 4 + c)
    | None => buf !! (q * 4 + c)
    end.
Proof.
  unfold spread.
  induction targets as [|[q0 w0] rest IH]; intros buf q c Hnd Hin Hc; simpl; [reflexivity|].
  inversion Hnd as [|? ? Hq0 Hnd']; subst. inversion Hin as [|? ? Hb0 Hin']; subst.
  simpl in Hb0.
  rewrite IH; [|exact Hnd'| |exact Hc].
  2:{ eapply Forall_impl; [exact Hin'|]. intros t Ht. simpl in *. now rewrite addErr_length. }
  destruct (Nat.eqb_spec q0 q) as [->|Hne].
  - assert (Hw : weightOf q rest = None).
    { clear -Hq0. induction rest as [|[q1 w1] rest IH]; simpl; [reflexivity|].
      simpl in Hq0. destruct (Nat.eqb_spec q1 q) as [->|]; [exfalso; apply Hq0; now left|].
      apply IH. intros H. apply Hq0. now right. }
    rewrite Hw. rewrite addErr_lookup by lia.
    destruct (decide (c < 3)).
    + rewrite decide_True by lia. replace (q * 4 + c - q * 4) with c by lia.
      destruct c as [|[|[|c]]]; try lia; reflexivity.
    + now rewrite decide_False by lia.
  - assert (Hcell : forall j, j < 4 ->
              addErr buf (q0 * 4) (eR * w0) (eG * w0) (eB * w0) !! (q * 4 + j)
              = buf !! (q * 4 + j)).
    { intros j Hj. rewrite addErr_lookup by lia. now rewrite decide_False by lia. }
    unfold rdF. rewrite !Hcell by lia. reflexivity.
Qed.

Lemma pix_lt (w h x y : nat) : x < w -> y < h -> pix w x y < w * h.
Proof. unfold pix. nia. Qed.

Lemma pix_inj (w x y x' y' : nat) :
  x < w -> x' < w -> pix w x y = pix w x' y' -> x = x' /\ y = y'.
Proof.
  unfold pix. intros Hx Hx' E.
  assert (y = y') by nia. subst. lia.
Qed.

Lemma pix_eqb (w x y x' y' : nat) :
  x < w -> x' < w ->
  (pix w x y =? pix w x' y')%nat = (x =? x')%nat && (y =? y')%nat.
Proof.
  intros Hx Hx'.
  destruct (Nat.eqb_spec (pix w x y) (pix w x' y')) as [E|E].
  - apply pix_inj in E as [-> ->]; auto. now rewrite !Nat.eqb_refl.
  - destruct (Nat.eqb_spec x x') as [->|]; [|reflexivity].
    destruct (Nat.eqb_spec y y') as [->|]; [congruence|reflexivity].
Qed.

Lemma forEach_app {A St : Type} (l1 l2 : list A) (body : A -> St -> result St) (s : St) :
  forEach (l1 ++ l2) body s = (s' ← forEach l1 body s; forEach l2 body s').
Proof.
  revert s. induction l1 as [|a l1 IH]; intros s; simpl; [reflexivity|].
  destruct (body a s) as [s'|e]; simpl; [apply IH|reflexivity].
Qed.

Lemma forEach_map {A B St : Type} (f : A -> B) (l : list A)
    (body : B -> St -> result St) (s : St) :
  forEach (map f l) body s = forEach l (fun a => body (f a)) s.
Proof.
  revert s. induction l as [|a l IH]; intros s; simpl; [reflexivity|].
  destruct (body (f a) s) as [s'|e]; simpl; [apply IH|reflexivity].
Qed.

Lemma rowMajor_row (w h : nat) :
  map (fun k => (k mod w, k / w)) (seq (w * h) w) = map (fun x => (x, h)) (seq 0 w).
Proof.
  replace (seq (w * h) w) with (map (Nat.add (w * h)) (seq 0 w)).
  2:{ pose proof (fmap_add_seq (w * h) 0 w) as E. rewrite Nat.add_0_r in E. exact E. }
  rewrite map_map. apply map_ext_in. intros x Hx. apply in_seq in Hx.
  assert (Hw : w <> 0) by lia.
  f_equal.
  - rewrite Nat.add_comm, Nat.mul_comm, Nat.Div0.mod_add. now apply Nat.mod_small.
  - rewrite Nat.add_comm, Nat.mul_comm, Nat.div_add by exact Hw.
    rewrite Nat.div_small by lia. reflexivity.
Qed.

(** The double loop visits the pixels in row-major order. *)
Lemma forPixels_rowMajor {St : Type} (w h : nat) (body : nat -> nat -> St -> result St)
    (s : St) :
  forPixels w h body s = forEach (rowMajor w h) (fun p => body (fst p) (snd p)) s.
Proof.
  unfold forPixels, rowMajor. revert s. induction h as [|h IH]; intros s.
  - rewrite Nat.mul_0_r. reflexivity.
  - rewrite seq_S, forEach_app, IH. simpl forEach at 2.
    replace (w * S h) with (w * h + w) by lia.
    rewrite seq_app, map_app, forEach_app. simpl.
    destruct (forEach _ _ s) as [s'|e]; simpl; [|reflexivity].
    rewrite rowMajor_row, forEach_map. simpl.
    destruct (forEach (seq 0 w) _ s'); reflexivity.
Qed.


(** The buffer after one Floyd-Steinberg pixel, as a [spread]. *)
Lemma fsPixel_spread (palette : list rgb) (w h x y : nat) (d : list Z) (buffer : list float) :
  let idx := (y * w + x) * 4 in
  let r := rdF buffer idx in
  let g := rdF buffer (idx + 1) in
  let b := rdF buffer (idx + 2) in
  fsPixel palette w h x y (d, buffer) =
    match findClosestColor r g b palette with
    | None => Throw TypeError
    | Some (nr, ng, nb) =>
        Ok (setRGB d idx (nr, ng, nb),
            spread (r - Z2f nr) (g - Z2f ng) (b - Z2f nb) (fsTargets w h x y) buffer)
    end.
Proof.
  cbv zeta. unfold fsPixel, fsTargets, spread, pix.
  destruct (findClosestColor _ _ _ palette) as [[[nr ng] nb]|]; [|reflexivity].
  destruct (Nat.ltb_spec (x + 1) w), (Nat.ltb_spec (y + 1) h), (Nat.ltb_spec 0 x);
    cbn [app fold_left fst snd];
    repeat match goal with
           | |- Ok _ = Ok _ => f_equal
           | |- (_, _) = (_, _) => f_equal
           | |- addErr _ _ _ _ _ = addErr _ _ _ _ _ => f_equal
           end; lia.
Qed.




(** The buffer after one Atkinson pixel, as a [spread] of the error
    (buffered - chosen) with the weight 1/8. *)
Lemma atkinsonPixel_spread (palette : list rgb) (w h x y : nat) (d : list Z)
    (buffer : list float) :
  x < w -> y < h ->
  let idx := (y * w + x) * 4 in
  let r := rdF buffer idx in
  let g := rdF buffer (idx + 1) in
  let b := rdF buffer (idx + 2) in
  atkinsonPixel palette w h x y (d, buffer) =
    match findClosestColor r g b palette with
    | None => Throw TypeError
    | Some (nr, ng, nb) =>
        Ok (setRGB d idx (nr, ng, nb),
            spread (r - Z2f nr) (g - Z2f ng) (b - Z2f nb) (atkinsonTargets w h x y) buffer)
    end.
Proof.
  intros Hx Hy. cbv zeta.
  unfold atkinsonPixel, atkinsonTargets, atkinsonNeighbors, spread, pix.
  destruct (findClosestColor _ _ _ palette) as [[[nr ng] nb]|]; [|reflexivity].
  cbn [fold_left]. unfold atkinsonSpread.
  repeat match goal with
         | |- context [(?a <=? ?b)%Z] => destruct (Z.leb_spec a b); try lia; cbn [andb]
         | |- context [(?a <? ?b)%Z] => destruct (Z.ltb_spec a b); try lia; cbn [andb]
         | |- context [(?a <? ?b)%nat] => destruct (Nat.ltb_spec a b); try lia; cbn [andb]
         end;
    cbn [app fold_left fst snd];
    repeat match goal with
           | |- Ok _ = Ok _ => f_equal
           | |- (_, _) = (_, _) => f_equal
           | |- addErr _ _ _ _ _ = addErr _ _ _ _ _ => f_equal
           end; lia.
Qed.

Lemma atkinsonTargets_weight (w h x y nx ny : nat) :
  x < w -> y < h -> nx < w -> ny < h ->
  weightOf (pix w nx ny) (atkinsonTargets w h x y) = atkinsonWeight x y nx ny.
Proof.
  intros Hx Hy Hnx Hny. unfold atkinsonTargets, atkinsonWeight.
  change (1 / 8)%float with 0.125%float.
  destruct (Nat.ltb_spec (x + 1) w), (Nat.ltb_spec (x + 2) w), (Nat.ltb_spec (y + 1) h),
    (Nat.ltb_spec (y + 2) h), (Nat.ltb_spec 0 x); try lia;
    cbn [andb app weightOf fst snd]; rewrite ?pix_eqb by lia;
    repeat match goal with
           | |- context [(?a =? ?b)%nat] => destruct (Nat.eqb_spec a b); try lia
           end; cbn [andb orb]; try reflexivity; lia.
Qed.

Lemma atkinsonTargets_NoDup (w h x y : nat) :
  x < w -> y < h -> NoDup (map fst (atkinsonTargets w h x y)).
Proof.
  intros Hx Hy. unfold atkinsonTargets.
  destruct (Nat.ltb_spec (x + 1) w), (Nat.ltb_spec (x + 2) w), (Nat.ltb_spec (y + 1) h),
    (Nat.ltb_spec (y + 2) h), (Nat.ltb_spec 0 x); try lia;
    cbn [andb app map fst];
    repeat (apply NoDup_cons; split;
            [rewrite ?elem_of_cons, elem_of_nil; intros Hin;
             repeat match goal with
                    | H : _ \/ _ |- _ => destruct H as [H|H]
                    | H : pix _ _ _ = pix _ _ _ |- _ => apply pix_inj in H; [lia|lia|lia]
                    end; tauto|]);
    apply NoDup_nil_2.
Qed.

Lemma atkinsonTargets_bounds (w h x y : nat) (buffer : list float) :
  x < w -> y < h -> length buffer = 4 * (w * h) ->
  Forall (fun t => fst t * 4 + 3 < length buffer) (atkinsonTargets w h x y).
Proof.
  intros Hx Hy Hl. unfold atkinsonTargets.
  destruct (Nat.ltb_spec (x + 1) w), (Nat.ltb_spec (x + 2) w), (Nat.ltb_spec (y + 1) h),
    (Nat.ltb_spec (y + 2) h), (Nat.ltb_spec 0 x); try lia;
    cbn [andb app]; repeat constructor; cbn [fst];
    match goal with
    | |- pix w ?a ?b * 4 + 3 < _ => pose proof (pix_lt w h a b ltac:(lia) ltac:(lia)); lia
    end.
Qed.

End DiffusionFacts.


Module TraceFacts.
Import LoopFacts DiffusionFacts.








End TraceFacts.

(** ** Noise *)
Module NoiseFacts.
Import LoopFacts RangeFacts.

(** Adding a zero to a byte, clamping and storing gives the byte back. *)
Definition zeroNoiseCheck : bool :=
  forallb (fun p : Z * float =>
             (toUint8Clamp (clamp (snd p + 0)) =? fst p)%Z &&
             (toUint8Clamp (clamp (snd p + -0)) =? fst p)%Z)
          NearestFacts.byteTable.

Lemma zeroNoiseCheck_ok : zeroNoiseCheck = true.
Proof. vm_cast_no_check (eq_refl true). Qed.

Lemma zero_noise_byte (z : Z) (noise : float) :
  isByte z -> noise = 0%float \/ noise = (-0)%float ->
  toUint8Clamp (clamp (Z2f z + noise)) = z.
Proof.
  intros Hz Hn.
  pose proof (proj1 (forallb_forall _ _) zeroNoiseCheck_ok (z, Z2f z)
                (NearestFacts.byteTable_In z Hz)) as H.
  cbv beta in H. cbn [fst snd] in H.
  apply andb_prop in H as [H1 H2]. apply Z.eqb_eq in H1, H2.
  destruct Hn as [->| ->]; assumption.
Qed.

Lemma noiseData_length (random : nat -> float) (amount : Z) (d : list Z) :
  forall k, length (noiseData random k amount d) = length d.
Proof.
  induction d as [d Hshort|r g b a rest IH] using list4_ind; intros k.
  - destruct d as [|? [|? [|? [|? ?]]]]; simpl in *; try reflexivity; lia.
  - cbn [noiseData length]. now rewrite IH.
Qed.

Lemma noiseData_bytes (random : nat -> float) (amount : Z) (d : list Z) :
  forall k, Forall isByte d -> Forall isByte (noiseData random k amount d).
Proof.
  induction d as [d Hshort|r g b a rest IH] using list4_ind; intros k Hd.
  - destruct d as [|? [|? [|? [|? ?]]]]; simpl in *; try assumption; lia.
  - cbn [noiseData].
    inversion Hd as [|? ? _ Hd1]; subst. inversion Hd1 as [|? ? _ Hd2]; subst.
    inversion Hd2 as [|? ? _ Hd3]; subst. inversion Hd3 as [|? ? Ha Hd4]; subst.
    repeat (constructor; [first [apply BlendFacts.toUint8Clamp_byte|exact Ha]|]).
    now apply IH.
Qed.

(** Pixel [i] of the output: the noise of the [i]-th draw on the three
    colour cells, the alpha cell unchanged. *)
Lemma noiseData_lookup (random : nat -> float) (amount : Z) (d : list Z) :
  forall k i r g b,
  pixelAt d i = Some (r, g, b) -> 4 * i + 3 < length d ->
  let noise := ((random (k + i)%nat - 0.5) * Z2f amount * 2)%float in
  pixelAt (noiseData random k amount d) i =
    Some (toUint8Clamp (clamp (Z2f r + noise)),
          toUint8Clamp (clamp (Z2f g + noise)),
          toUint8Clamp (clamp (Z2f b + noise))) /\
  noiseData random k amount d !! (4 * i + 3) = d !! (4 * i + 3).
Proof.
  induction d as [d Hshort|r0 g0 b0 a0 rest IH] using list4_ind;
    intros k i r g b Hpx Hlen; [lia|].
  cbn [noiseData]. destruct i as [|i].
  - rewrite pixelAt_group_0 in *. injection Hpx as -> -> ->.
    rewrite Nat.add_0_r. split; reflexivity.
  - rewrite pixelAt_group_S in *.
    cbn [length] in Hlen.
    destruct (IH (S k) i r g b Hpx ltac:(lia)) as [E1 E2].
    replace (k + S i) with (S k + i) by lia.
    split; [exact E1|].
    replace (4 * S i + 3) with (S (S (S (S (4 * i + 3))))) by lia.
    exact E2.
Qed.

(** With the amount 0 nothing changes. *)
Lemma noiseData_zero (random : nat -> float) (d : list Z) :
  (forall k, (0 <=? random k)%float = true /\ (random k <? 1)%float = true) ->
  forall k, Forall isByte d -> noiseData random k 0 d = d.
Proof.
  intros Hrand.
  induction d as [d Hshort|r g b a rest IH] using list4_ind; intros k Hd.
  - destruct d as [|? [|? [|? [|? ?]]]]; simpl in *; try reflexivity; lia.
  - cbn [noiseData].
    inversion Hd as [|? ? Hr Hd1]; subst. inversion Hd1 as [|? ? Hg Hd2]; subst.
    inversion Hd2 as [|? ? Hb Hd3]; subst. inversion Hd3 as [|? ? Ha Hd4]; subst.
    destruct (Hrand k) as [H0 H1].
    pose proof (noise_zero (random k) H0 H1) as Hn. cbv zeta in Hn.
    rewrite !zero_noise_byte by assumption.
    now rewrite IH.
Qed.

End NoiseFacts.

(** ** Sample inputs *)
Definition black : rgb := (0, 0, 0)%Z.
Definition white : rgb := (255, 255, 255)%Z.
Definition gray2x2 : ImageData :=
  mkImageData [128; 128; 128; 255; 128; 128; 128; 255;
               128; 128; 128; 255; 128; 128; 128; 255]%Z 2 2.

Lemma gray2x2_wf : wfImage gray2x2.
Proof.
  split; [reflexivity|]. unfold gray2x2, isByte; simpl.
  repeat (constructor; [lia|]). constructor.
Qed.

Lemma blackWhite_wf : wfPalette [black; white].
Proof. unfold wfPalette, black, white, isByte. repeat (constructor; [lia|]). constructor. Qed.

(** ** The claims *)

(** A strategy result that keeps the dimensions of [img] and is made of
    palette colours only. *)
Definition sameSizeInPalette (img : ImageData) (palette : list rgb)
    (r : result ImageData) : Prop :=
  exists out, r = Ok out /\
    width out = width img /\ height out = height img /\
    length (data out) = length (data img) /\
    paletteOnly palette (data out) (width img * height img).

(** C1 — Palette membership. For every well-formed raster and every
    non-empty palette of byte colours, each of the four strategies
    (quantize, Floyd-Steinberg, Atkinson, ordered with a matrix size of 2, 4
    or 8) returns a raster of the same width and height in which the RGB
    triple of every pixel is an entry of the palette. *)
Theorem palette_membership (img : ImageData) (palette : list rgb) (matrixSize : Z) :
  wfImage img -> wfPalette palette -> palette <> [] ->
  In matrixSize [2; 4; 8]%Z ->
  sameSizeInPalette img palette (quantize img palette) /\
  sameSizeInPalette img palette (floydSteinberg img palette) /\
  sameSizeInPalette img palette (atkinson img palette) /\
  sameSizeInPalette img palette (orderedDither img palette matrixSize).
Proof.
  intros Himg Hpal Hne Hms. unfold sameSizeInPalette.
  pose proof DitherFacts.orderedCheck_sizes as Hchk.
  apply andb_prop in Hchk as [Hchk H8]. apply andb_prop in Hchk as [H2 H4].
  repeat split.
  - destruct (DitherFacts.quantize_palette img palette Himg Hpal Hne)
      as (out & E & Hw & Hh & Hl & Hp). eauto 10.
  - destruct (DitherFacts.floydSteinberg_palette img palette Himg Hpal Hne)
      as (out & E & Hw & Hh & [Hl _] & Hp).
    exists out. destruct Himg as [Hl0 _]. repeat split; auto; lia.
  - destruct (DitherFacts.atkinson_palette img palette Himg Hpal Hne)
      as (out & E & Hw & Hh & [Hl _] & Hp).
    exists out. destruct Himg as [Hl0 _]. repeat split; auto; lia.
  - assert (Hn : exists n, matrixSize = Z.of_nat n /\ DitherFacts.orderedCheck n = true /\ 0 < n).
    { simpl in Hms. destruct Hms as [<-|[<-|[<-|[]]]];
        [exists 2|exists 4|exists 8];
        (split; [reflexivity|split; [assumption|lia]]). }
    destruct Hn as (n & -> & Hc & Hn).
    destruct (DitherFacts.orderedDither_palette img palette n Hc Hn Himg Hpal Hne)
      as (out & E & Hw & Hh & [Hl _] & Hp).
    exists out. destruct Himg as [Hl0 _]. repeat split; auto; lia.
Qed.

Lemma palette_membership_witness :
  sameSizeInPalette gray2x2 [black; white] (quantize gray2x2 [black; white]) /\
  sameSizeInPalette gray2x2 [black; white] (floydSteinberg gray2x2 [black; white]) /\
  sameSizeInPalette gray2x2 [black; white] (atkinson gray2x2 [black; white]) /\
  sameSizeInPalette gray2x2 [black; white] (orderedDither gray2x2 [black; white] 4).
Proof.
  apply (palette_membership gray2x2 [black; white] 4).
  - exact gray2x2_wf.
  - exact blackWhite_wf.
  - discriminate.
  - simpl. auto.
Defined.

Definition blackWhite2x1 : ImageData :=
  mkImageData [0; 0; 0; 255; 255; 255; 255; 255]%Z 2 1.

(** C7 — Idempotence of plain quantization. For every palette of byte
    colours and every well-formed raster whose pixels all carry palette
    colours, [quantize] returns the raster unchanged (the same bytes and
    dimensions); distinctness of the palette entries is not needed. *)
Theorem quantize_idempotent (img : ImageData) (palette : list rgb) :
  wfImage img -> wfPalette palette ->
  paletteOnly palette (data img) (width img * height img) ->
  quantize img palette = Ok img.
Proof. exact (NearestFacts.quantize_fixpoint img palette). Qed.

Lemma quantize_idempotent_witness :
  quantize blackWhite2x1 [black; white] = Ok blackWhite2x1.
Proof.
  apply (quantize_idempotent blackWhite2x1 [black; white]).
  - split; [reflexivity|]. unfold blackWhite2x1, isByte; simpl.
    repeat (constructor; [lia|]). constructor.
  - exact blackWhite_wf.
  - intros i Hi. simpl in Hi.
    destruct i as [|[|i]]; [exists black|exists white|lia];
      (split; [|reflexivity]); unfold black, white;
      [apply list_elem_of_here|apply list_elem_of_further, list_elem_of_here].
Defined.

(** C10 — Range of the blend-mode pixel function. For every mode name (the
    twelve listed ones, and any other name, which falls back to normal) and
    all byte inputs, the normalized result lies in [0,1] and [blendPixel]
    returns a byte, i.e. an integer of [0,255]. *)
Theorem blendPixel_in_byte_range (base blend : Z) (mode : string) :
  isByte base -> isByte blend ->
  let n := blendNormalized mode (Z2f base / 255) (Z2f blend / 255) in
  (0 <=? n)%float = true /\ (n <=? 1)%float = true /\
  exists z, isByte z /\ blendPixel (Z2f base) (Z2f blend) mode = Z2f z.
Proof. exact (BlendFacts.blendPixel_byte base blend mode). Qed.

Lemma blendPixel_in_byte_range_witness :
  let n := blendNormalized "soft-light" (Z2f 200 / 255) (Z2f 30 / 255) in
  (0 <=? n)%float = true /\ (n <=? 1)%float = true /\
  exists z, isByte z /\ blendPixel (Z2f 200) (Z2f 30) "soft-light" = Z2f z.
Proof.
  apply (blendPixel_in_byte_range 200 30 "soft-light"); unfold isByte; lia.
Defined.

(** C8 — Blend-mode edge and boundary values. For every pair of bytes and
    each of the twelve modes [blendPixel] returns a byte that is an integer
    nearest to the exact value of the formula of the mode, taken on the
    real numbers base / 255 and overlay / 255 and rescaled by 255 (the
    rounding errors of the Numbers never change the result by more than the
    choice between the two neighbours of an exact tie). Color-dodge gives
    1.0 when the normalized overlay is 1 and color-burn gives 0.0 when it is
    0 (for any base, no quotient is taken); normal returns the overlay value
    unchanged; and the boundary inputs give fixed outputs, among them
    multiply(0,255)=0, screen(255,0)=255 and difference(10,200)=190. *)
Theorem blendPixel_edges_and_boundaries :
  (forall base blend mode, isByte base -> isByte blend -> In mode BLEND_MODES ->
     exists r, isByte r /\ blendPixel (Z2f base) (Z2f blend) mode = Z2f r /\
       BlendExact.nearestInteger r (BlendExact.blendExact mode base blend)) /\
  (forall b, blendNormalized "color-dodge" b 1 = 1%float) /\
  (forall b, blendNormalized "color-burn" b 0 = 0%float) /\
  (forall base, blendPixel base 255 "color-dodge" = 255%float) /\
  (forall base, blendPixel base 0 "color-burn" = 0%float) /\
  (forall b l, blendNormalized "normal" b l = l) /\
  (forall base blend, isByte blend -> blendPixel base (Z2f blend) "normal" = Z2f blend) /\
  blendPixel 0 255 "multiply" = 0%float /\
  blendPixel 255 0 "screen" = 255%float /\
  blendPixel 10 200 "difference" = 190%float /\
  map (fun m => (m, blendPixel 0 0 m, blendPixel 255 255 m, blendPixel 0 255 m)) BLEND_MODES =
    [("normal", 0, 255, 255); ("multiply", 0, 255, 0); ("screen", 0, 255, 255);
     ("overlay", 0, 255, 0); ("soft-light", 0, 255, 0); ("hard-light", 0, 255, 255);
     ("color-dodge", 0, 255, 255); ("color-burn", 0, 255, 0); ("difference", 0, 0, 255);
     ("exclusion", 0, 0, 255); ("lighten", 0, 255, 255); ("darken", 0, 255, 0)]%float%string.
Proof.
  split; [intros base blend mode Hb Hl Hm; now apply BlendExact.blendPixel_nearest|].
  split; [reflexivity|].
  split; [reflexivity|].
  split; [intros base; vm_compute; reflexivity|].
  split; [intros base; vm_compute; reflexivity|].
  split; [reflexivity|].
  split; [intros base blend; apply BlendFacts.blendPixel_normal|].
  repeat split; vm_compute; reflexivity.
Qed.

Lemma blendPixel_edges_and_boundaries_witness :
  (exists r, isByte r /\ blendPixel (Z2f 100) (Z2f 100) "multiply" = Z2f r /\
     BlendExact.nearestInteger r (BlendExact.blendExact "multiply" 100 100)) /\
  blendPixel 77 (Z2f 200) "normal" = Z2f 200.
Proof.
  destruct blendPixel_edges_and_boundaries as (Hn & _ & _ & _ & _ & _ & H & _).
  split.
  - apply Hn; [unfold isByte; lia|unfold isByte; lia|]. cbn. tauto.
  - apply (H 77%float 200%Z). unfold isByte. lia.
Defined.

(** The posterize the claim describes: the mode-specific pass always runs
    (as it does for a null palette), then the palette pass. *)
Definition posterize_as_claimed (imageData : ImageData) (levels : Z) (mode : string)
    (palette : list rgb) : result ImageData :=
  let levels := Z.max 2 (Z.min 16 levels) in
  d ← posterizeStage (data imageData) levels mode None;
  d ← mapPixels (paletteMapPixel (sortPaletteByLuminance palette)) d;
  Ok (mkImageData d (width imageData) (height imageData)).

Definition gray : rgb := (128, 128, 128)%Z.
Definition darkPixel : ImageData := mkImageData [100; 100; 100; 255]%Z 1 1.

(** C5, the claim as stated fails: in luminance mode with a palette the
    source skips the luminance pass, so the pixel (100,100,100) is mapped by
    its own luminance 100 to the middle entry, while posterizing first (two
    levels) would darken it to black and map it to the first entry. *)
Lemma posterize_luminance_pass_skipped :
  posterize darkPixel 2 "luminance" (Some [black; gray; white])
    = Ok (mkImageData [128; 128; 128; 255]%Z 1 1) /\
  posterize_as_claimed darkPixel 2 "luminance" [black; gray; white]
    = Ok (mkImageData [0; 0; 0; 255]%Z 1 1) /\
  posterize darkPixel 2 "luminance" (Some [black; gray; white])
    <> posterize_as_claimed darkPixel 2 "luminance" [black; gray; white].
Proof.
  assert (E1 : posterize darkPixel 2 "luminance" (Some [black; gray; white])
                 = Ok (mkImageData [128; 128; 128; 255]%Z 1 1)) by (vm_compute; reflexivity).
  assert (E2 : posterize_as_claimed darkPixel 2 "luminance" [black; gray; white]
                 = Ok (mkImageData [0; 0; 0; 255]%Z 1 1)) by (vm_compute; reflexivity).
  split; [exact E1|]. split; [exact E2|]. rewrite E1, E2. discriminate.
Qed.

(** What [posterize] does with a non-empty palette: [mid] is the raster
    after the mode-specific pass, which runs in the per-channel and artistic
    modes only; every pixel of the result is the entry of the
    luminance-sorted palette at index round(luminance/255 * (n-1)) clamped
    to [0, n-1], for the luminance of the same pixel of [mid]. *)
Definition posterizePaletteSpec (img : ImageData) (levels : Z) (mode : string)
    (palette : list rgb) : Prop :=
  let step := (255 / Z2f (Z.max 2 (Z.min 16 levels) - 1))%float in
  let mean := (Z2f (sumRGB (data img)) / (Z2f (Z.of_nat (length (data img))) * 0.75))%float in
  let sorted := sortPaletteByLuminance palette in
  let n := Z.of_nat (length sorted) in
  StronglySorted (fun a b => (lumOf a <= lumOf b)%Z) sorted /\ sorted ≡ₚ palette /\
  exists mid out,
    (if (mode =? "per-channel")%string then mapPixels (posterizeChannelPixel step) (data img)
     else if (mode =? "artistic")%string
          then mapPixels (posterizeArtisticPixel step mean) (data img)
          else Ok (data img)) = Ok mid /\
    posterize img levels mode (Some palette) = Ok out /\
    width out = width img /\ height out = height img /\
    forall i, i < width img * height img ->
      exists r g b j c, pixelAt mid i = Some (r, g, b) /\ (0 <= j <= n - 1)%Z /\
        Math_maxI (Int 0) (Math_minI (Int (n - 1))
          (Math_roundI (Z2f (getLuminance r g b) / 255 * Z2f (n - 1))%float)) = Int j /\
        sorted !! Z.to_nat j = Some c /\ pixelAt (data out) i = Some c.

(** C5 (amended) — Posterize with palette. For every well-formed raster,
    every level count (clamped to [2,16]) and every mode, when a non-empty
    byte palette is supplied: in the per-channel and artistic modes the
    mode-specific pass runs first, in luminance mode (and for any other
    mode name) no mode-specific pass runs; then the final pass replaces every
    pixel by the entry of the luminance-sorted palette at index
    round(luminance/255 * (n-1)) clamped to [0, n-1], where the luminance is
    that of the pixel after the mode-specific pass. *)
Theorem posterize_with_palette (img : ImageData) (levels : Z) (mode : string)
    (palette : list rgb) :
  wfImage img -> wfPalette palette -> palette <> [] ->
  posterizePaletteSpec img levels mode palette.
Proof.
  intros Himg Hpal Hne. unfold posterizePaletteSpec. cbv zeta.
  split; [apply PosterizeFacts.sortPaletteByLuminance_sorted|].
  split; [apply PaletteFacts.sortPaletteByLuminance_perm|].
  destruct (PosterizeFacts.posterize_palette_spec img levels mode palette Himg Hpal Hne)
    as (mid & out & Emid & Eout & Hw & Hh & _ & _ & Hpix).
  exists mid, out. split; [|auto].
  unfold posterizeStage in Emid. cbv zeta in Emid.
  rewrite andb_false_r in Emid. exact Emid.
Qed.

Lemma posterize_with_palette_witness :
  posterizePaletteSpec darkPixel 2 "luminance" [black; gray; white].
Proof.
  apply (posterize_with_palette darkPixel 2 "luminance" [black; gray; white]).
  - split; [reflexivity|]. unfold darkPixel, isByte; simpl.
    repeat (constructor; [lia|]). constructor.
  - unfold wfPalette, black, gray, white, isByte. repeat (constructor; [lia|]). constructor.
  - discriminate.
Defined.

(** A strategy result that keeps the dimensions of [img] and whose pixels
    all carry the colour [c]. *)
Definition paintedWith (c : rgb) (img : ImageData) (r : result ImageData) : Prop :=
  exists out, r = Ok out /\
    width out = width img /\ height out = height img /\
    forall i, i < width img * height img -> pixelAt (data out) i = Some c.

Definition oneColour : Settings :=
  mkSettings ["#000000"]%string "floyd-steinberg" 100 4 false 4 "luminance" true.

(** C4, the claim as stated fails: a palette of one colour is accepted by
    every strategy and by the pipeline, which paint the raster with it. *)
Lemma one_colour_palette_accepted :
  quantize gray2x2 [black]
    = Ok (mkImageData [0; 0; 0; 255; 0; 0; 0; 255; 0; 0; 0; 255; 0; 0; 0; 255]%Z 2 2) /\
  floydSteinberg gray2x2 [black]
    = Ok (mkImageData [0; 0; 0; 255; 0; 0; 0; 255; 0; 0; 0; 255; 0; 0; 0; 255]%Z 2 2) /\
  atkinson gray2x2 [black]
    = Ok (mkImageData [0; 0; 0; 255; 0; 0; 0; 255; 0; 0; 0; 255; 0; 0; 0; 255]%Z 2 2) /\
  orderedDither gray2x2 [black] 4
    = Ok (mkImageData [0; 0; 0; 255; 0; 0; 0; 255; 0; 0; 0; 255; 0; 0; 0; 255]%Z 2 2) /\
  process (Some gray2x2) oneColour
    = Ok (mkImageData [0; 0; 0; 255; 0; 0; 0; 255; 0; 0; 0; 255; 0; 0; 0; 255]%Z 2 2).
Proof. repeat split; vm_compute; reflexivity. Qed.

(** C4 (amended) — Small palettes. No palette size is rejected by a check
    of the code. With a palette of exactly one byte colour every strategy
    succeeds and paints every pixel with that colour; steps 1 and 2 of the
    pipeline with one colour always succeed, and paint every pixel with
    that colour whenever the dithered raster is not blended back (a dither
    strength of 100 or more, or a positive strength with the kind "none").
    With an empty palette every strategy throws a TypeError (the
    destructuring of [undefined]) on a raster that has at least one pixel,
    and so does the pipeline whenever it calls a strategy (a positive
    strength, and a kind other than "none" or no posterization to the
    palette). *)
Theorem small_palette_behaviour (img : ImageData) (c : rgb) (matrixSize : Z)
    (s : Settings) (hex : string) :
  wfImage img -> NearestFacts.byteColor c -> In matrixSize [2; 4; 8]%Z ->
  (paintedWith c img (quantize img [c]) /\
   paintedWith c img (floydSteinberg img [c]) /\
   paintedWith c img (atkinson img [c]) /\
   paintedWith c img (orderedDither img [c] matrixSize)) /\
  (colors s = [hex] -> In (orderedMatrixSize s) [2; 4; 8]%Z ->
   (exists out, process (Some img) s = Ok out) /\
   ((100 <= ditherStrength s)%Z \/
    ((0 < ditherStrength s)%Z /\ ditherType s = "none"%string) ->
    paintedWith (hexToRgb hex) img (process (Some img) s))) /\
  (0 < width img -> 0 < height img ->
   (quantize img [] = Throw TypeError /\
    floydSteinberg img [] = Throw TypeError /\
    atkinson img [] = Throw TypeError /\
    orderedDither img [] matrixSize = Throw TypeError) /\
   (colors s = [] -> (0 < ditherStrength s)%Z ->
    ditherType s <> "none"%string \/ posterizeEnabled s = false \/
      posterizeUsePalette s = false ->
    process (Some img) s = Throw TypeError)).
Proof.
  intros Himg Hc Hms.
  assert (Hpal : wfPalette [c]) by (constructor; [exact Hc|constructor]).
  assert (Hne : [c] <> []) by discriminate.
  assert (Hone : forall c' r,
            (exists out, r = Ok out /\ width out = width img /\ height out = height img /\
               paletteOnly [c'] (data out) (width img * height img)) ->
            paintedWith c' img r).
  { intros c' r (out & E & Hw & Hh & Hp). exists out. repeat split; auto.
    intros i Hi. destruct (Hp i Hi) as (c'' & Hin & Hpx).
    apply list_elem_of_singleton in Hin. now subst c''. }
  split; [|split].
  - pose proof DitherFacts.orderedCheck_sizes as Hchk.
    apply andb_prop in Hchk as [Hchk C8]. apply andb_prop in Hchk as [C2 C4].
    assert (Hn : exists n, matrixSize = Z.of_nat n /\ DitherFacts.orderedCheck n = true /\ 0 < n).
    { simpl in Hms. destruct Hms as [<-|[<-|[<-|[]]]];
        [exists 2|exists 4|exists 8];
        (split; [reflexivity|split; [assumption|lia]]). }
    clear C2 C4 C8. destruct Hn as (n & -> & Hchk & Hn).
    repeat split; apply Hone.
    + destruct (DitherFacts.quantize_palette img [c] Himg Hpal Hne)
        as (out & E & Hw & Hh & Hl' & Hp). exists out. auto.
    + destruct (DitherFacts.floydSteinberg_palette img [c] Himg Hpal Hne)
        as (out & E & Hw & Hh & _ & Hp). exists out. auto.
    + destruct (DitherFacts.atkinson_palette img [c] Himg Hpal Hne)
        as (out & E & Hw & Hh & _ & Hp). exists out. auto.
    + destruct (DitherFacts.orderedDither_palette img [c] n Hchk Hn Himg Hpal Hne)
        as (out & E & Hw & Hh & _ & Hp). exists out. auto.
  - intros Hcol Hsz. cbn [process]. split.
    + apply PipelineFacts.processSteps_total; auto. rewrite Hcol. discriminate.
    + intros Hst. apply Hone.
      destruct (RunFacts.processSteps_unblended s img Himg
                  ltac:(rewrite Hcol; discriminate) Hsz Hst) as (out & E & Hw & Hh & Hp).
      rewrite Hcol in Hp. exists out. auto.
  - intros Hw Hh. split.
    + repeat split.
      * now apply PipelineFacts.quantize_empty.
      * now apply PipelineFacts.floydSteinberg_empty.
      * now apply PipelineFacts.atkinson_empty.
      * now apply PipelineFacts.orderedDither_empty.
    + intros Hcol Hst Hkind. cbn [process].
      now apply RunFacts.processSteps_empty.
Qed.

Lemma small_palette_behaviour_witness :
  paintedWith black gray2x2 (floydSteinberg gray2x2 [black]) /\
  paintedWith (hexToRgb "#000000") gray2x2 (process (Some gray2x2) oneColour).
Proof.
  destruct (small_palette_behaviour gray2x2 black 4 oneColour "#000000")
    as ((_ & Hfs & _) & Hrun & _).
  - exact gray2x2_wf.
  - unfold NearestFacts.byteColor, black, isByte. lia.
  - simpl. auto.
  - split; [exact Hfs|].
    apply Hrun; [reflexivity|simpl; auto|left; simpl; lia].
Defined.

(** The dither stage the claim describes: the clean raster is saved
    immediately before dithering, i.e. after the posterization of step 1. *)
Definition processSteps_as_claimed (s : Settings) (working : ImageData) : result ImageData :=
  let palette := map hexToRgb (colors s) in
  imageData ← posterizeStep s palette working;
  let cleanPreDither := imageData in
  if (0 <? ditherStrength s)%Z then
    imageData ← ditherSwitch s palette imageData;
    if (ditherStrength s <? 100)%Z && negb (ditherType s =? "none")%string then
      let undithered :=
        mkImageData (data cleanPreDither) (width imageData) (height imageData) in
      let blend := (Z2f (100 - ditherStrength s) / 100)%float in
      Ok (blendWithOriginal imageData undithered blend)
    else Ok imageData
  else Ok imageData.

Definition halfStrength : Settings :=
  mkSettings ["#000000"; "#ffffff"]%string "floyd-steinberg" 50 4 true 2 "per-channel" false.

(** The settings of [halfStrength] at another dither strength. *)
Definition atStrength (strength : Z) : Settings :=
  mkSettings ["#000000"; "#ffffff"]%string "floyd-steinberg" strength 4 true 2 "per-channel" false.

(** C3 — Strength blending, where the code leaves the claim. With
    posterization enabled the clean raster of the blend is the working
    raster as it was before posterization, not the raster immediately before
    dithering. The pixel (100,100,100) is posterized to black and dithered
    to black; at strength 50 the source blends it half-way with the
    unposterized 100 and returns 50, where the blend against the pre-dither
    raster that the claim describes returns 0. With the same settings
    strength 0 returns the posterized pixel 0 and strength 100 the dithered
    pixel 0, while strength 1 returns 99 and strength 99 returns 1. *)
Lemma blend_uses_unposterized_raster :
  processSteps halfStrength darkPixel = Ok (mkImageData [50; 50; 50; 255]%Z 1 1) /\
  processSteps_as_claimed halfStrength darkPixel = Ok (mkImageData [0; 0; 0; 255]%Z 1 1) /\
  processSteps halfStrength darkPixel <> processSteps_as_claimed halfStrength darkPixel /\
  halfStrength = atStrength 50 /\
  posterizeStep halfStrength (map hexToRgb (colors halfStrength)) darkPixel
    = Ok (mkImageData [0; 0; 0; 255]%Z 1 1) /\
  processSteps (atStrength 0) darkPixel = Ok (mkImageData [0; 0; 0; 255]%Z 1 1) /\
  processSteps (atStrength 1) darkPixel = Ok (mkImageData [99; 99; 99; 255]%Z 1 1) /\
  processSteps (atStrength 99) darkPixel = Ok (mkImageData [1; 1; 1; 255]%Z 1 1) /\
  processSteps (atStrength 100) darkPixel = Ok (mkImageData [0; 0; 0; 255]%Z 1 1).
Proof.
  assert (E1 : processSteps halfStrength darkPixel
                 = Ok (mkImageData [50; 50; 50; 255]%Z 1 1)) by (vm_compute; reflexivity).
  assert (E2 : processSteps_as_claimed halfStrength darkPixel
                 = Ok (mkImageData [0; 0; 0; 255]%Z 1 1)) by (vm_compute; reflexivity).
  split; [exact E1|]. split; [exact E2|]. split; [rewrite E1, E2; discriminate|].
  repeat split; vm_compute; reflexivity.
Qed.



(** The Atkinson step the claim describes: the colour is chosen for the
    buffered value, but the error that is propagated is taken from the
    unmodified input value [original] of the pixel. *)
Definition atkinsonPixel_as_claimed (palette : list rgb) (original : list Z)
    (w h x y : nat) (st : list Z * list float) : result (list Z * list float) :=
  let '(d, buffer) := st in
  let idx := ((y * w + x) * 4)%nat in
  let r := rdF buffer idx in
  let g := rdF buffer (idx + 1) in
  let b := rdF buffer (idx + 2) in
  match findClosestColor r g b palette with
  | None => Throw TypeError
  | Some (nr, ng, nb) =>
      let d := setRGB d idx (nr, ng, nb) in
      let errR := ((rdB original idx - Z2f nr) * 0.125)%float in
      let errG := ((rdB original (idx + 1)%nat - Z2f ng) * 0.125)%float in
      let errB := ((rdB original (idx + 2)%nat - Z2f nb) * 0.125)%float in
      Ok (d, fold_left (atkinsonSpread w h x y errR errG errB) atkinsonNeighbors buffer)
  end.

Definition atkinson_as_claimed (imageData : ImageData) (palette : list rgb)
    : result ImageData :=
  let w := width imageData in
  let h := height imageData in
  let buffer := map (fun v => fround (Z2f v)) (data imageData) in
  '(d, _) ← forPixels w h (atkinsonPixel_as_claimed palette (data imageData) w h)
              (data imageData, buffer);
  Ok (mkImageData d w h).

Definition ramp3x1 : ImageData :=
  mkImageData [100; 100; 100; 255; 120; 120; 120; 255; 131; 131; 131; 255]%Z 3 1.

(** C2, the claim as stated fails: the error that [atkinson] propagates is
    computed from the buffered value of the pixel, which includes the error
    received from earlier pixels, not from its unmodified input value. On
    the row 100, 120, 131 with the palette black, white: pixel 0 becomes
    black and hands 12.5 to both neighbours; pixel 1 (buffered 132.5)
    becomes white and hands (132.5 - 255) / 8 = -15.3125 to pixel 2, which
    then holds 128.1875 and becomes white. With the error of pixel 1 taken
    from the input value, (120 - 255) / 8 = -16.875, pixel 2 would hold
    126.625 and become black. *)
Lemma atkinson_error_from_buffer :
  atkinson ramp3x1 [black; white] =
    Ok (mkImageData [0; 0; 0; 255; 255; 255; 255; 255; 255; 255; 255; 255]%Z 3 1) /\
  atkinson_as_claimed ramp3x1 [black; white] =
    Ok (mkImageData [0; 0; 0; 255; 255; 255; 255; 255; 0; 0; 0; 255]%Z 3 1) /\
  atkinson ramp3x1 [black; white] <> atkinson_as_claimed ramp3x1 [black; white].
Proof.
  assert (E1 : atkinson ramp3x1 [black; white] =
               Ok (mkImageData [0; 0; 0; 255; 255; 255; 255; 255; 255; 255; 255; 255]%Z 3 1))
    by (vm_compute; reflexivity).
  assert (E2 : atkinson_as_claimed ramp3x1 [black; white] =
               Ok (mkImageData [0; 0; 0; 255; 255; 255; 255; 255; 0; 0; 0; 255]%Z 3 1))
    by (vm_compute; reflexivity).
  split; [exact E1|]. split; [exact E2|]. rewrite E1, E2. discriminate.
Qed.

(** C2 (amended) — Atkinson dithering. For every raster and non-empty
    palette, the error propagated from pixel (x, y) equals
    (buffered - chosen) * 1/8: one eighth of the difference between the
    buffered value of the pixel (its input value plus the error received
    from earlier pixels) and the chosen palette colour, added to each of the
    six neighbours (x+1, y), (x+2, y), (x-1, y+1), (x, y+1), (x+1, y+1) and
    (x, y+2) that lies in the raster; neighbours outside the raster are
    skipped and every other cell is left as it was. The six weights add up
    to 6/8, so 2/8 of the error is discarded. *)
Theorem atkinson_error_distribution (palette : list rgb) (w h x y : nat)
    (d : list Z) (buffer : list float) :
  palette <> [] -> x < w -> y < h -> length buffer = 4 * (w * h) ->
  let idx := pix w x y * 4 in
  let r := rdF buffer idx in
  let g := rdF buffer (idx + 1) in
  let b := rdF buffer (idx + 2) in
  (* the scan, and the buffer it starts from *)
  (forall img,
     atkinson img palette =
     ('(d', _) ← forEach (rowMajor (width img) (height img))
                  (fun p => atkinsonPixel palette (width img) (height img) (fst p) (snd p))
                  (data img, map (fun v => fround (Z2f v)) (data img));
      Ok (mkImageData d' (width img) (height img)))) /\
  (* six neighbours with weight 1/8 each: 6/8 of the error *)
  length atkinsonNeighbors = 6 /\
  fold_left (fun acc _ => (acc + 1 / 8)%float) atkinsonNeighbors 0%float = (1 - 2 / 8)%float /\
  (forall nx ny,
     atkinsonWeight x y nx ny <> None <->
     (Z.of_nat ny - Z.of_nat y, Z.of_nat nx - Z.of_nat x)%Z ∈ atkinsonNeighbors) /\
  (* one step of the scan *)
  exists nr ng nb buffer',
    (nr, ng, nb) ∈ palette /\
    findClosestColor r g b palette = Some (nr, ng, nb) /\
    atkinsonPixel palette w h x y (d, buffer) = Ok (setRGB d idx (nr, ng, nb), buffer') /\
    length buffer' = length buffer /\
    forall nx ny c, nx < w -> ny < h -> c < 4 ->
      buffer' !! (pix w nx ny * 4 + c) =
      match atkinsonWeight x y nx ny with
      | Some weight =>
          if decide (c < 3)
          then Some (fround (rdF buffer (pix w nx ny * 4 + c) +
                             channelOf c (r - Z2f nr) (g - Z2f ng) (b - Z2f nb) * weight)%float)
          else buffer !! (pix w nx ny * 4 + c)
      | None => buffer !! (pix w nx ny * 4 + c)
      end.
Proof.
  intros Hne Hx Hy Hlen idx r g b.
  split; [|split; [|split; [|split]]].
  - intros img. unfold atkinson.
    rewrite DiffusionFacts.forPixels_rowMajor. reflexivity.
  - reflexivity.
  - reflexivity.
  - intros nx ny. unfold atkinsonWeight, atkinsonNeighbors.
    rewrite !elem_of_cons, elem_of_nil.
    repeat match goal with
           | |- context [(?a =? ?b)%nat] => destruct (Nat.eqb_spec a b)
           end; cbn [andb orb]; split; intros H; try congruence;
      try (exfalso;
           repeat match goal with
                  | H : _ \/ _ |- _ => destruct H as [H|H]
                  | H : (_, _) = (_, _) |- _ => inversion H; clear H
                  end; lia);
      subst;
      repeat match goal with
             | |- ?p = ?q \/ _ => first [left; f_equal; lia | right]
             end.
  - destruct (PaletteFacts.findClosestColor_in r g b palette Hne)
      as ([[nr ng] nb] & Hin & Hc).
    exists nr, ng, nb.
    exists (spread (r - Z2f nr) (g - Z2f ng) (b - Z2f nb) (atkinsonTargets w h x y) buffer).
    split; [exact Hin|]. split; [exact Hc|]. split; [|split].
    + pose proof (DiffusionFacts.atkinsonPixel_spread palette w h x y d buffer Hx Hy) as E.
      cbv zeta in E. fold (pix w x y) in E. fold idx in E. fold r g b in E.
      rewrite Hc in E. exact E.
    + apply DiffusionFacts.spread_length.
    + intros nx ny c Hnx Hny Hc3.
      rewrite DiffusionFacts.spread_lookup.
      * rewrite DiffusionFacts.atkinsonTargets_weight by assumption. reflexivity.
      * now apply DiffusionFacts.atkinsonTargets_NoDup.
      * now apply DiffusionFacts.atkinsonTargets_bounds.
      * exact Hc3.
Qed.

Lemma atkinson_error_distribution_witness :
  let buffer := map (fun v => fround (Z2f v)) (data ramp3x1) in
  exists nr ng nb buffer',
    atkinsonPixel [black; white] 3 1 0 0 (data ramp3x1, buffer) =
      Ok (setRGB (data ramp3x1) 0 (nr, ng, nb), buffer') /\
    buffer' !! (pix 3 2 0 * 4 + 0) =
      Some (fround (rdF buffer (pix 3 2 0 * 4 + 0) + (rdF buffer 0 - Z2f nr) * (1 / 8))%float).
Proof.
  intros buffer.
  destruct (atkinson_error_distribution [black; white] 3 1 0 0 (data ramp3x1) buffer)
    as (_ & _ & _ & _ & nr & ng & nb & buffer' & _ & _ & Hstep & _ & Hcells);
    [discriminate|lia|lia|reflexivity|].
  exists nr, ng, nb, buffer'. split; [exact Hstep|].
  apply (Hcells 2 0 0); lia.
Defined.

(** C9 — Noise. For every well-formed raster, every integer amount >= 0 and
    every sequence of draws in [0,1), pixel number i gets the single value
    n = (draw i - 1/2) * amount * 2: n lies in [-amount, amount] and, for
    amount > 0, in [-amount, amount); n is added to the R, G and B cells of
    the pixel (the same n for the three channels), each sum is clamped to
    [0,255] and stored as a byte, and the alpha cell is kept. With amount 0
    the value n is a zero and the output raster equals the input raster. *)
Theorem addNoise_single_draw (random : nat -> float) (img : ImageData) (amount : Z) :
  wfImage img -> (0 <= amount < 2 ^ 63)%Z ->
  (forall k, (0 <=? random k)%float = true /\ (random k <? 1)%float = true) ->
  let noise k := ((random k - 0.5) * Z2f amount * 2)%float in
  let out := addNoise random img amount in
  width out = width img /\ height out = height img /\ wfImage out /\
  (* the value of a pixel lies in [-amount, amount) *)
  (forall k, (- Z2f amount <=? noise k)%float = true /\
             (noise k <=? Z2f amount)%float = true /\
             ((0 < amount)%Z -> (noise k <? Z2f amount)%float = true)) /\
  (* one value per pixel, added to R, G and B, each sum clamped *)
  (forall i r g b,
     i < width img * height img -> pixelAt (data img) i = Some (r, g, b) ->
     pixelAt (data out) i =
       Some (toUint8Clamp (clamp (Z2f r + noise i)),
             toUint8Clamp (clamp (Z2f g + noise i)),
             toUint8Clamp (clamp (Z2f b + noise i))) /\
     data out !! (4 * i + 3) = data img !! (4 * i + 3)) /\
  (* amount 0 *)
  (amount = 0%Z ->
   (forall k, noise k = 0%float \/ noise k = (-0)%float) /\ out = img).
Proof.
  intros [Hlen Hbytes] Ha Hrand noise out.
  split; [reflexivity|]. split; [reflexivity|]. split; [|split; [|split]].
  - split; cbn [out addNoise data width height].
    + now rewrite NoiseFacts.noiseData_length.
    + now apply NoiseFacts.noiseData_bytes.
  - intros k. destruct (Hrand k) as [H0 H1].
    destruct (Z.eq_dec amount 0%Z) as [->|Hne].
    + destruct (RangeFacts.noise_zero (random k) H0 H1) as [E|E];
        unfold noise; cbv zeta in E; rewrite E;
        (split; [reflexivity|split; [reflexivity|lia]]).
    + destruct (RangeFacts.noise_interval (random k) amount H0 H1 ltac:(lia)) as [Hlo Hhi].
      cbv zeta in Hlo, Hhi. fold (noise k) in Hlo, Hhi.
      split; [exact Hlo|]. split; [|intros _; exact Hhi].
      rewrite FloatAxioms.leb_spec. rewrite FloatAxioms.ltb_spec in Hhi.
      unfold SFleb. unfold SFltb in Hhi.
      destruct (SFcompare _ _) as [[]|]; try discriminate; reflexivity.
  - intros i r g b Hi Hpx. cbn [out addNoise data].
    apply (NoiseFacts.noiseData_lookup random amount (data img) 0 i r g b Hpx). lia.
  - intros ->. split.
    + intros k. destruct (Hrand k) as [H0 H1].
      exact (RangeFacts.noise_zero (random k) H0 H1).
    + unfold out, addNoise. rewrite NoiseFacts.noiseData_zero by assumption.
      destruct img; reflexivity.
Qed.

Lemma addNoise_single_draw_witness :
  let noise := ((0.25 - 0.5) * Z2f 10 * 2)%float in
  (- Z2f 10 <=? noise)%float = true /\ (noise <? Z2f 10)%float = true.
Proof.
  destruct (addNoise_single_draw (fun _ => 0.25%float) gray2x2 10 gray2x2_wf
              ltac:(split; [lia|reflexivity]) ltac:(intros; split; reflexivity))
    as (_ & _ & _ & Hr & _).
  destruct (Hr 0%nat) as (Hlo & _ & Hhi).
  split; [exact Hlo|apply Hhi; lia].
Defined.

(** ** The order of the Numbers *)
Module OrderFacts.
Local Open Scope Z_scope.

(** A Number that is not NaN, as a key whose lexicographic order is the
    order [SFcompare] computes. *)
Definition key (x : spec_float) : option (Z * Z * Z) :=
  match x with
  | S754_nan => None
  | S754_zero _ => Some (0, 0, 0)
  | S754_infinity false => Some (2, 0, 0)
  | S754_infinity true => Some (-2, 0, 0)
  | S754_finite false m e => Some (1, e, Zpos m)
  | S754_finite true m e => Some (-1, - e, Zneg m)
  end.

Definition lexCompare (a b : Z * Z * Z) : comparison :=
  let '(a1, a2, a3) := a in
  let '(b1, b2, b3) := b in
  match a1 ?= b1 with
  | Eq => match a2 ?= b2 with
          | Eq => a3 ?= b3
          | c => c
          end
  | c => c
  end.

Definition lexLt (a b : Z * Z * Z) : Prop :=
  let '(a1, a2, a3) := a in
  let '(b1, b2, b3) := b in
  a1 < b1 \/ (a1 = b1 /\ (a2 < b2 \/ (a2 = b2 /\ a3 < b3))).

Lemma lexCompare_Lt (a b : Z * Z * Z) : lexCompare a b = Lt <-> lexLt a b.
Proof.
  destruct a as [[a1 a2] a3], b as [[b1 b2] b3]. unfold lexCompare, lexLt.
  destruct (Z.compare_spec a1 b1), (Z.compare_spec a2 b2), (Z.compare_spec a3 b3);
    split; intros HH; try discriminate; try reflexivity; lia.
Qed.

Lemma lexCompare_Eq (a b : Z * Z * Z) : lexCompare a b = Eq <-> a = b.
Proof.
  destruct a as [[a1 a2] a3], b as [[b1 b2] b3]. unfold lexCompare.
  destruct (Z.compare_spec a1 b1), (Z.compare_spec a2 b2), (Z.compare_spec a3 b3);
    split; intros HH; try discriminate; try reflexivity;
    first [injection HH; lia | subst; reflexivity].
Qed.

Lemma lexCompare_Gt (a b : Z * Z * Z) : lexCompare a b = Gt <-> lexLt b a.
Proof.
  destruct a as [[a1 a2] a3], b as [[b1 b2] b3]. unfold lexCompare, lexLt.
  destruct (Z.compare_spec a1 b1), (Z.compare_spec a2 b2), (Z.compare_spec a3 b3);
    split; intros HH; try discriminate; try reflexivity; lia.
Qed.

Lemma SFcompare_key (x y : spec_float) :
  SFcompare x y =
    match key x, key y with
    | Some a, Some b => Some (lexCompare a b)
    | _, _ => None
    end.
Proof.
  destruct x as [[]|[]| |[] mx ex], y as [[]|[]| |[] my ey]; try reflexivity.
  cbn [SFcompare key lexCompare Z.compare].
  rewrite Z.compare_opp.
  destruct (Z.compare_spec ex ey) as [->|H|H].
  - rewrite Z.compare_refl.
    change (Zneg mx ?= Zneg my) with (CompOpp (Pos.compare mx my)). reflexivity.
  - apply Z.compare_gt_iff in H. rewrite H. reflexivity.
  - apply Z.compare_lt_iff in H. rewrite H. reflexivity.
Qed.

(** The comparisons of two Numbers through their keys. *)
Lemma ltb_key (x y : float) :
  (x <? y)%float = true <->
  exists a b, key (Prim2SF x) = Some a /\ key (Prim2SF y) = Some b /\ lexLt a b.
Proof.
  rewrite FloatAxioms.ltb_spec. unfold SFltb. rewrite SFcompare_key.
  destruct (key (Prim2SF x)) as [a|], (key (Prim2SF y)) as [b|].
  - destruct (lexCompare a b) eqn:E; split; intros H; try discriminate.
    + destruct H as (a' & b' & [= <-] & [= <-] & H).
      apply lexCompare_Lt in H. congruence.
    + exists a, b. split; [reflexivity|]. split; [reflexivity|]. now apply lexCompare_Lt.
    + reflexivity.
    + destruct H as (a' & b' & [= <-] & [= <-] & H).
      apply lexCompare_Lt in H. congruence.
  - split; [discriminate|]. intros (a' & b' & _ & H & _). discriminate.
  - split; [discriminate|]. intros (a' & b' & H & _). discriminate.
  - split; [discriminate|]. intros (a' & b' & H & _). discriminate.
Qed.

Lemma leb_key (x y : float) :
  (x <=? y)%float = true <->
  exists a b, key (Prim2SF x) = Some a /\ key (Prim2SF y) = Some b /\ (lexLt a b \/ a = b).
Proof.
  rewrite FloatAxioms.leb_spec. unfold SFleb. rewrite SFcompare_key.
  destruct (key (Prim2SF x)) as [a|], (key (Prim2SF y)) as [b|].
  - destruct (lexCompare a b) eqn:E; split; intros H; try discriminate.
    + exists a, b. split; [reflexivity|]. split; [reflexivity|].
      right. now apply lexCompare_Eq.
    + reflexivity.
    + exists a, b. split; [reflexivity|]. split; [reflexivity|].
      left. now apply lexCompare_Lt.
    + reflexivity.
    + destruct H as (a' & b' & [= <-] & [= <-] & [H|H]).
      * apply lexCompare_Lt in H. congruence.
      * apply lexCompare_Eq in H. congruence.
  - split; [discriminate|]. intros (a' & b' & _ & H & _). discriminate.
  - split; [discriminate|]. intros (a' & b' & H & _). discriminate.
  - split; [discriminate|]. intros (a' & b' & H & _). discriminate.
Qed.

Lemma lexLt_trans (a b c : Z * Z * Z) : lexLt a b -> lexLt b c -> lexLt a c.
Proof.
  destruct a as [[a1 a2] a3], b as [[b1 b2] b3], c as [[c1 c2] c3]. unfold lexLt. lia.
Qed.

Lemma lexLt_irrefl (a : Z * Z * Z) : ~ lexLt a a.
Proof. destruct a as [[a1 a2] a3]. unfold lexLt. lia. Qed.

Lemma lexLt_total (a b : Z * Z * Z) : lexLt a b \/ a = b \/ lexLt b a.
Proof.
  destruct a as [[a1 a2] a3], b as [[b1 b2] b3]. unfold lexLt.
  destruct (Z.lt_trichotomy a1 b1) as [|[->|]]; [lia| |lia].
  destruct (Z.lt_trichotomy a2 b2) as [|[->|]]; [lia| |lia].
  destruct (Z.lt_trichotomy a3 b3) as [|[->|]]; [lia| |lia].
  right. left. reflexivity.
Qed.

Lemma ltb_trans (x y z : float) :
  (x <? y)%float = true -> (y <? z)%float = true -> (x <? z)%float = true.
Proof.
  rewrite !ltb_key. intros (a & b & Ha & Hb & H1) (b' & c & Hb' & Hc & H2).
  rewrite Hb in Hb'. injection Hb' as <-.
  exists a, c. split; [exact Ha|]. split; [exact Hc|]. eapply lexLt_trans; eassumption.
Qed.

Lemma leb_ltb_trans (x y z : float) :
  (x <=? y)%float = true -> (y <? z)%float = true -> (x <? z)%float = true.
Proof.
  rewrite leb_key, !ltb_key. intros (a & b & Ha & Hb & H1) (b' & c & Hb' & Hc & H2).
  rewrite Hb in Hb'. injection Hb' as <-.
  exists a, c. split; [exact Ha|]. split; [exact Hc|].
  destruct H1 as [H1| ->]; [eapply lexLt_trans; eassumption|exact H2].
Qed.

Lemma ltb_leb (x y : float) : (x <? y)%float = true -> (x <=? y)%float = true.
Proof.
  rewrite ltb_key, leb_key. intros (a & b & Ha & Hb & H). exists a, b. auto.
Qed.

Lemma ltb_irrefl (x : float) : (x <? x)%float = false.
Proof.
  destruct (x <? x)%float eqn:E; [|reflexivity].
  apply ltb_key in E as (a & b & Ha & Hb & H).
  rewrite Ha in Hb. injection Hb as <-. now apply lexLt_irrefl in H.
Qed.

(** A Number that is not below [Infinity] (it is [Infinity] or NaN) is
    below no Number. *)
Lemma not_below_infinity (x y : float) :
  (x <? infinity)%float = false -> (x <? y)%float = false.
Proof.
  intros H. destruct (x <? y)%float eqn:E; [|reflexivity].
  apply ltb_key in E as (a & b & Ha & Hb & Hlt).
  assert (Hinf : (x <? infinity)%float = true); [|congruence].
  apply ltb_key. exists a, (2, 0, 0). split; [exact Ha|]. split; [reflexivity|].
  destruct (Prim2SF x) as [[]|[]| |[] mx ex], (Prim2SF y) as [[]|[]| |[] my ey];
    cbn [key] in Ha, Hb; try discriminate;
    injection Ha as <-; injection Hb as <-; unfold lexLt in *; lia.
Qed.

(** Two Numbers that are not NaN are comparable. *)
Lemma not_ltb_leb (x y : float) :
  key (Prim2SF x) <> None -> key (Prim2SF y) <> None ->
  (x <? y)%float = false -> (y <=? x)%float = true.
Proof.
  intros Hx Hy H. apply leb_key.
  destruct (key (Prim2SF x)) as [a|] eqn:Ha; [|congruence].
  destruct (key (Prim2SF y)) as [b|] eqn:Hb; [|congruence].
  exists b, a. split; [reflexivity|]. split; [reflexivity|].
  destruct (lexLt_total a b) as [Hlt|[->|Hgt]]; [|now right|now left].
  assert ((x <? y)%float = true); [|congruence].
  apply ltb_key. exists a, b. auto.
Qed.

End OrderFacts.

(** ** Further properties of [ColorUtils] *)

(** The distance from the colour (r, g, b) to a palette entry, as
    [findClosestColor] computes it. *)
Definition distTo (r g b : float) (c : rgb) : float :=
  let '(pr, pg, pb) := c in colorDistanceSq r g b (Z2f pr) (Z2f pg) (Z2f pb).

Module ScanFacts.
Import OrderFacts.

(** What the loop of [findClosestColor] has established after the
    entries [pre] of the palette [pre ++ rest]. *)
Definition scanned (r g b : float) (palette pre : list rgb)
    (minDist : float) (closest : option rgb) : Prop :=
  (forall e, e ∈ pre -> (distTo r g b e <? minDist)%float = false) /\
  exists i c, closest = Some c /\ palette !! i = Some c /\
    (forall j e, j < i -> palette !! j = Some e ->
       (distTo r g b e <=? distTo r g b c)%float = false) /\
    ((minDist = distTo r g b c /\ i < length pre) \/ (minDist = infinity /\ i = 0)).

Lemma scanPalette_nearest (r g b : float) (palette : list rgb) :
  forall rest pre minDist closest c,
  palette = pre ++ rest ->
  scanned r g b palette pre minDist closest ->
  scanPalette r g b rest minDist closest = Some c ->
  exists i, palette !! i = Some c /\
    (forall e, e ∈ palette -> (distTo r g b e <? distTo r g b c)%float = false) /\
    (forall j e, j < i -> palette !! j = Some e ->
       (distTo r g b e <=? distTo r g b c)%float = false).
Proof.
  induction rest as [|[[pr pg] pb] rest IH]; intros pre minDist closest c Hp Hs Hc.
  - cbn [scanPalette] in Hc. rewrite app_nil_r in Hp. subst pre.
    destruct Hs as (Hall & i & c0 & -> & Hi & Hfirst & Hmin).
    injection Hc as <-. exists i. split; [exact Hi|]. split; [|exact Hfirst].
    intros e He. specialize (Hall e He).
    destruct Hmin as [[-> _]|[-> _]]; [exact Hall|].
    now apply not_below_infinity.
  - cbn [scanPalette] in Hc.
    change (colorDistanceSq r g b (Z2f pr) (Z2f pg) (Z2f pb))
      with (distTo r g b (pr, pg, pb)) in Hc.
    set (e0 := (pr, pg, pb)) in *.
    assert (Hp' : palette = (pre ++ [e0]) ++ rest) by (rewrite <- app_assoc; exact Hp).
    assert (He0 : palette !! length pre = Some e0).
    { rewrite Hp. rewrite lookup_app_r by lia. now rewrite Nat.sub_diag. }
    destruct Hs as (Hall & i & c0 & -> & Hi & Hfirst & Hmin).
    destruct (distTo r g b e0 <? minDist)%float eqn:Elt.
    + refine (IH (pre ++ [e0]) _ _ c Hp' _ Hc).
      assert (Hbefore : forall j e, j < length pre -> palette !! j = Some e ->
                (distTo r g b e <=? distTo r g b e0)%float = false).
      { intros j e Hj He.
        destruct (distTo r g b e <=? distTo r g b e0)%float eqn:Ele; [|reflexivity].
        assert (e ∈ pre).
        { rewrite Hp, lookup_app_l in He by exact Hj. eapply list_elem_of_lookup_2, He. }
        pose proof (leb_ltb_trans _ _ _ Ele Elt) as Hc'.
        rewrite (Hall e) in Hc' by assumption. discriminate. }
      split.
      * intros e He. apply elem_of_app in He as [He|He].
        -- apply list_elem_of_lookup_1 in He as [j Hj].
           pose proof (lookup_lt_Some _ _ _ Hj) as Hlt.
           assert (Hj' : palette !! j = Some e) by (rewrite Hp, lookup_app_l; assumption).
           specialize (Hbefore j e Hlt Hj').
           destruct (distTo r g b e <? distTo r g b e0)%float eqn:E; [|reflexivity].
           apply ltb_leb in E. congruence.
        -- apply list_elem_of_singleton in He as ->. apply ltb_irrefl.
      * exists (length pre), e0. split; [reflexivity|]. split; [exact He0|].
        split; [exact Hbefore|]. left. split; [reflexivity|].
        rewrite length_app. simpl. lia.
    + refine (IH (pre ++ [e0]) _ _ c Hp' _ Hc).
      split.
      * intros e He. apply elem_of_app in He as [He|He]; [now apply Hall|].
        apply list_elem_of_singleton in He as ->. exact Elt.
      * exists i, c0. split; [reflexivity|]. split; [exact Hi|]. split; [exact Hfirst|].
        destruct Hmin as [[-> Hlt]|[-> ->]]; [left|right]; split; try reflexivity.
        rewrite length_app. simpl. lia.
Qed.

Lemma findClosestColor_nearest_entry (r g b : float) (palette : list rgb) (c : rgb) :
  findClosestColor r g b palette = Some c ->
  exists i, palette !! i = Some c /\
    (forall e, e ∈ palette -> (distTo r g b e <? distTo r g b c)%float = false) /\
    (forall j e, j < i -> palette !! j = Some e ->
       (distTo r g b e <=? distTo r g b c)%float = false).
Proof.
  unfold findClosestColor. intros Hc.
  destruct palette as [|c0 rest] eqn:Ep.
  - discriminate Hc.
  - rewrite <- Ep in *.
    apply (scanPalette_nearest r g b palette palette [] infinity (head palette) c);
      [reflexivity| |exact Hc].
    split.
    + intros e He. now apply elem_of_nil in He.
    + exists 0, c0. rewrite Ep. split; [reflexivity|]. split; [reflexivity|].
      split; [intros j e Hj; lia|]. right. split; reflexivity.
Qed.

End ScanFacts.

(** X1 — [findClosestColor] returns a nearest entry, the first of them: no
    entry of the palette is strictly nearer to (r, g, b) than the returned
    entry, and no entry before it is as near. This holds for all Numbers
    r, g, b (a distance that is NaN is never below another). For an empty
    palette the result is [undefined]. *)
Theorem findClosestColor_nearest (r g b : float) (palette : list rgb) :
  (palette = [] -> findClosestColor r g b palette = None) /\
  (palette <> [] -> exists i c,
     findClosestColor r g b palette = Some c /\ palette !! i = Some c /\
     (forall e, e ∈ palette -> (distTo r g b e <? distTo r g b c)%float = false) /\
     (forall j e, j < i -> palette !! j = Some e ->
        (distTo r g b e <=? distTo r g b c)%float = false)).
Proof.
  split.
  - intros ->. reflexivity.
  - intros Hne.
    destruct (PaletteFacts.findClosestColor_in r g b palette Hne) as (c & _ & Hc).
    destruct (ScanFacts.findClosestColor_nearest_entry r g b palette c Hc)
      as (i & Hi & Hall & Hfirst).
    exists i, c. auto.
Qed.

Lemma findClosestColor_nearest_witness :
  exists i c, findClosestColor 100 100 100 [black; white] = Some c /\
    [black; white] !! i = Some c.
Proof.
  destruct (proj2 (findClosestColor_nearest 100 100 100 [black; white]) ltac:(discriminate))
    as (i & c & H1 & H2 & _).
  exists i, c. split; assumption.
Defined.

Module ClampFacts.
Import OrderFacts.

Lemma is_nan_key (x : float) : is_nan x = false <-> key (Prim2SF x) <> None.
Proof.
  unfold is_nan. rewrite negb_false_iff, FloatAxioms.eqb_spec.
  unfold SFeqb. rewrite SFcompare_key.
  destruct (key (Prim2SF x)) as [a|]; split; intros H; try congruence.
  now rewrite (proj2 (lexCompare_Eq a a) eq_refl).
Qed.

Lemma ltb_nan_l (x y : float) : is_nan x = true -> (x <? y)%float = false.
Proof.
  intros Hx. destruct (x <? y)%float eqn:E; [|reflexivity].
  apply ltb_key in E as (a & b & Ha & _).
  assert (is_nan x = false) by (apply is_nan_key; congruence). congruence.
Qed.

Lemma ltb_nan_r (x y : float) : is_nan y = true -> (x <? y)%float = false.
Proof.
  intros Hy. destruct (x <? y)%float eqn:E; [|reflexivity].
  apply ltb_key in E as (a & b & _ & Hb & _).
  assert (is_nan y = false) by (apply is_nan_key; congruence). congruence.
Qed.

Lemma leb_not_ltb (x y : float) : (x <=? y)%float = true -> (y <? x)%float = false.
Proof.
  intros H. destruct (y <? x)%float eqn:E; [|reflexivity].
  pose proof (leb_ltb_trans _ _ _ H E) as Hc. now rewrite ltb_irrefl in Hc.
Qed.

End ClampFacts.

(** X2 — [clamp] returns NaN for NaN and otherwise a Number of [0,255]; a
    Number of [0,255] is returned as it is, so clamping twice is clamping
    once. *)
Theorem clamp_range (value : float) :
  (is_nan value = true -> is_nan (clamp value) = true) /\
  (is_nan value = false ->
     (0 <=? clamp value)%float = true /\ (clamp value <=? 255)%float = true) /\
  ((0 <=? value)%float = true -> (value <=? 255)%float = true -> clamp value = value) /\
  clamp (clamp value) = clamp value.
Proof.
  unfold clamp. repeat split.
  - intros Hn. rewrite (ClampFacts.ltb_nan_l value 0 Hn), (ClampFacts.ltb_nan_r 255 value Hn).
    exact Hn.
  - destruct (value <? 0)%float eqn:E1; [reflexivity|].
    destruct (255 <? value)%float eqn:E2; [reflexivity|].
    apply OrderFacts.not_ltb_leb; [now apply ClampFacts.is_nan_key|discriminate|exact E1].
  - destruct (value <? 0)%float eqn:E1; [reflexivity|].
    destruct (255 <? value)%float eqn:E2; [reflexivity|].
    apply OrderFacts.not_ltb_leb; [discriminate|now apply ClampFacts.is_nan_key|exact E2].
  - intros H0 H255.
    now rewrite (ClampFacts.leb_not_ltb _ _ H0), (ClampFacts.leb_not_ltb _ _ H255).
  - destruct (value <? 0)%float eqn:E1; [reflexivity|].
    destruct (255 <? value)%float eqn:E2; [reflexivity|].
    now rewrite E1, E2.
Qed.

Lemma clamp_range_witness : clamp 128 = 128%float.
Proof.
  exact (proj1 (proj2 (proj2 (clamp_range 128))) eq_refl eq_refl).
Defined.

(** X3 — [getLuminance] on byte channels is the weighted mean
    floor((77 r + 150 g + 29 b) / 256): it lies between the smallest and the
    largest channel (so a grey (v, v, v) has luminance v and the result is a
    byte) and it grows with every channel. *)
Theorem getLuminance_weighted_mean (r g b : Z) :
  isByte r -> isByte g -> isByte b ->
  getLuminance r g b = ((77 * r + 150 * g + 29 * b) / 256)%Z /\
  (Z.min r (Z.min g b) <= getLuminance r g b <= Z.max r (Z.max g b))%Z /\
  (forall r' g' b', isByte r' -> isByte g' -> isByte b' ->
     (r <= r')%Z -> (g <= g')%Z -> (b <= b')%Z ->
     (getLuminance r g b <= getLuminance r' g' b')%Z).
Proof.
  assert (Hform : forall r g b, isByte r -> isByte g -> isByte b ->
            getLuminance r g b = ((77 * r + 150 * g + 29 * b) / 256)%Z).
  { clear. unfold isByte, getLuminance, toInt32. intros r g b Hr Hg Hb.
    rewrite Z.mod_small by lia.
    replace (_ <? _)%Z with true by (symmetry; apply Z.ltb_lt; lia).
    rewrite Z.shiftr_div_pow2 by lia. change (2 ^ 8)%Z with 256%Z. f_equal. lia. }
  intros Hr Hg Hb. split; [now apply Hform|]. split.
  - rewrite Hform by assumption. unfold isByte in *. split.
    + apply Z.div_le_lower_bound; lia.
    + apply Z.div_le_upper_bound; lia.
  - intros r' g' b' Hr' Hg' Hb' H1 H2 H3. rewrite !Hform by assumption.
    apply Z.div_le_mono; lia.
Qed.

Lemma getLuminance_weighted_mean_witness :
  getLuminance 200 100 50 = 124%Z /\
  (50 <= getLuminance 200 100 50 <= 200)%Z.
Proof.
  destruct (getLuminance_weighted_mean 200 100 50) as (E & H & _);
    try (unfold isByte; lia).
  split; [rewrite E; reflexivity|exact H].
Defined.

Module SortFacts.

Lemma insertByLuminance_filter (k : Z) (c : rgb) (l : list rgb) :
  filter (fun e => lumOf e = k) (insertByLuminance c l) =
  filter (fun e => lumOf e = k) (c :: l).
Proof.
  induction l as [|d rest IH]; [reflexivity|].
  cbn [insertByLuminance].
  destruct (lumOf c <=? lumOf d)%Z eqn:E; [reflexivity|].
  apply Z.leb_gt in E.
  rewrite filter_cons, IH, !filter_cons.
  destruct (decide (lumOf d = k)), (decide (lumOf c = k)); try reflexivity. lia.
Qed.

Lemma sortPaletteByLuminance_filter (k : Z) (palette : list rgb) :
  filter (fun e => lumOf e = k) (sortPaletteByLuminance palette) =
  filter (fun e => lumOf e = k) palette.
Proof.
  unfold sortPaletteByLuminance.
  induction palette as [|c rest IH]; [reflexivity|].
  cbn [foldr]. rewrite insertByLuminance_filter, !filter_cons, IH. reflexivity.
Qed.

End SortFacts.

(** X4 — [sortPaletteByLuminance] returns a rearrangement of the palette
    (same entries, same length) in non-decreasing order of luminance, and
    entries of equal luminance keep the order they have in the palette (the
    sort is stable). *)
Theorem sortPaletteByLuminance_stable_sort (palette : list rgb) :
  sortPaletteByLuminance palette ≡ₚ palette /\
  length (sortPaletteByLuminance palette) = length palette /\
  StronglySorted (fun a b => (lumOf a <= lumOf b)%Z) (sortPaletteByLuminance palette) /\
  (forall k, filter (fun e => lumOf e = k) (sortPaletteByLuminance palette) =
             filter (fun e => lumOf e = k) palette).
Proof.
  split; [apply PaletteFacts.sortPaletteByLuminance_perm|].
  split; [now rewrite PaletteFacts.sortPaletteByLuminance_perm|].
  split; [apply PosterizeFacts.sortPaletteByLuminance_sorted|].
  intros k. apply SortFacts.sortPaletteByLuminance_filter.
Qed.

Module HexFacts.

(** The text of a byte: two hexadecimal digits that [hexDigit] reads
    back. *)
Definition hexChannelCheck : bool :=
  forallb (fun p : Z * float =>
             match hexOfChannel (snd p) with
             | String c1 (String c0 EmptyString) =>
                 match hexDigit c1, hexDigit c0 with
                 | Some d1, Some d0 => (16 * d1 + d0 =? fst p)%Z
                 | _, _ => false
                 end
             | _ => false
             end)
          NearestFacts.byteTable.

Lemma hexChannelCheck_ok : hexChannelCheck = true.
Proof. vm_cast_no_check (eq_refl true). Qed.

Lemma hexOfChannel_byte (z : Z) :
  isByte z ->
  exists c1 c0 d1 d0, hexOfChannel (Z2f z) = String c1 (String c0 EmptyString) /\
    hexDigit c1 = Some d1 /\ hexDigit c0 = Some d0 /\ (16 * d1 + d0)%Z = z.
Proof.
  intros Hz.
  pose proof (proj1 (forallb_forall _ _) hexChannelCheck_ok (z, Z2f z)
                (NearestFacts.byteTable_In z Hz)) as H.
  cbv beta in H. cbn [fst snd] in H.
  destruct (hexOfChannel (Z2f z)) as [|c1 [|c0 [|? ?]]]; try discriminate.
  destruct (hexDigit c1) as [d1|] eqn:E1; [|discriminate].
  destruct (hexDigit c0) as [d0|] eqn:E0; [|discriminate].
  apply Z.eqb_eq in H. exists c1, c0, d1, d0.
  split; [reflexivity|]. split; [exact E1|]. split; [exact E0|exact H].
Qed.

Lemma rgbToHex_hexToRgb (r g b : Z) :
  isByte r -> isByte g -> isByte b ->
  String.length (rgbToHex (Z2f r) (Z2f g) (Z2f b)) = 7 /\
  hexToRgb (rgbToHex (Z2f r) (Z2f g) (Z2f b)) = (r, g, b).
Proof.
  intros Hr Hg Hb. unfold rgbToHex.
  destruct (hexOfChannel_byte r Hr) as (r1 & r0 & dr1 & dr0 & -> & Er1 & Er0 & Er).
  destruct (hexOfChannel_byte g Hg) as (g1 & g0 & dg1 & dg0 & -> & Eg1 & Eg0 & Eg).
  destruct (hexOfChannel_byte b Hb) as (b1 & b0 & db1 & db0 & -> & Eb1 & Eb0 & Eb).
  split; [reflexivity|].
  cbn [String.append hexToRgb]. rewrite Er1, Er0, Eg1, Eg0, Eb1, Eb0.
  now rewrite Er, Eg, Eb.
Qed.

End HexFacts.

(** X5 — [rgbToHex] and [hexToRgb] are inverse on byte colours: for bytes
    r, g, b the text [rgbToHex(r, g, b)] has seven characters and
    [hexToRgb] reads (r, g, b) back from it; so for every text [hex],
    converting [hexToRgb(hex)] to text and back gives [hexToRgb(hex)]
    again. *)
Theorem rgbToHex_round_trip :
  (forall r g b, isByte r -> isByte g -> isByte b ->
     String.length (rgbToHex (Z2f r) (Z2f g) (Z2f b)) = 7 /\
     hexToRgb (rgbToHex (Z2f r) (Z2f g) (Z2f b)) = (r, g, b)) /\
  (forall hex,
     let '(r, g, b) := hexToRgb hex in
     hexToRgb (rgbToHex (Z2f r) (Z2f g) (Z2f b)) = hexToRgb hex).
Proof.
  split; [exact HexFacts.rgbToHex_hexToRgb|].
  intros hex. pose proof (PipelineFacts.hexToRgb_byte hex) as Hb.
  destruct (hexToRgb hex) as [[r g] b]. destruct Hb as (Hr & Hg & Hb).
  now apply HexFacts.rgbToHex_hexToRgb.
Qed.

Lemma rgbToHex_round_trip_witness :
  hexToRgb (rgbToHex (Z2f 10) (Z2f 10) (Z2f 10)) = (10, 10, 10)%Z.
Proof.
  refine (proj2 (proj1 rgbToHex_round_trip 10 10 10 _ _ _)%Z); unfold isByte; lia.
Defined.

(** The sixteen digits that [toString(16)] writes. *)
Definition lowerDigits : list ascii := list_ascii_of_string "0123456789abcdef".

Definition lowerHex (c : ascii) : bool := existsb (Ascii.eqb c) lowerDigits.

Module HexTextFacts.

(** Two lower-case digits are read as a byte whose text they are. *)
Definition pairCell (c1 c0 : ascii) : bool :=
  match hexDigit c1, hexDigit c0 with
  | Some d1, Some d0 =>
      String.eqb (hexOfChannel (Z2f (16 * d1 + d0))) (String c1 (String c0 EmptyString))
  | _, _ => false
  end.

Lemma pairCheck_ok :
  forallb (fun c1 => forallb (pairCell c1) lowerDigits) lowerDigits = true.
Proof. vm_cast_no_check (eq_refl true). Qed.

Lemma lowerHex_In (c : ascii) : lowerHex c = true -> In c lowerDigits.
Proof.
  unfold lowerHex. intros H. apply existsb_exists in H as (d & Hd & E).
  apply Ascii.eqb_eq in E. now subst.
Qed.

Lemma pair_text (c1 c0 : ascii) :
  lowerHex c1 = true -> lowerHex c0 = true ->
  exists d1 d0, hexDigit c1 = Some d1 /\ hexDigit c0 = Some d0 /\
    hexOfChannel (Z2f (16 * d1 + d0)) = String c1 (String c0 EmptyString).
Proof.
  intros H1 H0. apply lowerHex_In in H1, H0.
  pose proof (proj1 (forallb_forall _ _)
                (proj1 (forallb_forall _ _) pairCheck_ok c1 H1) c0 H0) as H.
  unfold pairCell in H.
  destruct (hexDigit c1) as [d1|]; [|discriminate].
  destruct (hexDigit c0) as [d0|]; [|discriminate].
  apply String.eqb_eq in H. eauto.
Qed.

Lemma lowerHex_not_hash (c : ascii) : lowerHex c = true -> c <> "#"%char.
Proof.
  intros H ->. vm_compute in H. discriminate.
Qed.

(** The two stages of [hexToRgb]: the optional [#], then the six digits. *)
Definition stripHash (hex : string) : string :=
  match hex with
  | String "#"%char rest => rest
  | _ => hex
  end.

Definition readDigits (digits : string) : rgb :=
  match digits with
  | String r1 (String r0 (String g1 (String g0 (String b1 (String b0 EmptyString))))) =>
      match hexDigit r1, hexDigit r0, hexDigit g1, hexDigit g0, hexDigit b1, hexDigit b0 with
      | Some r1, Some r0, Some g1, Some g0, Some b1, Some b0 =>
          (16 * r1 + r0, 16 * g1 + g0, 16 * b1 + b0)%Z
      | _, _, _, _, _, _ => (0, 0, 0)%Z
      end
  | _ => (0, 0, 0)%Z
  end.

Lemma hexToRgb_stages (hex : string) : hexToRgb hex = readDigits (stripHash hex).
Proof. reflexivity. Qed.

Lemma stripHash_other (c : ascii) (rest : string) :
  c <> "#"%char -> stripHash (String c rest) = String c rest.
Proof.
  intros Hc. destruct c as [[] [] [] [] [] [] [] []]; try reflexivity. now contradiction Hc.
Qed.

Lemma readDigits_short (digits : string) :
  String.length digits <> 6 -> readDigits digits = (0, 0, 0)%Z.
Proof.
  destruct digits as [|? [|? [|? [|? [|? [|? [|? ?]]]]]]]; intros H; try reflexivity.
  now contradiction H.
Qed.

Lemma hexToRgb_short (hex : string) :
  String.length hex <> 6 -> String.length hex <> 7 -> hexToRgb hex = (0, 0, 0)%Z.
Proof.
  intros H6 H7. rewrite hexToRgb_stages. apply readDigits_short.
  destruct hex as [|c rest]; [exact H6|].
  destruct (Ascii.eqb_spec c "#"%char) as [->|Hc].
  - cbn [stripHash]. cbn [String.length] in H7. lia.
  - now rewrite stripHash_other.
Qed.

Lemma readDigits_bad (pre : string) (c : ascii) (post : string) :
  hexDigit c = None -> readDigits (pre ++ String c post) = (0, 0, 0)%Z.
Proof.
  intros Hc.
  destruct pre as [|p1 [|p2 [|p3 [|p4 [|p5 [|p6 [|p7 pre]]]]]]]; cbn [String.append];
    destruct post as [|q1 [|q2 [|q3 [|q4 [|q5 [|q6 post]]]]]];
    cbn [readDigits]; try reflexivity;
    rewrite ?Hc; try reflexivity;
    repeat match goal with
           | |- context [match hexDigit ?x with _ => _ end] =>
               destruct (hexDigit x); try reflexivity
           end.
Qed.

End HexTextFacts.

(** X6 — [hexToRgb] followed by [rgbToHex] gives the text back: for six
    lower-case hexadecimal digits the colour read with and without the
    leading [#] is the same, and [rgbToHex] of that colour is [#] followed
    by the six digits. *)
Theorem hexToRgb_round_trip (digits : string) :
  String.length digits = 6 ->
  forallb lowerHex (list_ascii_of_string digits) = true ->
  hexToRgb (String "#" digits) = hexToRgb digits /\
  (let '(r, g, b) := hexToRgb digits in rgbToHex (Z2f r) (Z2f g) (Z2f b))
    = String "#" digits.
Proof.
  intros Hlen Hlow.
  destruct digits as [|r1 [|r0 [|g1 [|g0 [|b1 [|b0 [|? ?]]]]]]]; try discriminate Hlen.
  cbn [list_ascii_of_string forallb] in Hlow.
  repeat (apply andb_prop in Hlow as [? Hlow]).
  assert (Hh : r1 <> "#"%char) by now apply HexTextFacts.lowerHex_not_hash.
  destruct (HexTextFacts.pair_text r1 r0) as (dr1 & dr0 & Er1 & Er0 & Er); try assumption.
  destruct (HexTextFacts.pair_text g1 g0) as (dg1 & dg0 & Eg1 & Eg0 & Eg); try assumption.
  destruct (HexTextFacts.pair_text b1 b0) as (db1 & db0 & Eb1 & Eb0 & Eb); try assumption.
  rewrite !HexTextFacts.hexToRgb_stages.
  rewrite (HexTextFacts.stripHash_other r1) by assumption.
  cbn [HexTextFacts.stripHash HexTextFacts.readDigits].
  rewrite Er1, Er0, Eg1, Eg0, Eb1, Eb0.
  split; [reflexivity|].
  unfold rgbToHex. rewrite Er, Eg, Eb. reflexivity.
Qed.

Lemma hexToRgb_round_trip_witness :
  hexToRgb "#0a0a0a" = hexToRgb "0a0a0a" /\
  (let '(r, g, b) := hexToRgb "0a0a0a" in rgbToHex (Z2f r) (Z2f g) (Z2f b)) = "#0a0a0a"%string.
Proof.
  exact (hexToRgb_round_trip "0a0a0a" eq_refl eq_refl).
Defined.

(** X7 — What [hexToRgb] does with a text that is not a colour: a text
    whose length is neither 6 nor 7 (the short form [#fff], the empty text,
    a colour name) is read as black, a text of seven characters that does
    not start with [#] too, and so is every text with a character that is no
    hexadecimal digit, a [#] in the first place apart. *)
Theorem hexToRgb_rejects (hex : string) :
  (String.length hex <> 6 -> String.length hex <> 7 -> hexToRgb hex = (0, 0, 0)%Z) /\
  (forall c rest, hex = String c rest -> String.length hex = 7 -> c <> "#"%char ->
     hexToRgb hex = (0, 0, 0)%Z) /\
  (forall pre c post, hex = (pre ++ String c post)%string -> hexDigit c = None ->
     pre <> EmptyString \/ c <> "#"%char ->
     hexToRgb hex = (0, 0, 0)%Z).
Proof.
  split; [apply HexTextFacts.hexToRgb_short|]. split.
  - intros c rest -> Hlen Hc. rewrite HexTextFacts.hexToRgb_stages.
    rewrite HexTextFacts.stripHash_other by assumption.
    apply HexTextFacts.readDigits_short. lia.
  - intros pre c post -> Hc Hfirst. rewrite HexTextFacts.hexToRgb_stages.
    destruct pre as [|p pre].
    + destruct Hfirst as [Hfirst|Hfirst]; [congruence|].
      cbn [String.append]. rewrite HexTextFacts.stripHash_other by assumption.
      now apply (HexTextFacts.readDigits_bad EmptyString).
    + cbn [String.append]. destruct (Ascii.eqb_spec p "#"%char) as [->|Hp].
      * cbn [HexTextFacts.stripHash]. now apply HexTextFacts.readDigits_bad.
      * rewrite HexTextFacts.stripHash_other by assumption.
        now apply (HexTextFacts.readDigits_bad (String p pre)).
Qed.

Lemma hexToRgb_rejects_witness : hexToRgb "#fff" = (0, 0, 0)%Z.
Proof.
  refine (proj1 (hexToRgb_rejects "#fff") _ _); simpl; lia.
Defined.

Module IndexFacts.

Definition sizeRange : list Z := map Z.of_nat (seq 1 256).

Lemma sizeRange_In (n : Z) : (1 <= n <= 256)%Z -> In n sizeRange.
Proof.
  intros Hn. unfold sizeRange. apply in_map_iff.
  exists (Z.to_nat n). split; [lia|]. apply in_seq. lia.
Qed.

(** The index of a byte luminance is the rounded exact quotient. *)
Definition indexCell (n : Z) (p : Z * float) : bool :=
  match getPaletteIndexByLuminance (snd p) n with
  | Int j => (j =? (2 * fst p * (n - 1) + 255) / 510)%Z
  | _ => false
  end.

Lemma indexCheck_ok :
  forallb (fun n => forallb (indexCell n) NearestFacts.byteTable) sizeRange = true.
Proof. vm_cast_no_check (eq_refl true). Qed.

Lemma index_exact (luminance n : Z) :
  isByte luminance -> (1 <= n <= 256)%Z ->
  getPaletteIndexByLuminance (Z2f luminance) n
  = Int ((2 * luminance * (n - 1) + 255) / 510).
Proof.
  intros Hl Hn.
  pose proof (proj1 (forallb_forall _ _)
                (proj1 (forallb_forall _ _) indexCheck_ok n (sizeRange_In n Hn))
                (luminance, Z2f luminance) (NearestFacts.byteTable_In luminance Hl)) as H.
  unfold indexCell in H. cbn [fst snd] in H.
  destruct (getPaletteIndexByLuminance (Z2f luminance) n); try discriminate.
  apply Z.eqb_eq in H. now subst.
Qed.

End IndexFacts.

(** X8 — The palette index of a luminance. For every Number whose
    quotient by 255 is finite and every palette length of at least 1 the
    index is an integer between 0 and the length minus 1. For a byte
    luminance and a palette of up to 256 colours it is the exact quotient
    [luminance * (length - 1) / 255] rounded to the nearest integer, so
    that 0 gives the first entry, 255 the last one, and a larger luminance
    never gives a smaller index. *)
Theorem getPaletteIndexByLuminance_exact :
  (forall luminance n, NumberFacts.finiteF (luminance / 255) = true -> (1 <= n)%Z ->
     exists j, (0 <= j <= n - 1)%Z /\ getPaletteIndexByLuminance luminance n = Int j) /\
  (forall luminance n, isByte luminance -> (1 <= n <= 256)%Z ->
     getPaletteIndexByLuminance (Z2f luminance) n
     = Int ((2 * luminance * (n - 1) + 255) / 510)) /\
  (forall n, (1 <= n <= 256)%Z ->
     getPaletteIndexByLuminance 0 n = Int 0 /\
     getPaletteIndexByLuminance 255 n = Int (n - 1)) /\
  (forall l1 l2 n j1 j2, isByte l1 -> isByte l2 -> (1 <= n <= 256)%Z -> (l1 <= l2)%Z ->
     getPaletteIndexByLuminance (Z2f l1) n = Int j1 ->
     getPaletteIndexByLuminance (Z2f l2) n = Int j2 -> (j1 <= j2)%Z).
Proof.
  split; [exact NumberFacts.paletteIndex_in_range|].
  split; [exact IndexFacts.index_exact|]. split.
  - intros n Hn. split.
    + change 0%float with (Z2f 0). rewrite IndexFacts.index_exact by (unfold isByte; lia).
      f_equal.
    + change 255%float with (Z2f 255).
      rewrite IndexFacts.index_exact by (unfold isByte; lia).
      f_equal. replace (2 * 255 * (n - 1) + 255)%Z with ((n - 1) * 510 + 255)%Z by lia.
      rewrite Z.div_add_l by lia. change (255 / 510)%Z with 0%Z. lia.
  - intros l1 l2 n j1 j2 H1 H2 Hn Hle E1 E2.
    rewrite IndexFacts.index_exact in E1, E2 by assumption.
    injection E1 as <-. injection E2 as <-.
    apply Z.div_le_mono; [lia|]. unfold isByte in *. nia.
Qed.

Lemma getPaletteIndexByLuminance_exact_witness :
  getPaletteIndexByLuminance (Z2f 128) 2 = Int 1.
Proof.
  refine (proj1 (proj2 getPaletteIndexByLuminance_exact) 128 2 _ _)%Z; unfold isByte; lia.
Defined.

(** ** Further properties of [DitheringEngine] *)
Module FrameFacts.
Import LoopFacts.

(** The alpha cell of pixel [i]. *)
Definition alphaAt (d : list Z) (i : nat) : option Z := d !! (4 * i + 3).

Lemma setRGB_alpha (d : list Z) (k i : nat) (c : rgb) :
  alphaAt (setRGB d (k * 4) c) i = alphaAt d i.
Proof. unfold alphaAt. apply setRGB_lookup_other. lia. Qed.

(** A loop whose iterations paint one pixel each leaves every alpha
    cell as it was. *)
Lemma paintLoop_alpha {St : Type} (getData : St -> list Z) (w h : nat)
    (body : nat -> nat -> St -> result St) (s : St) :
  length (getData s) = 4 * (w * h) ->
  Forall isByte (getData s) ->
  (forall x y s, x < w -> y < h ->
     length (getData s) = 4 * (w * h) -> Forall isByte (getData s) ->
     exists c s', body x y s = Ok s' /\
       getData s' = setRGB (getData s) ((y * w + x) * 4) c) ->
  exists s', forPixels w h body s = Ok s' /\
    forall i, alphaAt (getData s') i = alphaAt (getData s) i.
Proof.
  intros Hlen Hbytes Hbody.
  destruct (forPixels_inv
    (fun k s' => length (getData s') = 4 * (w * h) /\ Forall isByte (getData s') /\
                 forall i, alphaAt (getData s') i = alphaAt (getData s) i)
    w h body s) as (s' & E & HI).
  - split; [exact Hlen|]. split; [exact Hbytes|]. reflexivity.
  - intros x y s0 Hx Hy (Hl & Hb & Ha).
    destruct (Hbody x y s0 Hx Hy Hl Hb) as (c & s1 & Eb & Ed).
    exists s1. split; [exact Eb|]. rewrite Ed.
    split; [now rewrite setRGB_length|]. split; [now apply setRGB_bytes|].
    intros i. now rewrite setRGB_alpha.
  - exists s'. split; [exact E|]. apply HI.
Qed.

Lemma mapPixels_alpha (f : Z -> Z -> Z -> result rgb) :
  forall d d', mapPixels f d = Ok d' -> forall i, alphaAt d' i = alphaAt d i.
Proof.
  induction d as [d Hd|r g b a rest IH] using list4_ind; intros d' H i.
  - destruct d as [|? [|? [|? [|? ?]]]]; simpl in *; try lia; now inversion H.
  - simpl in H. destruct (f r g b) as [[[r' g'] b']|]; simpl in H; [|discriminate].
    destruct (mapPixels f rest) as [rest'|] eqn:E; simpl in H; [|discriminate].
    inversion H; subst. unfold alphaAt. destruct i as [|i]; [reflexivity|].
    replace (4 * S i + 3) with (S (S (S (S (4 * i + 3))))) by lia.
    exact (IH rest' eq_refl i).
Qed.

Lemma floydSteinberg_alpha (img : ImageData) (palette : list rgb) :
  wfImage img -> palette <> [] ->
  exists out, floydSteinberg img palette = Ok out /\
    forall i, alphaAt (data out) i = alphaAt (data img) i.
Proof.
  intros [Hl Hb] Hne. unfold floydSteinberg.
  destruct (paintLoop_alpha fst (width img) (height img)
              (fsPixel palette (width img) (height img))
              (data img, map (fun v => fround (Z2f v)) (data img)) Hl Hb)
    as ([d buf] & -> & Ha).
  - intros x y [d buf] _ _ _ _.
    destruct (DitherFacts.fsPixel_paints palette (width img) (height img) x y d buf Hne)
      as (c & s' & _ & E & Ed). eauto.
  - eexists. split; [reflexivity|]. exact Ha.
Qed.

Lemma atkinson_alpha (img : ImageData) (palette : list rgb) :
  wfImage img -> palette <> [] ->
  exists out, atkinson img palette = Ok out /\
    forall i, alphaAt (data out) i = alphaAt (data img) i.
Proof.
  intros [Hl Hb] Hne. unfold atkinson.
  destruct (paintLoop_alpha fst (width img) (height img)
              (atkinsonPixel palette (width img) (height img))
              (data img, map (fun v => fround (Z2f v)) (data img)) Hl Hb)
    as ([d buf] & -> & Ha).
  - intros x y [d buf] _ _ _ _.
    destruct (DitherFacts.atkinsonPixel_paints palette (width img) (height img) x y d buf Hne)
      as (c & s' & _ & E & Ed). eauto.
  - eexists. split; [reflexivity|]. exact Ha.
Qed.

Lemma orderedDither_alpha (img : ImageData) (palette : list rgb) (n : nat) :
  DitherFacts.orderedCheck n = true -> 0 < n ->
  wfImage img -> palette <> [] ->
  exists out, orderedDither img palette (Z.of_nat n) = Ok out /\
    forall i, alphaAt (data out) i = alphaAt (data img) i.
Proof.
  intros Hchk Hn [Hl Hb] Hne. unfold orderedDither.
  destruct (paintLoop_alpha id (width img) (height img)
              (orderedPixel (sortPaletteByLuminance palette) (Z.of_nat n) (width img))
              (data img) Hl Hb) as (d & -> & Ha).
  - intros x y d _ _ _ Hd. unfold id.
    destruct (DitherFacts.orderedPixel_paints palette n (width img) x y d Hchk Hn Hne Hd)
      as (c & d' & _ & E & ->). eauto.
  - eexists. split; [reflexivity|]. exact Ha.
Qed.

End FrameFacts.

(** X9 — The four strategies never touch the alpha channel: for a
    well-formed raster and a non-empty palette, the alpha byte of every
    pixel of the output of [quantize], [floydSteinberg], [atkinson] and
    [orderedDither] (matrix size 2, 4 or 8) is the alpha byte of the input. *)
Theorem dithering_keeps_alpha (img : ImageData) (palette : list rgb) (matrixSize : Z) :
  wfImage img -> palette <> [] -> In matrixSize [2; 4; 8]%Z ->
  forall out,
    quantize img palette = Ok out \/ floydSteinberg img palette = Ok out \/
    atkinson img palette = Ok out \/ orderedDither img palette matrixSize = Ok out ->
    forall i, data out !! (4 * i + 3) = data img !! (4 * i + 3).
Proof.
  intros Himg Hne Hms out Hout i.
  change (FrameFacts.alphaAt (data out) i = FrameFacts.alphaAt (data img) i).
  destruct Hout as [E|[E|[E|E]]].
  - unfold quantize in E.
    destruct (mapPixels (quantizePixel palette) (data img)) as [d|] eqn:Em; [|discriminate].
    injection E as <-. exact (FrameFacts.mapPixels_alpha _ _ _ Em i).
  - destruct (FrameFacts.floydSteinberg_alpha img palette Himg Hne) as (out' & E' & Ha).
    rewrite E' in E. injection E as <-. apply Ha.
  - destruct (FrameFacts.atkinson_alpha img palette Himg Hne) as (out' & E' & Ha).
    rewrite E' in E. injection E as <-. apply Ha.
  - pose proof DitherFacts.orderedCheck_sizes as Hchk.
    apply andb_prop in Hchk as [Hchk H8]. apply andb_prop in Hchk as [H2 H4].
    assert (Hn : exists n, matrixSize = Z.of_nat n /\
                           DitherFacts.orderedCheck n = true /\ 0 < n).
    { simpl in Hms. destruct Hms as [<-|[<-|[<-|[]]]];
        [exists 2|exists 4|exists 8];
        (split; [reflexivity|split; [assumption|lia]]). }
    clear H2 H4 H8.
    destruct Hn as (n & -> & Hc & Hn).
    destruct (FrameFacts.orderedDither_alpha img palette n Hc Hn Himg Hne)
      as (out' & E' & Ha).
    clear Hc. rewrite E' in E. injection E as <-. apply Ha.
Qed.

Lemma ramp3x1_wf : wfImage ramp3x1.
Proof.
  split; [reflexivity|]. unfold ramp3x1, isByte; simpl.
  repeat (constructor; [lia|]). constructor.
Qed.

Lemma dithering_keeps_alpha_witness :
  data (mkImageData [0; 0; 0; 255; 255; 255; 255; 255; 255; 255; 255; 255]%Z 3 1) !! 7 =
  data ramp3x1 !! 7.
Proof.
  assert (E : atkinson ramp3x1 [black; white] =
              Ok (mkImageData [0; 0; 0; 255; 255; 255; 255; 255; 255; 255; 255; 255]%Z 3 1))
    by (vm_compute; reflexivity).
  exact (dithering_keeps_alpha ramp3x1 [black; white] 4 ramp3x1_wf
           ltac:(discriminate) ltac:(simpl; auto)
           _ (or_intror (or_intror (or_introl E))) 1).
Defined.

Module FixpointFacts.
Import LoopFacts.

(** Byte values in the error buffer: the store into the [Float32Array] is
    exact, a byte minus itself is [+0], and adding [+0] changes nothing. *)
Definition byteBufferCheck : bool :=
  forallb (fun p : Z * float =>
             PrimFloat.Leibniz.eqb (fround (snd p)) (snd p) &&
             PrimFloat.Leibniz.eqb (snd p - snd p) 0 &&
             PrimFloat.Leibniz.eqb (fround (snd p + 0)) (snd p))
          NearestFacts.byteTable.

Lemma byteBufferCheck_ok : byteBufferCheck = true.
Proof. vm_cast_no_check (eq_refl true). Qed.

Lemma byteBuffer_facts (z : Z) :
  isByte z ->
  fround (Z2f z) = Z2f z /\ (Z2f z - Z2f z)%float = 0%float /\
  fround (Z2f z + 0) = Z2f z.
Proof.
  intros Hz.
  pose proof (proj1 (forallb_forall _ _) byteBufferCheck_ok (z, Z2f z)
                (NearestFacts.byteTable_In z Hz)) as H.
  cbv beta in H. cbn [fst snd] in H.
  apply andb_prop in H as [H H3]. apply andb_prop in H as [H1 H2].
  apply FloatAxioms.Leibniz.eqb_spec in H1, H2, H3. auto.
Qed.

Lemma initial_buffer (d : list Z) :
  Forall isByte d -> map (fun v => fround (Z2f v)) d = map Z2f d.
Proof.
  intros Hd. apply map_ext_in. intros z Hz.
  rewrite Forall_forall in Hd. apply byteBuffer_facts, Hd. now apply list_elem_of_In.
Qed.

(** Adding [+0] to a cell of a buffer of bytes. *)
Lemma addF_zero (d : list Z) (i : nat) :
  Forall isByte d -> addF (map Z2f d) i 0 = map Z2f d.
Proof.
  intros Hd. unfold addF, rdF.
  destruct (map Z2f d !! i) as [v|] eqn:E.
  - apply list_insert_id. rewrite E. f_equal. cbn [default].
    rewrite list_lookup_fmap in E.
    destruct (d !! i) as [z|] eqn:Ez; [|discriminate]. injection E as <-.
    symmetry. apply byteBuffer_facts.
    rewrite Forall_forall in Hd. apply Hd. eapply list_elem_of_lookup_2, Ez.
  - apply list_insert_ge. now apply lookup_ge_None.
Qed.

Lemma addErr_zero (d : list Z) (i : nat) :
  Forall isByte d -> addErr (map Z2f d) i 0 0 0 = map Z2f d.
Proof. intros Hd. unfold addErr. now rewrite !addF_zero. Qed.

Lemma spread_zero (d : list Z) (targets : list (nat * float)) :
  Forall isByte d ->
  Forall (fun t => (0 * snd t)%float = 0%float) targets ->
  spread 0 0 0 targets (map Z2f d) = map Z2f d.
Proof.
  intros Hd Ht. unfold spread.
  induction Ht as [|t rest Hz _ IH]; [reflexivity|].
  cbn [fold_left]. rewrite Hz, addErr_zero by exact Hd. exact IH.
Qed.

Lemma fsTargets_zero (w h x y : nat) :
  Forall (fun t => (0 * snd t)%float = 0%float) (fsTargets w h x y).
Proof.
  unfold fsTargets.
  destruct (x + 1 <? w), (y + 1 <? h), (0 <? x); cbn [app];
    repeat (constructor; [reflexivity|]); constructor.
Qed.

Lemma atkinsonTargets_zero (w h x y : nat) :
  Forall (fun t => (0 * snd t)%float = 0%float) (atkinsonTargets w h x y).
Proof.
  unfold atkinsonTargets.
  destruct (x + 1 <? w), (x + 2 <? w), (y + 1 <? h), (y + 2 <? h), (0 <? x);
    cbn [app andb]; repeat (constructor; [reflexivity|]); constructor.
Qed.

Lemma setRGB_same (d : list Z) (k : nat) (r g b : Z) :
  isByte r -> isByte g -> isByte b ->
  pixelAt d k = Some (r, g, b) -> setRGB d (k * 4) (r, g, b) = d.
Proof.
  intros Hr Hg Hb Hp. unfold pixelAt in Hp.
  replace (k * 4) with (4 * k) by lia.
  destruct (d !! (4 * k)) as [r0|] eqn:E0; [|discriminate].
  destruct (d !! (4 * k + 1)) as [g0|] eqn:E1; [|discriminate].
  destruct (d !! (4 * k + 2)) as [b0|] eqn:E2; [|discriminate].
  injection Hp as -> -> ->.
  unfold setRGB. rewrite !clampByte_id by assumption.
  rewrite (list_insert_id d (4 * k) r E0).
  rewrite (list_insert_id d (4 * k + 1) g E1).
  now rewrite (list_insert_id d (4 * k + 2) b E2).
Qed.

(** The colour chosen at a pixel that already carries a palette colour,
    read from a buffer that holds the bytes of the raster. *)
Lemma chosen_self (palette : list rgb) (d : list Z) (k : nat) :
  wfPalette palette -> Forall isByte d ->
  forall r g b, pixelAt d k = Some (r, g, b) -> (r, g, b) ∈ palette ->
  isByte r /\ isByte g /\ isByte b /\
  rdF (map Z2f d) (k * 4) = Z2f r /\ rdF (map Z2f d) (k * 4 + 1) = Z2f g /\
  rdF (map Z2f d) (k * 4 + 2) = Z2f b /\
  findClosestColor (Z2f r) (Z2f g) (Z2f b) palette = Some (r, g, b).
Proof.
  intros Hwf Hd r g b Hp Hin.
  pose proof Hwf as Hwf'. unfold wfPalette in Hwf'. rewrite Forall_forall in Hwf'.
  destruct (Hwf' _ Hin) as (Hr & Hg & Hb).
  unfold pixelAt in Hp. replace (k * 4) with (4 * k) by lia.
  destruct (d !! (4 * k)) as [r0|] eqn:E0; [|discriminate].
  destruct (d !! (4 * k + 1)) as [g0|] eqn:E1; [|discriminate].
  destruct (d !! (4 * k + 2)) as [b0|] eqn:E2; [|discriminate].
  injection Hp as -> -> ->.
  unfold rdF. rewrite !list_lookup_fmap, E0, E1, E2. cbn.
  repeat (split; [assumption || reflexivity|]).
  now apply NearestFacts.findClosestColor_self.
Qed.

Lemma errorLoop_fixed (palette : list rgb) (w h : nat) (d : list Z)
    (body : nat -> nat -> list Z * list float -> result (list Z * list float)) :
  (forall x y, x < w -> y < h ->
     forall r g b, pixelAt d (y * w + x) = Some (r, g, b) -> (r, g, b) ∈ palette ->
     body x y (d, map Z2f d) = Ok (d, map Z2f d)) ->
  paletteOnly palette d (w * h) ->
  forPixels w h body (d, map Z2f d) = Ok (d, map Z2f d).
Proof.
  intros Hbody Hp.
  destruct (forPixels_inv (fun _ s => s = (d, map Z2f d)) w h body (d, map Z2f d))
    as (s' & E & ->); [reflexivity| |exact E].
  intros x y s Hx Hy ->.
  assert (Hk : y * w + x < w * h) by nia.
  destruct (Hp _ Hk) as ([[r g] b] & Hin & Hpx).
  exists (d, map Z2f d). split; [|reflexivity]. now apply (Hbody x y Hx Hy r g b).
Qed.

Lemma floydSteinberg_fixed (img : ImageData) (palette : list rgb) :
  wfImage img -> wfPalette palette ->
  paletteOnly palette (data img) (width img * height img) ->
  floydSteinberg img palette = Ok img.
Proof.
  intros [Hl Hb] Hwf Hp. unfold floydSteinberg.
  rewrite (initial_buffer _ Hb).
  rewrite (errorLoop_fixed palette (width img) (height img) (data img)); [| |exact Hp].
  - destruct img; reflexivity.
  - intros x y Hx Hy r g b Hpx Hin.
    destruct (chosen_self palette (data img) (y * width img + x) Hwf Hb r g b Hpx Hin)
      as (Hr & Hg & Hb' & Er & Eg & Eb & Ec).
    pose proof (DiffusionFacts.fsPixel_spread palette (width img) (height img) x y
                  (data img) (map Z2f (data img))) as E.
    cbv zeta in E. rewrite Er, Eg, Eb, Ec in E. rewrite E.
    rewrite (setRGB_same _ _ r g b Hr Hg Hb' Hpx).
    rewrite (proj1 (proj2 (byteBuffer_facts r Hr))), (proj1 (proj2 (byteBuffer_facts g Hg))),
      (proj1 (proj2 (byteBuffer_facts b Hb'))).
    now rewrite (spread_zero _ _ Hb (fsTargets_zero _ _ _ _)).
Qed.

Lemma atkinson_fixed (img : ImageData) (palette : list rgb) :
  wfImage img -> wfPalette palette ->
  paletteOnly palette (data img) (width img * height img) ->
  atkinson img palette = Ok img.
Proof.
  intros [Hl Hb] Hwf Hp. unfold atkinson.
  rewrite (initial_buffer _ Hb).
  rewrite (errorLoop_fixed palette (width img) (height img) (data img)); [| |exact Hp].
  - destruct img; reflexivity.
  - intros x y Hx Hy r g b Hpx Hin.
    destruct (chosen_self palette (data img) (y * width img + x) Hwf Hb r g b Hpx Hin)
      as (Hr & Hg & Hb' & Er & Eg & Eb & Ec).
    pose proof (DiffusionFacts.atkinsonPixel_spread palette (width img) (height img) x y
                  (data img) (map Z2f (data img)) Hx Hy) as E.
    cbv zeta in E. rewrite Er, Eg, Eb, Ec in E. rewrite E.
    rewrite (setRGB_same _ _ r g b Hr Hg Hb' Hpx).
    rewrite (proj1 (proj2 (byteBuffer_facts r Hr))), (proj1 (proj2 (byteBuffer_facts g Hg))),
      (proj1 (proj2 (byteBuffer_facts b Hb'))).
    now rewrite (spread_zero _ _ Hb (atkinsonTargets_zero _ _ _ _)).
Qed.

End FixpointFacts.

(** X10 — Error diffusion changes nothing on a raster that is already made
    of palette colours: for a well-formed raster whose pixels all carry
    colours of the byte palette, [floydSteinberg] and [atkinson] return the
    raster unchanged (every error is zero). *)
Theorem error_diffusion_fixed_point (img : ImageData) (palette : list rgb) :
  wfImage img -> wfPalette palette ->
  paletteOnly palette (data img) (width img * height img) ->
  floydSteinberg img palette = Ok img /\ atkinson img palette = Ok img.
Proof.
  intros Himg Hwf Hp. split.
  - now apply FixpointFacts.floydSteinberg_fixed.
  - now apply FixpointFacts.atkinson_fixed.
Qed.

Lemma blackWhite2x1_wf : wfImage blackWhite2x1.
Proof.
  split; [reflexivity|]. unfold blackWhite2x1, isByte; simpl.
  repeat (constructor; [lia|]). constructor.
Qed.

Lemma blackWhite2x1_palette :
  paletteOnly [black; white] (data blackWhite2x1) (width blackWhite2x1 * height blackWhite2x1).
Proof.
  intros i Hi. simpl in Hi.
  destruct i as [|[|i]]; [exists black|exists white|lia];
    (split; [|reflexivity]); unfold black, white;
    [apply list_elem_of_here|apply list_elem_of_further, list_elem_of_here].
Qed.

Lemma error_diffusion_fixed_point_witness :
  floydSteinberg blackWhite2x1 [black; white] = Ok blackWhite2x1 /\
  atkinson blackWhite2x1 [black; white] = Ok blackWhite2x1.
Proof.
  exact (error_diffusion_fixed_point blackWhite2x1 [black; white]
           blackWhite2x1_wf blackWhite_wf blackWhite2x1_palette).
Defined.

(** X11 — The output of every strategy is a fixed point of the strategies
    that look for the nearest colour: for a well-formed raster and a
    non-empty byte palette, if [strategy] is one of the four strategies
    (ordered with a matrix size of 2, 4 or 8) and returns [out], then
    [quantize], [floydSteinberg] and [atkinson] all return [out] on [out].
    In particular quantize, Floyd-Steinberg and Atkinson are idempotent. *)
Theorem dithered_output_is_stable (img : ImageData) (palette : list rgb) (matrixSize : Z) :
  wfImage img -> wfPalette palette -> palette <> [] -> In matrixSize [2; 4; 8]%Z ->
  forall out,
    quantize img palette = Ok out \/ floydSteinberg img palette = Ok out \/
    atkinson img palette = Ok out \/ orderedDither img palette matrixSize = Ok out ->
    quantize out palette = Ok out /\
    floydSteinberg out palette = Ok out /\
    atkinson out palette = Ok out.
Proof.
  intros Himg Hwf Hne Hms out Hout.
  assert (H : wfImage out /\ paletteOnly palette (data out) (width out * height out)).
  { destruct Hout as [E|[E|[E|E]]].
    - destruct (DitherFacts.quantize_palette img palette Himg Hwf Hne)
        as (out' & E' & Hw & Hh & Hl & Hp).
      rewrite E' in E. injection E as <-. rewrite Hw, Hh. split; [|exact Hp].
      destruct Himg as [Hl0 Hb0]. split; [lia|].
      unfold quantize in E'.
      destruct (mapPixels (quantizePixel palette) (data img)) as [d|] eqn:Em; [|discriminate].
      injection E' as <-. cbn [data].
      refine (PosterizeFacts.mapPixels_bytes _ _ _ _ Hb0 Em).
      intros r g b c Hq.
      destruct (DitherFacts.quantizePixel_paints palette r g b Hwf Hne) as (c' & Hin & Hq').
      rewrite Hq' in Hq. injection Hq as <-.
      unfold wfPalette in Hwf. rewrite Forall_forall in Hwf. exact (Hwf _ Hin).
    - destruct (DitherFacts.floydSteinberg_palette img palette Himg Hwf Hne)
        as (out' & E' & Hw & Hh & Hwf' & Hp).
      rewrite E' in E. injection E as <-. rewrite Hw, Hh. auto.
    - destruct (DitherFacts.atkinson_palette img palette Himg Hwf Hne)
        as (out' & E' & Hw & Hh & Hwf' & Hp).
      rewrite E' in E. injection E as <-. rewrite Hw, Hh. auto.
    - pose proof DitherFacts.orderedCheck_sizes as Hchk.
      apply andb_prop in Hchk as [Hchk H8]. apply andb_prop in Hchk as [H2 H4].
      assert (Hn : exists n, matrixSize = Z.of_nat n /\
                             DitherFacts.orderedCheck n = true /\ 0 < n).
      { simpl in Hms. destruct Hms as [<-|[<-|[<-|[]]]];
          [exists 2|exists 4|exists 8];
          (split; [reflexivity|split; [assumption|lia]]). }
      clear H2 H4 H8.
      destruct Hn as (n & -> & Hc & Hn).
      destruct (DitherFacts.orderedDither_palette img palette n Hc Hn Himg Hwf Hne)
        as (out' & E' & Hw & Hh & Hwf' & Hp).
      clear Hc. rewrite E' in E. injection E as <-. rewrite Hw, Hh. auto. }
  destruct H as [Hwo Hpo].
  split; [now apply NearestFacts.quantize_fixpoint|].
  split; [now apply FixpointFacts.floydSteinberg_fixed|now apply FixpointFacts.atkinson_fixed].
Qed.

Lemma dithered_output_is_stable_witness :
  let out := mkImageData [0; 0; 0; 255; 255; 255; 255; 255; 255; 255; 255; 255]%Z 3 1 in
  quantize out [black; white] = Ok out /\
  floydSteinberg out [black; white] = Ok out /\
  atkinson out [black; white] = Ok out.
Proof.
  assert (E : atkinson ramp3x1 [black; white] =
              Ok (mkImageData [0; 0; 0; 255; 255; 255; 255; 255; 255; 255; 255; 255]%Z 3 1))
    by (vm_compute; reflexivity).
  exact (dithered_output_is_stable ramp3x1 [black; white] 4 ramp3x1_wf blackWhite_wf
           ltac:(discriminate) ltac:(simpl; auto)
           _ (or_intror (or_intror (or_introl E)))).
Defined.

Module SizeFacts.

Lemma orderedCheck_small : DitherFacts.orderedCheck 1 && DitherFacts.orderedCheck 3 = true.
Proof. vm_cast_no_check (eq_refl true). Qed.

Lemma is_nan_eq (x : float) : Prim2SF x = S754_nan -> x = nan.
Proof. intros H. rewrite <- (SF2Prim_Prim2SF x), H. reflexivity. Qed.

Lemma add_nan_r (x : float) : (x + nan)%float = nan.
Proof.
  apply is_nan_eq. rewrite FloatAxioms.add_spec.
  change (Prim2SF nan) with S754_nan.
  destruct (Prim2SF x) as [?|?| |? ? ?]; reflexivity.
Qed.

Lemma mul_nan_l (y : float) : (nan * y)%float = nan.
Proof.
  apply is_nan_eq. rewrite FloatAxioms.mul_spec.
  change (Prim2SF nan) with S754_nan. reflexivity.
Qed.

Lemma paletteIndex_nan (n : Z) : getPaletteIndexByLuminance nan n = NaNInt.
Proof.
  unfold getPaletteIndexByLuminance.
  change (nan / 255)%float with nan. rewrite mul_nan_l.
  change (Math_roundI nan) with NaNInt. reflexivity.
Qed.

(** Loops that can only throw a [TypeError]. *)
Lemma forEach_only {A St : Type} (body : A -> St -> result St) :
  (forall a s e, body a s = Throw e -> e = TypeError) ->
  forall l s e, forEach l body s = Throw e -> e = TypeError.
Proof.
  intros Hbody. induction l as [|a rest IH]; intros s e H; [discriminate|].
  cbn [forEach mbind result_bind] in H.
  destruct (body a s) as [s'|e'] eqn:E.
  - cbn in H. eapply IH, H.
  - cbn in H. injection H as <-. eapply Hbody, E.
Qed.

Lemma forEach_throws {A St : Type} (body : A -> St -> result St) (a : A) :
  (forall x s e, body x s = Throw e -> e = TypeError) ->
  (forall s, body a s = Throw TypeError) ->
  forall l s, In a l -> forEach l body s = Throw TypeError.
Proof.
  intros Hbody Ha. induction l as [|x rest IH]; intros s Hin; [destruct Hin|].
  cbn [forEach].
  destruct (body x s) as [s'|e'] eqn:E.
  - cbn. destruct Hin as [->|Hin]; [rewrite Ha in E; discriminate|]. now apply IH.
  - cbn. now rewrite (Hbody _ _ _ E).
Qed.

Lemma forPixels_throws {St : Type} (w h : nat) (body : nat -> nat -> St -> result St)
    (x y : nat) :
  (forall x y s e, body x y s = Throw e -> e = TypeError) ->
  (forall s, body x y s = Throw TypeError) -> x < w -> y < h ->
  forall s, forPixels w h body s = Throw TypeError.
Proof.
  intros Hbody Hxy Hx Hy s. unfold forPixels.
  apply (forEach_throws _ y).
  - intros y' s' e. apply forEach_only. intros a. apply Hbody.
  - intros s'. apply (forEach_throws _ x).
    + intros a. apply Hbody.
    + exact Hxy.
    + apply in_seq. lia.
  - apply in_seq. lia.
Qed.

Lemma orderedPixel_only (sortedPalette : list rgb) (matrixSize : Z) (w x y : nat)
    (d : list Z) (e : jsError) :
  orderedPixel sortedPalette matrixSize w x y d = Throw e -> e = TypeError.
Proof.
  unfold orderedPixel. cbv zeta.
  destruct (remIndex y matrixSize ≫= _); [|now intros [= <-]].
  destruct (indexOf _ ≫= _); [discriminate|now intros [= <-]].
Qed.

(** No row: the remainder is NaN, or a row number the 4x4 matrix has not. *)
Lemma orderedPixel_no_row (sortedPalette : list rgb) (matrixSize : Z) (w x y : nat)
    (d : list Z) :
  remIndex y matrixSize ≫= (bayerFor matrixSize !!.) = None ->
  orderedPixel sortedPalette matrixSize w x y d = Throw TypeError.
Proof. intros H. unfold orderedPixel. cbv zeta. now rewrite H. Qed.

(** No cell in the row: the threshold is [undefined], the index NaN. *)
Lemma orderedPixel_no_cell (sortedPalette : list rgb) (matrixSize : Z) (w x y : nat)
    (d : list Z) (row : list float) :
  remIndex y matrixSize ≫= (bayerFor matrixSize !!.) = Some row ->
  remIndex x matrixSize ≫= (row !!.) = None ->
  orderedPixel sortedPalette matrixSize w x y d = Throw TypeError.
Proof.
  intros Hrow Hcell. unfold orderedPixel. cbv zeta. rewrite Hrow, Hcell.
  cbn [default].
  change ((nan - 0.5) * 0.5)%float with nan. rewrite add_nan_r.
  change (nan * 255)%float with nan. rewrite paletteIndex_nan. reflexivity.
Qed.

Lemma remIndex_small (k : nat) (matrixSize : Z) :
  (Z.of_nat k < matrixSize)%Z -> remIndex k matrixSize = Some k.
Proof.
  intros H. unfold remIndex.
  replace (matrixSize =? 0)%Z with false by (symmetry; apply Z.eqb_neq; lia).
  rewrite Z.rem_small by lia. now rewrite Nat2Z.id.
Qed.

Lemma bayerFor_other (matrixSize : Z) :
  (5 <= matrixSize)%Z -> matrixSize <> 8%Z -> bayerFor matrixSize = bayer4.
Proof.
  intros H5 H8. unfold bayerFor.
  replace (matrixSize =? 2)%Z with false by (symmetry; apply Z.eqb_neq; lia).
  replace (matrixSize =? 8)%Z with false by (symmetry; apply Z.eqb_neq; lia).
  reflexivity.
Qed.

End SizeFacts.

(** X12 — [orderedDither] with a matrix size that has no matrix of its
    own, on a raster with at least one pixel. The fallback is the 4x4
    matrix, but the row and column numbers are still taken modulo the size
    asked for: sizes 1 and 3 work (for a well-formed raster and a non-empty
    byte palette the result has the same size and palette colours only),
    size 0 throws a TypeError at the first pixel, and a size of 5 or more
    other than 8 throws a TypeError as soon as the raster has a fifth row
    or a fifth column. *)
Theorem orderedDither_other_sizes (img : ImageData) (palette : list rgb) (matrixSize : Z) :
  0 < width img -> 0 < height img ->
  (In matrixSize [1; 3]%Z -> wfImage img -> wfPalette palette -> palette <> [] ->
     exists out, orderedDither img palette matrixSize = Ok out /\
       width out = width img /\ height out = height img /\
       paletteOnly palette (data out) (width img * height img)) /\
  (matrixSize = 0%Z -> orderedDither img palette matrixSize = Throw TypeError) /\
  ((5 <= matrixSize)%Z -> matrixSize <> 8%Z -> 5 <= width img \/ 5 <= height img ->
     orderedDither img palette matrixSize = Throw TypeError).
Proof.
  intros Hw Hh. split; [|split].
  - intros Hms Himg Hpal Hne.
    pose proof SizeFacts.orderedCheck_small as Hchk.
    apply andb_prop in Hchk as [C1 C3].
    assert (Hn : exists n, matrixSize = Z.of_nat n /\
                   DitherFacts.orderedCheck n = true /\ 0 < n).
    { simpl in Hms. destruct Hms as [<-|[<-|[]]]; [exists 1|exists 3];
        (split; [reflexivity|split; [assumption|lia]]). }
    clear C1 C3. destruct Hn as (n & -> & Hc & Hn).
    destruct (DitherFacts.orderedDither_palette img palette n Hc Hn Himg Hpal Hne)
      as (out & E & W & H & _ & P). eauto 10.
  - intros ->. unfold orderedDither.
    rewrite (SizeFacts.forPixels_throws (width img) (height img) _ 0 0);
      [reflexivity| | |lia|lia].
    + intros x y s e. apply SizeFacts.orderedPixel_only.
    + intros s. now apply SizeFacts.orderedPixel_no_row.
  - intros H5 H8 Hfive. unfold orderedDither.
    destruct Hfive as [Hfive|Hfive].
    + rewrite (SizeFacts.forPixels_throws (width img) (height img) _ 4 0);
        [reflexivity| | |lia|lia].
      * intros x y s e. apply SizeFacts.orderedPixel_only.
      * intros s. eapply SizeFacts.orderedPixel_no_cell.
        -- rewrite SizeFacts.remIndex_small, SizeFacts.bayerFor_other by (simpl; lia).
           reflexivity.
        -- rewrite SizeFacts.remIndex_small by (simpl; lia). reflexivity.
    + rewrite (SizeFacts.forPixels_throws (width img) (height img) _ 0 4);
        [reflexivity| | |lia|lia].
      * intros x y s e. apply SizeFacts.orderedPixel_only.
      * intros s. apply SizeFacts.orderedPixel_no_row.
        rewrite SizeFacts.remIndex_small, SizeFacts.bayerFor_other by (simpl; lia).
        reflexivity.
Qed.

Lemma orderedDither_other_sizes_witness :
  orderedDither gray2x2 [black; white] 0 = Throw TypeError.
Proof.
  refine (proj1 (proj2 (orderedDither_other_sizes gray2x2 [black; white] 0 _ _)) eq_refl);
    simpl; lia.
Defined.

(** ** Further properties of [EffectsEngine] *)
Module PosterizeMore.
Import LoopFacts.

(** One channel of the per-channel pass, with the store into the raster. *)
Definition posterizeChannel (step : float) (v : Z) : Z :=
  toUint8Clamp (Math_round (Z2f v / step) * step)%float.

Definition levelRange : list Z := [2; 3; 4; 5; 6; 7; 8; 9; 10; 11; 12; 13; 14; 15; 16]%Z.

Lemma levelRange_In (levels : Z) : In (Z.max 2 (Z.min 16 levels)) levelRange.
Proof.
  assert (H : (2 <= Z.max 2 (Z.min 16 levels) <= 16)%Z) by lia.
  generalize dependent (Z.max 2 (Z.min 16 levels)). intros v Hv.
  unfold levelRange. simpl.
  assert (v = 2 \/ v = 3 \/ v = 4 \/ v = 5 \/ v = 6 \/ v = 7 \/ v = 8 \/ v = 9 \/ v = 10 \/
          v = 11 \/ v = 12 \/ v = 13 \/ v = 14 \/ v = 15 \/ v = 16)%Z by lia.
  intuition auto.
Qed.

(** For every level count and every byte: the posterized byte is one of
    the [levels] bytes [round (k * step)], k = 0 .. levels - 1, and is
    posterized to itself. *)
Definition channelCell (levels v : Z) : bool :=
  let step := (255 / Z2f (levels - 1))%float in
  let v' := posterizeChannel step v in
  (posterizeChannel step v' =? v')%Z &&
  existsb (fun k => (toUint8Clamp (Z2f k * step) =? v')%Z)
          (map Z.of_nat (seq 0 (Z.to_nat levels))).

Lemma channelCheck_ok :
  forallb (fun levels => forallb (channelCell levels) DitherFacts.byteRange) levelRange = true.
Proof. vm_cast_no_check (eq_refl true). Qed.

Lemma posterizeChannel_spec (levels v : Z) :
  isByte v ->
  let lv := Z.max 2 (Z.min 16 levels) in
  let step := (255 / Z2f (lv - 1))%float in
  let v' := posterizeChannel step v in
  posterizeChannel step v' = v' /\
  exists k, (0 <= k < lv)%Z /\ toUint8Clamp (Z2f k * step) = v'.
Proof.
  intros Hv. cbv zeta.
  assert (Hcell : channelCell (Z.max 2 (Z.min 16 levels)) v = true).
  { pose proof (proj1 (forallb_forall _ _) channelCheck_ok _ (levelRange_In levels)) as Hrow.
    exact (proj1 (forallb_forall _ _) Hrow v (DitherFacts.byteRange_In v Hv)). }
  assert (Hlv : (2 <= Z.max 2 (Z.min 16 levels))%Z) by lia.
  generalize dependent (Z.max 2 (Z.min 16 levels)). intros lv Hcell Hlv.
  unfold channelCell in Hcell. cbv zeta in Hcell.
  apply andb_prop in Hcell as [H1 H2]. apply Z.eqb_eq in H1.
  split; [exact H1|].
  apply existsb_exists in H2 as (k & Hk & E). apply Z.eqb_eq in E.
  exists k. split; [|exact E].
  apply in_map_iff in Hk as (n & <- & Hn). apply in_seq in Hn. lia.
Qed.

End PosterizeMore.

(** X13 — Per-channel posterization without a palette: for every
    well-formed raster and every level count (clamped to 2..16, with
    step = 255 / (levels - 1)) the call succeeds; every colour byte of the
    output is one of the [levels] bytes round(k * step), k = 0 .. levels - 1;
    alpha is kept; and posterizing the output again returns it unchanged. *)
Theorem posterize_per_channel_idempotent (img : ImageData) (levels : Z) :
  wfImage img ->
  let lv := Z.max 2 (Z.min 16 levels) in
  let step := (255 / Z2f (lv - 1))%float in
  exists out,
    posterize img levels "per-channel" None = Ok out /\
    wfImage out /\ width out = width img /\ height out = height img /\
    (forall i r g b, i < width img * height img -> pixelAt (data img) i = Some (r, g, b) ->
       pixelAt (data out) i =
         Some (PosterizeMore.posterizeChannel step r, PosterizeMore.posterizeChannel step g,
               PosterizeMore.posterizeChannel step b) /\
       (forall v, In v [r; g; b] ->
          exists k, (0 <= k < lv)%Z /\
            toUint8Clamp (Z2f k * step) = PosterizeMore.posterizeChannel step v) /\
       data out !! (4 * i + 3) = data img !! (4 * i + 3)) /\
    posterize out levels "per-channel" None = Ok out.
Proof.
  intros [Hl Hb] lv step.
  assert (Hstage : forall d, posterizeStage d lv "per-channel" None =
                             mapPixels (posterizeChannelPixel step) d) by reflexivity.
  destruct (LoopFacts.mapPixels_total (posterizeChannelPixel step) (data img)) as (d' & E);
    [unfold posterizeChannelPixel; eauto|].
  pose proof (LoopFacts.mapPixels_length _ _ _ E) as Hl'.
  pose proof (PosterizeFacts.mapPixels_bytes _ (PosterizeFacts.posterizeChannelPixel_byte _)
                _ _ Hb E) as Hb'.
  assert (Hpix : forall i r g b, 4 * i + 3 < length (data img) ->
            pixelAt (data img) i = Some (r, g, b) ->
            pixelAt d' i = Some (PosterizeMore.posterizeChannel step r,
                                 PosterizeMore.posterizeChannel step g,
                                 PosterizeMore.posterizeChannel step b)).
  { intros i r g b Hi Hp.
    destruct (LoopFacts.mapPixels_pixelAt _ _ _ E i r g b Hi Hp) as (c & Hc & Hp').
    unfold posterizeChannelPixel in Hc. injection Hc as <-. exact Hp'. }
  exists (mkImageData d' (width img) (height img)).
  split; [unfold posterize; fold lv; rewrite Hstage, E; reflexivity|].
  split; [split; cbn [data width height]; [lia|exact Hb']|].
  split; [reflexivity|]. split; [reflexivity|]. split.
  - intros i r g b Hi Hp. cbn [data].
    split; [apply Hpix; [lia|exact Hp]|]. split.
    + intros v Hv.
      assert (Hbv : isByte v).
      { unfold pixelAt in Hp.
        destruct (data img !! (4 * i)) as [r0|] eqn:E0; [|discriminate].
        destruct (data img !! (4 * i + 1)) as [g0|] eqn:E1; [|discriminate].
        destruct (data img !! (4 * i + 2)) as [b0|] eqn:E2; [|discriminate].
        injection Hp as -> -> ->. rewrite Forall_forall in Hb.
        simpl in Hv. destruct Hv as [<-|[<-|[<-|[]]]];
          apply Hb; eapply list_elem_of_lookup_2; eassumption. }
      exact (proj2 (PosterizeMore.posterizeChannel_spec levels v Hbv)).
    + exact (FrameFacts.mapPixels_alpha _ _ _ E i).
  - unfold posterize. fold lv. cbn [data width height]. rewrite Hstage.
    rewrite (LoopFacts.mapPixels_id (posterizeChannelPixel step) d'); [reflexivity|].
    intros i r g b Hi Hp. rewrite Hl' in Hi.
    destruct (LoopFacts.pixelAt_defined (data img) i ltac:(lia)) as ([[r0 g0] b0] & Hp0).
    rewrite (Hpix i r0 g0 b0 Hi Hp0) in Hp. injection Hp as <- <- <-.
    assert (Hb0 : isByte r0 /\ isByte g0 /\ isByte b0).
    { unfold pixelAt in Hp0.
      destruct (data img !! (4 * i)) as [r1|] eqn:E0; [|discriminate].
      destruct (data img !! (4 * i + 1)) as [g1|] eqn:E1; [|discriminate].
      destruct (data img !! (4 * i + 2)) as [b1|] eqn:E2; [|discriminate].
      injection Hp0 as -> -> ->. rewrite Forall_forall in Hb.
      repeat split; apply Hb; eapply list_elem_of_lookup_2; eassumption. }
    destruct Hb0 as (Hr0 & Hg0 & Hb0).
    pose proof (proj1 (PosterizeMore.posterizeChannel_spec levels r0 Hr0)) as Er.
    pose proof (proj1 (PosterizeMore.posterizeChannel_spec levels g0 Hg0)) as Eg.
    pose proof (proj1 (PosterizeMore.posterizeChannel_spec levels b0 Hb0)) as Eb.
    cbv zeta in Er, Eg, Eb. fold lv in Er, Eg, Eb. fold step in Er, Eg, Eb.
    unfold posterizeChannelPixel.
    unfold PosterizeMore.posterizeChannel in *. now rewrite Er, Eg, Eb.
Qed.

Lemma posterize_per_channel_idempotent_witness :
  exists out,
    posterize darkPixel 4 "per-channel" None = Ok out /\
    posterize out 4 "per-channel" None = Ok out.
Proof.
  destruct (posterize_per_channel_idempotent darkPixel 4) as (out & E & _ & _ & _ & _ & E').
  - split; [reflexivity|]. unfold darkPixel, isByte; simpl.
    repeat (constructor; [lia|]). constructor.
  - exists out. split; assumption.
Defined.

Module PosterizeFrame.

Lemma posterizeStage_alpha (d mid : list Z) (levels : Z) (mode : string)
    (palette : option (list rgb)) :
  posterizeStage d levels mode palette = Ok mid ->
  forall i, FrameFacts.alphaAt mid i = FrameFacts.alphaAt d i.
Proof.
  unfold posterizeStage. intros H i.
  destruct (_ && _); [exact (FrameFacts.mapPixels_alpha _ _ _ H i)|].
  destruct (mode =? "per-channel")%string; [exact (FrameFacts.mapPixels_alpha _ _ _ H i)|].
  destruct (mode =? "artistic")%string; [exact (FrameFacts.mapPixels_alpha _ _ _ H i)|].
  now injection H as <-.
Qed.

Lemma posterize_alpha (img out : ImageData) (levels : Z) (mode : string)
    (palette : option (list rgb)) :
  posterize img levels mode palette = Ok out ->
  forall i, FrameFacts.alphaAt (data out) i = FrameFacts.alphaAt (data img) i.
Proof.
  unfold posterize. intros H i.
  destruct (posterizeStage _ _ _ _) as [mid|] eqn:Em; [|discriminate].
  cbn [mbind result_bind] in H.
  rewrite <- (posterizeStage_alpha _ _ _ _ _ Em i).
  destruct palette as [p|].
  - destruct (0 <? length p)%nat.
    + destruct (mapPixels _ mid) as [d|] eqn:Ed; [|discriminate].
      cbn [mbind result_bind] in H. injection H as <-.
      exact (FrameFacts.mapPixels_alpha _ _ _ Ed i).
    + cbn [mbind result_bind] in H. now injection H as <-.
  - cbn [mbind result_bind] in H. now injection H as <-.
Qed.

End PosterizeFrame.

(** X14 — [posterize] keeps the raster: for every well-formed raster,
    every level count, every mode name and every palette argument (null, or
    an array of byte colours, possibly empty) the call succeeds and returns
    a well-formed raster of the same width and height in which every alpha
    byte is the one of the input. *)
Theorem posterize_keeps_raster (img : ImageData) (levels : Z) (mode : string)
    (palette : option (list rgb)) :
  wfImage img -> (forall p, palette = Some p -> wfPalette p) ->
  exists out, posterize img levels mode palette = Ok out /\
    wfImage out /\ width out = width img /\ height out = height img /\
    forall i, data out !! (4 * i + 3) = data img !! (4 * i + 3).
Proof.
  intros Himg Hpal.
  assert (H : exists out, posterize img levels mode palette = Ok out /\
                wfImage out /\ width out = width img /\ height out = height img).
  { assert (Hnone : palette = None \/ palette = Some [] ->
              exists out, posterize img levels mode palette = Ok out /\
                wfImage out /\ width out = width img /\ height out = height img).
    { intros Hp. unfold posterize.
      destruct (PosterizeFacts.posterizeStage_total (data img)
                  (Z.max 2 (Z.min 16 levels)) mode palette) as (mid & -> & Hlm & Hbm).
      destruct Himg as [Hl Hb].
      exists (mkImageData mid (width img) (height img)).
      split; [destruct Hp as [->| ->]; reflexivity|].
      split; [split; cbn [data width height]; [lia|auto]|]. split; reflexivity. }
    destruct palette as [[|c rest]|]; [apply Hnone; now right| |apply Hnone; now left].
    destruct (PosterizeFacts.posterize_palette_spec img levels mode (c :: rest) Himg
                (Hpal _ eq_refl) ltac:(discriminate))
      as (mid & out & _ & Eout & Hw & Hh & Hl & Hb & _).
    exists out. split; [exact Eout|]. destruct Himg as [Hl0 _].
    split; [split; [rewrite Hw, Hh; lia|exact Hb]|]. split; assumption. }
  destruct H as (out & E & Hwf & Hw & Hh).
  exists out. split; [exact E|]. split; [exact Hwf|]. split; [exact Hw|]. split; [exact Hh|].
  exact (PosterizeFrame.posterize_alpha img out levels mode palette E).
Qed.

Lemma posterize_keeps_raster_witness :
  exists out, posterize gray2x2 3 "artistic" (Some [black; white]) = Ok out /\
    wfImage out /\ width out = 2 /\ height out = 2 /\
    forall i, data out !! (4 * i + 3) = data gray2x2 !! (4 * i + 3).
Proof.
  apply (posterize_keeps_raster gray2x2 3 "artistic" (Some [black; white]) gray2x2_wf).
  intros p [= <-]. exact blackWhite_wf.
Defined.

Module BlendMore.

Definition symmetricModes : list string :=
  ["multiply"; "screen"; "difference"; "exclusion"; "lighten"; "darken"]%string.

(** On normalized bytes the symmetric modes give the same Number with
    the arguments exchanged, and overlay is hard-light with the arguments
    exchanged. *)
Definition symmetryCell (b l : float) : bool :=
  forallb (fun mode => PrimFloat.Leibniz.eqb (blendNormalized mode b l)
                                             (blendNormalized mode l b))
          symmetricModes &&
  PrimFloat.Leibniz.eqb (blendNormalized "overlay" b l) (blendNormalized "hard-light" l b).

Lemma symmetryCheck_ok :
  forallb (fun b => forallb (symmetryCell b) BlendFacts.normTable) BlendFacts.normTable = true.
Proof. vm_cast_no_check (eq_refl true). Qed.

Lemma symmetryCell_byte (base blend : Z) :
  isByte base -> isByte blend ->
  symmetryCell (Z2f base / 255) (Z2f blend / 255) = true.
Proof.
  intros Hb Hl.
  pose proof (proj1 (forallb_forall _ _) symmetryCheck_ok _ (BlendFacts.normTable_In _ Hb))
    as Hrow.
  exact (proj1 (forallb_forall _ _) Hrow _ (BlendFacts.normTable_In _ Hl)).
Qed.

(** Neutral and absorbing overlays, on the bytes. *)
Definition neutralCell (p : Z * float) : bool :=
  let x := snd p in
  PrimFloat.Leibniz.eqb (blendPixel x 255 "multiply") x &&
  PrimFloat.Leibniz.eqb (blendPixel x 0 "multiply") 0 &&
  PrimFloat.Leibniz.eqb (blendPixel x 0 "screen") x &&
  PrimFloat.Leibniz.eqb (blendPixel x 255 "screen") 255 &&
  PrimFloat.Leibniz.eqb (blendPixel x 0 "lighten") x &&
  PrimFloat.Leibniz.eqb (blendPixel x 255 "lighten") 255 &&
  PrimFloat.Leibniz.eqb (blendPixel x 255 "darken") x &&
  PrimFloat.Leibniz.eqb (blendPixel x 0 "darken") 0 &&
  PrimFloat.Leibniz.eqb (blendPixel x 0 "difference") x &&
  PrimFloat.Leibniz.eqb (blendPixel x x "difference") 0 &&
  PrimFloat.Leibniz.eqb (blendPixel x 0 "exclusion") x &&
  PrimFloat.Leibniz.eqb (blendPixel x 0 "color-dodge") x &&
  PrimFloat.Leibniz.eqb (blendPixel x 255 "color-burn") x &&
  PrimFloat.Leibniz.eqb (blendPixel x x "lighten") x &&
  PrimFloat.Leibniz.eqb (blendPixel x x "darken") x.

Lemma neutralCheck_ok : forallb neutralCell NearestFacts.byteTable = true.
Proof. vm_cast_no_check (eq_refl true). Qed.

End BlendMore.

(** X15 — Symmetry of the blend modes on bytes: multiply, screen,
    difference, exclusion, lighten and darken give the same result when base
    and overlay are exchanged, and overlay is hard-light with base and
    overlay exchanged. *)
Theorem blendPixel_symmetry (base blend : Z) :
  isByte base -> isByte blend ->
  (forall mode, In mode BlendMore.symmetricModes ->
     blendPixel (Z2f base) (Z2f blend) mode = blendPixel (Z2f blend) (Z2f base) mode) /\
  blendPixel (Z2f base) (Z2f blend) "overlay" = blendPixel (Z2f blend) (Z2f base) "hard-light".
Proof.
  intros Hb Hl.
  pose proof (BlendMore.symmetryCell_byte base blend Hb Hl) as H.
  unfold BlendMore.symmetryCell in H. apply andb_prop in H as [Hs Ho].
  split.
  - intros mode Hm.
    pose proof (proj1 (forallb_forall _ _) Hs mode Hm) as E. cbv beta in E.
    apply FloatAxioms.Leibniz.eqb_spec in E.
    unfold blendPixel. cbv zeta. now rewrite E.
  - apply FloatAxioms.Leibniz.eqb_spec in Ho.
    unfold blendPixel. cbv zeta. now rewrite Ho.
Qed.

Lemma blendPixel_symmetry_witness :
  blendPixel (Z2f 40) (Z2f 200) "screen" = blendPixel (Z2f 200) (Z2f 40) "screen" /\
  blendPixel (Z2f 40) (Z2f 200) "overlay" = blendPixel (Z2f 200) (Z2f 40) "hard-light".
Proof.
  destruct (blendPixel_symmetry 40 200) as [Hs Ho]; try (unfold isByte; lia).
  split; [apply Hs; simpl; auto|exact Ho].
Defined.

(** X16 — Neutral and absorbing overlays: for every byte x, white is
    neutral for multiply, darken and color-burn and absorbing for screen and
    lighten; black is neutral for screen, lighten, difference, exclusion and
    color-dodge and absorbing for multiply and darken; difference of x with
    itself is 0, and lighten and darken of x with itself are x. *)
Theorem blendPixel_neutral_overlays (x : Z) :
  isByte x ->
  let v := Z2f x in
  blendPixel v 255 "multiply" = v /\ blendPixel v 0 "multiply" = 0%float /\
  blendPixel v 0 "screen" = v /\ blendPixel v 255 "screen" = 255%float /\
  blendPixel v 0 "lighten" = v /\ blendPixel v 255 "lighten" = 255%float /\
  blendPixel v 255 "darken" = v /\ blendPixel v 0 "darken" = 0%float /\
  blendPixel v 0 "difference" = v /\ blendPixel v v "difference" = 0%float /\
  blendPixel v 0 "exclusion" = v /\
  blendPixel v 0 "color-dodge" = v /\ blendPixel v 255 "color-burn" = v /\
  blendPixel v v "lighten" = v /\ blendPixel v v "darken" = v.
Proof.
  intros Hx v.
  pose proof (proj1 (forallb_forall _ _) BlendMore.neutralCheck_ok (x, Z2f x)
                (NearestFacts.byteTable_In x Hx)) as H.
  unfold BlendMore.neutralCell in H. cbn [snd] in H. cbv zeta in H. fold v in H.
  repeat (apply andb_prop in H as [H ?]).
  repeat match goal with
         | E : PrimFloat.Leibniz.eqb _ _ = true |- _ =>
             apply FloatAxioms.Leibniz.eqb_spec in E
         end.
  repeat split; assumption.
Qed.

Lemma blendPixel_neutral_overlays_witness :
  blendPixel (Z2f 77) 255 "multiply" = Z2f 77 /\ blendPixel (Z2f 77) 0 "screen" = Z2f 77.
Proof.
  destruct (blendPixel_neutral_overlays 77) as (H1 & _ & H2 & _); [unfold isByte; lia|].
  split; assumption.
Defined.

Module LinearBlend.
Import LoopFacts.

(** The two end points of the linear blend, on bytes. *)
Definition endCell (p : Z * float) : bool :=
  let x := snd p in
  PrimFloat.Leibniz.eqb (x * 1) x && PrimFloat.Leibniz.eqb (x * 0) 0 &&
  PrimFloat.Leibniz.eqb (x + 0) x && PrimFloat.Leibniz.eqb (0 + x) x &&
  (toUint8Clamp x =? fst p)%Z.

Lemma endCheck_ok : forallb endCell NearestFacts.byteTable = true.
Proof. vm_cast_no_check (eq_refl true). Qed.

Lemma end_facts (z : Z) :
  isByte z ->
  (Z2f z * 1 = Z2f z /\ Z2f z * 0 = 0 /\ Z2f z + 0 = Z2f z /\ 0 + Z2f z = Z2f z)%float /\
  toUint8Clamp (Z2f z) = z.
Proof.
  intros Hz.
  pose proof (proj1 (forallb_forall _ _) endCheck_ok (z, Z2f z)
                (NearestFacts.byteTable_In z Hz)) as H.
  unfold endCell in H. cbn [fst snd] in H. cbv zeta in H.
  repeat (apply andb_prop in H as [H ?]).
  repeat match goal with
         | E : PrimFloat.Leibniz.eqb _ _ = true |- _ =>
             apply FloatAxioms.Leibniz.eqb_spec in E
         end.
  match goal with E : (_ =? _)%Z = true |- _ => apply Z.eqb_eq in E end.
  repeat split; assumption.
Qed.

Lemma keep_byte (p o : Z) :
  isByte p -> isByte o -> toUint8Clamp (Z2f p * 1 + Z2f o * 0) = p.
Proof.
  intros Hp Ho.
  destruct (end_facts p Hp) as ((E1 & _ & E3 & _) & E5).
  destruct (end_facts o Ho) as ((_ & E2 & _) & _).
  now rewrite E1, E2, E3.
Qed.

Lemma take_byte (p o : Z) :
  isByte p -> isByte o -> toUint8Clamp (Z2f p * 0 + Z2f o * 1) = o.
Proof.
  intros Hp Ho.
  destruct (end_facts p Hp) as ((_ & E2 & _) & _).
  destruct (end_facts o Ho) as ((E1 & _ & _ & E4) & E5).
  now rewrite E1, E2, E4.
Qed.

Lemma blendData_length (invBlend blendAmount : float) :
  forall processed original,
  length (blendData invBlend blendAmount processed original) = length processed.
Proof.
  induction processed as [d Hshort|r g b a rest IH] using list4_ind; intros original.
  - destruct d as [|? [|? [|? [|? ?]]]]; simpl in *; try reflexivity; lia.
  - cbn [blendData length]. now rewrite IH.
Qed.

Lemma blendData_keep :
  forall processed original,
  Forall isByte processed -> Forall isByte original ->
  length original = length processed ->
  blendData 1 0 processed original = processed.
Proof.
  induction processed as [d Hshort|r g b a rest IH] using list4_ind;
    intros original Hp Ho Hlen.
  - destruct d as [|? [|? [|? [|? ?]]]]; simpl in *; try reflexivity; lia.
  - destruct original as [|r0 [|g0 [|b0 [|a0 rest0]]]];
      cbn [length] in Hlen; try lia.
    cbn [blendData]. unfold rdB.
    change (drop 4 (r0 :: g0 :: b0 :: a0 :: rest0)) with rest0.
    cbn [lookup list_lookup].
    inversion Hp as [|? ? Hr Hp1]; subst. inversion Hp1 as [|? ? Hg Hp2]; subst.
    inversion Hp2 as [|? ? Hb Hp3]; subst. inversion Hp3 as [|? ? Ha Hp4]; subst.
    inversion Ho as [|? ? Hr0 Ho1]; subst. inversion Ho1 as [|? ? Hg0 Ho2]; subst.
    inversion Ho2 as [|? ? Hb0 Ho3]; subst. inversion Ho3 as [|? ? Ha0 Ho4]; subst.
    rewrite !keep_byte by assumption.
    rewrite IH; [reflexivity|assumption|assumption|]. simpl in Hlen. lia.
Qed.

Lemma blendData_take :
  forall processed original i,
  Forall isByte processed -> Forall isByte original ->
  length original = length processed -> 4 * i + 3 < length processed ->
  pixelAt (blendData 0 1 processed original) i = pixelAt original i /\
  blendData 0 1 processed original !! (4 * i + 3) = processed !! (4 * i + 3).
Proof.
  induction processed as [d Hshort|r g b a rest IH] using list4_ind;
    intros original i Hp Ho Hlen Hi; [lia|].
  destruct original as [|r0 [|g0 [|b0 [|a0 rest0]]]];
      cbn [length] in Hlen; try lia.
  cbn [blendData]. unfold rdB.
    change (drop 4 (r0 :: g0 :: b0 :: a0 :: rest0)) with rest0.
    cbn [lookup list_lookup].
  inversion Hp as [|? ? Hr Hp1]; subst. inversion Hp1 as [|? ? Hg Hp2]; subst.
  inversion Hp2 as [|? ? Hb Hp3]; subst. inversion Hp3 as [|? ? Ha Hp4]; subst.
  inversion Ho as [|? ? Hr0 Ho1]; subst. inversion Ho1 as [|? ? Hg0 Ho2]; subst.
  inversion Ho2 as [|? ? Hb0 Ho3]; subst. inversion Ho3 as [|? ? Ha0 Ho4]; subst.
  rewrite !take_byte by assumption.
  destruct i as [|i].
  - split; reflexivity.
  - rewrite !pixelAt_group_S.
    replace (4 * S i + 3) with (S (S (S (S (4 * i + 3))))) by lia.
    cbn [length] in Hlen, Hi.
    apply IH; try assumption; lia.
Qed.

End LinearBlend.

(** X17 — The end points of [blendWithOriginal]: for two well-formed
    rasters of the same size, the blend amount 0 returns the processed
    raster unchanged, and the blend amount 1 returns a raster of the same
    size whose pixels have the colours of the reference raster and the alpha
    bytes of the processed raster. *)
Theorem blendWithOriginal_end_points (processedData originalData : ImageData) :
  wfImage processedData -> wfImage originalData ->
  width originalData = width processedData -> height originalData = height processedData ->
  blendWithOriginal processedData originalData 0 = processedData /\
  let out := blendWithOriginal processedData originalData 1 in
  width out = width processedData /\ height out = height processedData /\
  length (data out) = length (data processedData) /\
  forall i, i < width processedData * height processedData ->
    pixelAt (data out) i = pixelAt (data originalData) i /\
    data out !! (4 * i + 3) = data processedData !! (4 * i + 3).
Proof.
  intros [Hlp Hbp] [Hlo Hbo] Hw Hh.
  assert (Hlen : length (data originalData) = length (data processedData))
    by (rewrite Hlp, Hlo, Hw, Hh; reflexivity).
  unfold blendWithOriginal.
  change (1 - 0)%float with 1%float. change (1 - 1)%float with 0%float.
  split.
  - rewrite LinearBlend.blendData_keep by assumption. destruct processedData; reflexivity.
  - cbn [width height data].
    split; [reflexivity|]. split; [reflexivity|].
    split; [apply LinearBlend.blendData_length|].
    intros i Hi. apply LinearBlend.blendData_take; try assumption. lia.
Qed.

Lemma blendWithOriginal_end_points_witness :
  blendWithOriginal gray2x2 gray2x2 0 = gray2x2.
Proof.
  exact (proj1 (blendWithOriginal_end_points gray2x2 gray2x2 gray2x2_wf gray2x2_wf
                  eq_refl eq_refl)).
Defined.

(** The settings of a two-colour Floyd-Steinberg run at full strength. *)
Definition fullStrength : Settings :=
  mkSettings ["#000000"; "#ffffff"]%string "floyd-steinberg" 100 4 true 4 "per-channel" false.

(** X18 — The raster that steps 1 and 2 of [process] produce is
    palette-only whenever the dithered raster is not blended back: for a
    well-formed working raster, at least one colour and a matrix size of 2,
    4 or 8, with a dither strength of 100 or more, or a positive strength
    and the kind "none", the two steps succeed and return a raster of the
    same size in which every pixel is one of the palette colours, whatever
    the posterization settings and the dither kind are. *)
Theorem process_unblended_is_palette_only (s : Settings) (working : ImageData) :
  wfImage working -> colors s <> [] -> In (orderedMatrixSize s) [2; 4; 8]%Z ->
  (100 <= ditherStrength s)%Z \/
  ((0 < ditherStrength s)%Z /\ ditherType s = "none"%string) ->
  exists out, process (Some working) s = Ok out /\
    width out = width working /\ height out = height working /\
    paletteOnly (map hexToRgb (colors s)) (data out) (width working * height working).
Proof.
  intros Himg Hne Hms Hst. cbn [process].
  now apply RunFacts.processSteps_unblended.
Qed.

Lemma process_unblended_is_palette_only_witness :
  exists out, process (Some gray2x2) fullStrength = Ok out /\
    width out = 2 /\ height out = 2 /\
    paletteOnly (map hexToRgb (colors fullStrength)) (data out) (2 * 2).
Proof.
  apply (process_unblended_is_palette_only fullStrength gray2x2 gray2x2_wf).
  - discriminate.
  - cbn. right. left. reflexivity.
  - left. cbn. lia.
Defined.

Module StateFacts.
Import StateManager.

Lemma splice_length {A : Type} (l : list A) (start deleteCount : Z) (items : list A) :
  length (splice l start deleteCount items) + Z.to_nat (Z.max deleteCount 0) >= length l + length items /\
  length (splice l start deleteCount items) <= length l + length items.
Proof.
  unfold splice, relativeStart. cbv zeta.
  rewrite !length_app, length_take, length_drop.
  destruct (start <? 0)%Z; lia.
Qed.

Lemma addColor_length (color : string) (st : State) :
  2 <= length (colors st) <= 5 -> 2 <= length (colors (snd (addColor color st))) <= 5.
Proof.
  intros H. unfold addColor.
  destruct (Nat.ltb_spec (length (colors st)) 5) as [Hlt|Hge]; [|exact H].
  cbn [snd notify colors].
  pose proof (splice_length (colors st) (Z.of_nat (length (colors st)) - 1) 0 [color]) as Hs.
  cbn [length] in Hs. lia.
Qed.

Lemma removeColor_length (index : Z) (st : State) :
  2 <= length (colors st) <= 5 -> 2 <= length (colors (snd (removeColor index st))) <= 5.
Proof.
  intros H. unfold removeColor.
  destruct (Nat.ltb_spec 2 (length (colors st))) as [Hlt|Hge]; [|exact H].
  cbn [snd notify colors].
  pose proof (splice_length (colors st) index 1 []) as Hs.
  cbn [length] in Hs. lia.
Qed.

End StateFacts.

(** X19 — The number of colours. If the state holds between 2 and 5
    colours, it still does after any sequence of [addColor] and
    [removeColor] calls, whatever the colours and the indices are; so the
    palette handed to the processing is never empty. *)
Theorem colour_count_invariant (calls : list StateManager.call) (st : StateManager.State) :
  2 <= length (StateManager.colors st) <= 5 ->
  2 <= length (StateManager.colors (foldl StateManager.perform st calls)) <= 5.
Proof.
  revert st. induction calls as [|c rest IH]; intros st H; [exact H|].
  cbn [foldl]. apply IH. destruct c as [color|index]; cbn [StateManager.perform].
  - now apply StateFacts.addColor_length.
  - now apply StateFacts.removeColor_length.
Qed.

Lemma colour_count_invariant_witness :
  2 <= length (StateManager.colors
                 (foldl StateManager.perform StateManager.constructor
                    [StateManager.AddColor "#808080"; StateManager.RemoveColor 7;
                     StateManager.RemoveColor (-1); StateManager.RemoveColor 0])) <= 5.
Proof.
  apply (colour_count_invariant _ StateManager.constructor). simpl. lia.
Defined.

(** X20 — Where [addColor] and [removeColor] act. With fewer than 5
    colours [addColor] puts the new colour just before the last one, returns
    true and notifies "colors"; with 5 or more it returns false and leaves
    the state alone. With more than 2 colours [removeColor] always returns
    true and notifies, and removes the colour at the index, counted from
    the end for a negative index, the first colour for an index before the
    start and nothing at all for an index past the end; with 2 or fewer it
    returns false and leaves the state alone. Removing the colour just
    added gives the colours back. *)
Theorem addColor_removeColor_positions (st : StateManager.State) (color : string) (index : Z) :
  let cs := StateManager.colors st in
  let n := length cs in
  let notified' := StateManager.notified st ++ ["colors"%string] in
  (n < 5 ->
     StateManager.addColor color st =
     (true, StateManager.mkState (take (n - 1) cs ++ color :: drop (n - 1) cs) notified')) /\
  (5 <= n -> StateManager.addColor color st = (false, st)) /\
  (n <= 2 -> StateManager.removeColor index st = (false, st)) /\
  (2 < n ->
     exists kept,
       StateManager.removeColor index st = (true, StateManager.mkState kept notified') /\
       ((0 <= index < Z.of_nat n)%Z ->
          kept = take (Z.to_nat index) cs ++ drop (S (Z.to_nat index)) cs) /\
       ((- Z.of_nat n <= index < 0)%Z ->
          kept = take (Z.to_nat (Z.of_nat n + index)) cs
                 ++ drop (S (Z.to_nat (Z.of_nat n + index))) cs) /\
       ((index < - Z.of_nat n)%Z -> kept = drop 1 cs) /\
       ((Z.of_nat n <= index)%Z -> kept = cs)) /\
  (2 <= n < 5 ->
     StateManager.colors
       (snd (StateManager.removeColor (Z.of_nat n - 1) (snd (StateManager.addColor color st))))
     = cs).
Proof.
  intros cs n notified'.
  assert (Hadd : n < 5 ->
     StateManager.addColor color st =
     (true, StateManager.mkState (take (n - 1) cs ++ color :: drop (n - 1) cs) notified')).
  { intros Hn. unfold StateManager.addColor. fold cs. fold n.
    destruct (Nat.ltb_spec n 5) as [_|?]; [|lia].
    cbv zeta. unfold StateManager.notify, StateManager.splice, StateManager.relativeStart.
    fold n. cbn [StateManager.colors StateManager.notified].
    assert (Hs : (if (Z.of_nat n - 1 <? 0)%Z
                  then Z.to_nat (Z.max (Z.of_nat n + (Z.of_nat n - 1)) 0)
                  else Z.to_nat (Z.min (Z.of_nat n - 1) (Z.of_nat n))) = n - 1)
      by (destruct (Z.ltb_spec (Z.of_nat n - 1) 0); lia).
    rewrite Hs.
    replace (Z.to_nat (Z.min (Z.max 0 0) (Z.of_nat (n - (n - 1))))) with 0 by lia.
    rewrite Nat.add_0_r. reflexivity. }
  assert (Hsplice : StateManager.removeColor index st =
            (if 2 <? n
             then (true, StateManager.mkState (StateManager.splice cs index 1 []) notified')
             else (false, st))) by reflexivity.
  assert (Hcut : forall (l : list string) idx k,
            StateManager.relativeStart (length l) idx = k -> k < length l ->
            StateManager.splice l idx 1 [] = take k l ++ drop (S k) l).
  { intros l idx k Hk Hlt. unfold StateManager.splice. cbv zeta. rewrite Hk.
    replace (Z.to_nat (Z.min (Z.max 1 0) (Z.of_nat (length l - k)))) with 1 by lia.
    replace (k + 1) with (S k) by lia. reflexivity. }
  split; [exact Hadd|]. split; [|split; [|split; [|]]].
  - intros Hn. unfold StateManager.addColor. fold cs. fold n.
    destruct (Nat.ltb_spec n 5) as [?|_]; [lia|reflexivity].
  - intros Hn. rewrite Hsplice.
    destruct (Nat.ltb_spec 2 n) as [?|_]; [lia|reflexivity].
  - intros Hn. rewrite Hsplice.
    destruct (Nat.ltb_spec 2 n) as [_|?]; [|lia].
    eexists. split; [reflexivity|]. repeat split.
    + intros Hi. apply Hcut; [|fold n; lia].
      unfold StateManager.relativeStart. fold n. destruct (Z.ltb_spec index 0); lia.
    + intros Hi. apply Hcut; [|fold n; lia].
      unfold StateManager.relativeStart. fold n. destruct (Z.ltb_spec index 0); lia.
    + intros Hi. rewrite (Hcut cs index 0); [reflexivity| |fold n; lia].
      unfold StateManager.relativeStart. fold n. destruct (Z.ltb_spec index 0); lia.
    + intros Hi. unfold StateManager.splice, StateManager.relativeStart. fold n.
      destruct (Z.ltb_spec index 0) as [?|_]; [lia|]. cbv zeta.
      replace (Z.to_nat (Z.min index (Z.of_nat n))) with n by lia.
      rewrite take_ge by (fold n; lia). rewrite drop_ge by (fold n; lia).
      cbn [app]. now rewrite app_nil_r.
  - intros Hn. rewrite Hadd by lia. cbn [snd].
    unfold StateManager.removeColor. cbn [StateManager.colors StateManager.notified].
    assert (Hlen : length (take (n - 1) cs ++ color :: drop (n - 1) cs) = S n).
    { rewrite length_app, length_take. cbn [length]. rewrite length_drop. fold n. lia. }
    rewrite Hlen.
    destruct (Nat.ltb_spec 2 (S n)) as [_|?]; [|lia].
    cbn [snd StateManager.notify StateManager.colors].
    rewrite (Hcut _ _ (n - 1)).
    + rewrite take_app_le by (rewrite length_take; fold n; lia).
      rewrite take_take. replace ((n - 1) `min` (n - 1)) with (n - 1) by lia.
      rewrite drop_app_ge by (rewrite length_take; fold n; lia).
      rewrite length_take. fold n.
      replace (S (n - 1) - (n - 1) `min` n) with 1 by lia.
      change (drop 1 (color :: drop (n - 1) cs)) with (drop (n - 1) cs).
      apply take_drop.
    + unfold StateManager.relativeStart. rewrite Hlen.
      destruct (Z.ltb_spec (Z.of_nat n - 1) 0); lia.
    + rewrite Hlen. lia.
Qed.

Lemma addColor_removeColor_positions_witness :
  StateManager.addColor "#808080" StateManager.constructor =
  (true, StateManager.mkState ["#0a0a0a"; "#808080"; "#f5f5f5"]%string ["colors"%string]).
Proof.
  refine (proj1 (addColor_removeColor_positions StateManager.constructor "#808080" 0) _).
  simpl. lia.
Defined.
